(** * Mirror256: a shallow embedding of [mirror_hash/mirror.py]

    The hasher of the repository is a Python class working on lists of
    nibbles.  Python integers are unbounded, so they are embedded as [Z];
    lists are stdpp lists read with Python's indexing rules (negative
    indices count from the end, an index out of range raises); a [str] is
    the list of its code points and [bytes] is a list of octets.  Code that
    can raise returns a [result]; [update], which mutates the hasher before
    it can raise, returns the hasher together with the outcome. *)

From Stdlib Require Import ZArith Lia Bool Ascii String.
From stdpp Require Import base option list.

Local Open Scope Z_scope.

(** ** Python values, exceptions and sequence primitives *)

Module Py.

Inductive exn : Type :=
| TypeError
| UnicodeEncodeError
| IndexError
| ZeroDivisionError
| StructError.

Inductive result (A : Type) : Type :=
| Ok (a : A)
| Raise (e : exn).
Arguments Ok {A} a.
Arguments Raise {A} e.

#[global] Instance result_ret : MRet result := fun A a => Ok a.
#[global] Instance result_bind : MBind result := fun A B f r =>
  match r with
  | Ok a => f a
  | Raise e => Raise e
  end.

Definition is_ok {A} (r : result A) : bool :=
  match r with Ok _ => true | Raise _ => false end.

(** The values a caller can pass where the code expects a [str].  A [str]
    is the list of its code points. *)
Inductive value : Type :=
| PyNone
| PyBool (b : bool)
| PyInt (n : Z)
| PyStr (s : list Z)
| PyBytes (b : list Z)
| PyList (l : list Z).

(** [bool(v)], as used by [not m]. *)
Definition truthy (v : value) : bool :=
  match v with
  | PyNone => false
  | PyBool b => b
  | PyInt n => negb (n =? 0)
  | PyStr s => negb (Nat.eqb (length s) 0)
  | PyBytes b => negb (Nat.eqb (length b) 0)
  | PyList l => negb (Nat.eqb (length l) 0)
  end.

(** [isinstance(v, str)] *)
Definition is_str (v : value) : bool :=
  match v with PyStr _ => true | _ => false end.

(** Truth value of an [int], and [a and b] on [int]s (which returns an
    operand, not a [bool]). *)
Definition int_truthy (a : Z) : bool := negb (a =? 0).
Definition int_and (a b : Z) : Z := if a =? 0 then a else b.

(** [len(l)] *)
Definition len {A} (l : list A) : Z := Z.of_nat (length l).

(** [range(n)]: empty when [n <= 0]. *)
Definition range (n : Z) : list Z := Z.of_nat <$> seq 0 (Z.to_nat n).

(** [[x] * n]: empty when [n <= 0]. *)
Definition repeat {A} (x : A) (n : Z) : list A := replicate (Z.to_nat n) x.

(** Position of index [i] in a list of length [n], or [None] where Python
    raises [IndexError]. *)
Definition position (n i : Z) : option nat :=
  if (0 <=? i) && (i <? n) then Some (Z.to_nat i)
  else if (i <? 0) && (- n <=? i) then Some (Z.to_nat (n + i))
  else None.

(** [l[i]] *)
Definition getitem {A} (l : list A) (i : Z) : result A :=
  match position (len l) i with
  | Some k => match l !! k with Some x => Ok x | None => Raise IndexError end
  | None => Raise IndexError
  end.

(** [l[i] = x] *)
Definition setitem {A} (l : list A) (i : Z) (x : A) : result (list A) :=
  match position (len l) i with
  | Some k => Ok (<[k := x]> l)
  | None => Raise IndexError
  end.

(** A slice bound, clamped the way Python clamps it. *)
Definition clamp (n i : Z) : Z :=
  if i <? 0 then Z.max 0 (n + i) else Z.min n i.

(** [l[start:stop]], a missing bound being [None]. *)
Definition slice {A} (l : list A) (start stop : option Z) : list A :=
  let a := from_option (clamp (len l)) 0 start in
  let b := from_option (clamp (len l)) (len l) stop in
  take (Z.to_nat (b - a)) (drop (Z.to_nat a) l).

(** A loop whose body can raise. *)
Fixpoint foldM {A B} (f : B -> A -> result B) (l : list A) (b : B) : result B :=
  match l with
  | [] => Ok b
  | a :: l' => b' ← f b a; foldM f l' b'
  end.

(** [str.encode('utf-8')] on one code point.  Lone surrogates cannot be
    encoded; values outside 0..0x10FFFF are not code points at all. *)
Definition encode_code_point (c : Z) : result (list Z) :=
  if (c <? 0) || (0x10FFFF <? c) then Raise UnicodeEncodeError
  else if c <? 0x80 then Ok [c]
  else if c <? 0x800 then
    Ok [Z.lor 0xC0 (Z.shiftr c 6); Z.lor 0x80 (Z.land c 0x3F)]
  else if (0xD800 <=? c) && (c <=? 0xDFFF) then Raise UnicodeEncodeError
  else if c <? 0x10000 then
    Ok [Z.lor 0xE0 (Z.shiftr c 12);
        Z.lor 0x80 (Z.land (Z.shiftr c 6) 0x3F);
        Z.lor 0x80 (Z.land c 0x3F)]
  else
    Ok [Z.lor 0xF0 (Z.shiftr c 18);
        Z.lor 0x80 (Z.land (Z.shiftr c 12) 0x3F);
        Z.lor 0x80 (Z.land (Z.shiftr c 6) 0x3F);
        Z.lor 0x80 (Z.land c 0x3F)].

(** [s.encode('utf-8')] *)
Fixpoint encode_utf8 (s : list Z) : result (list Z) :=
  match s with
  | [] => Ok []
  | c :: s' =>
      bs ← encode_code_point c;
      rest ← encode_utf8 s';
      Ok (bs ++ rest)
  end.

(** [b.ljust(width, fill)] *)
Definition ljust (width : Z) (fill : Z) (b : list Z) : list Z :=
  b ++ repeat fill (width - len b).

(** [struct.pack('!<n>B', *vals)]: [n] unsigned octets.  A negative count
    is not a format, the number of values must be [n] and every value
    must fit an octet. *)
Definition struct_pack_B (n : Z) (vals : list Z) : result (list Z) :=
  if n <? 0 then Raise StructError
  else if negb (len vals =? n) then Raise StructError
  else if forallb (fun v => (0 <=? v) && (v <=? 255)) vals then Ok vals
  else Raise StructError.

(** [struct.unpack('!32B', b)] *)
Definition struct_unpack_32B (b : list Z) : result (list Z) :=
  if len b =? 32 then Ok b else Raise StructError.

(** [binascii.hexlify(b).decode('ascii')] *)
Definition hex_char (d : Z) : ascii :=
  nth (Z.to_nat d) (list_ascii_of_string "0123456789abcdef") "0"%char.

Fixpoint hexlify (b : list Z) : string :=
  match b with
  | [] => EmptyString
  | x :: b' => String (hex_char (x / 16)) (String (hex_char (x mod 16)) (hexlify b'))
  end.

(** [format(n, 'x')] for [n >= 0], each character kept as the value of
    its hexadecimal digit. *)
Fixpoint hex_digits (fuel : nat) (n : Z) (acc : list Z) : list Z :=
  match fuel with
  | O => acc
  | S fuel' =>
      if n <? 16 then n :: acc
      else hex_digits fuel' (n / 16) (n mod 16 :: acc)
  end.

Definition format_x (n : Z) : list Z :=
  hex_digits (S (Z.to_nat (Z.log2 n))) n [].

End Py.

Import Py.

(** ** The hasher object

    [Mirror256._last_hashes] is a class attribute: one list shared by all
    hashers, filled in place by the initialisers.  [update] assigns
    [self._last_hashes], which creates an attribute of the instance that
    hides the class attribute from then on.  The class attribute is the
    [cls] argument of the functions below and the instance attribute the
    optional field [_last_hashes]. *)

Record Mirror256 : Type := mkMirror256 {
  _buffer : list Z;
  _counter : Z;
  depth : Z;
  size : Z;
  _hashed : list Z;
  _last_hashes : option (list (list Z))
}.

(** Attribute look-up [self._last_hashes]. *)
Definition self_last_hashes (cls : list (list Z)) (self : Mirror256) : list (list Z) :=
  from_option id cls (_last_hashes self).

Definition set_buffer (b : list Z) (self : Mirror256) : Mirror256 :=
  mkMirror256 b (_counter self) (depth self) (size self) (_hashed self) (_last_hashes self).
Definition set_counter (c : Z) (self : Mirror256) : Mirror256 :=
  mkMirror256 (_buffer self) c (depth self) (size self) (_hashed self) (_last_hashes self).
Definition set_hashed (hm : list Z) (self : Mirror256) : Mirror256 :=
  mkMirror256 (_buffer self) (_counter self) (depth self) (size self) hm (_last_hashes self).
Definition set_last_hashes (l : list (list Z)) (self : Mirror256) : Mirror256 :=
  mkMirror256 (_buffer self) (_counter self) (depth self) (size self) (_hashed self) (Some l).

(** A method runs on the hasher and leaves it, possibly changed, with its
    outcome: what it returns or the exception it raises.  The hasher is
    kept as it was when the exception was raised. *)
Definition method (A : Type) : Type := Mirror256 -> Mirror256 * result A.

#[global] Instance method_ret : MRet method := fun A a self => (self, Ok a).
#[global] Instance method_bind : MBind method := fun A B f c self =>
  match c self with
  | (self', Ok a) => f a self'
  | (self', Raise e) => (self', Raise e)
  end.

Definition raise {A} (e : exn) : method A := fun self => (self, Raise e).
Definition get {A} (f : Mirror256 -> A) : method A := fun self => (self, Ok (f self)).
Definition modify (f : Mirror256 -> Mirror256) : method unit := fun self => (f self, Ok ()).
Definition lift {A} (f : Mirror256 -> result A) : method A := fun self => (self, f self).

(** [while cond: body], with the number of iterations bounded by [fuel]. *)
Fixpoint while (fuel : nat) (cond : Mirror256 -> bool) (body : method unit) : method unit :=
  match fuel with
  | O => mret ()
  | S fuel' => fun self =>
      if cond self then (body ≫= fun _ => while fuel' cond body) self
      else (self, Ok ())
  end.

(** A [while] loop on a local variable, which cannot raise. *)
Fixpoint while_pure {S} (fuel : nat) (cond : S -> bool) (body : S -> S) (s : S) : S :=
  match fuel with
  | O => s
  | S fuel' => if cond s then while_pure fuel' cond body (body s) else s
  end.

Definition DEFAULT_DEPTH : Z := 128.
Definition DEFAULT_SIZE : Z := 256.
Definition TOFFOLI : Z := 0.
Definition FREDKIN : Z := 1.
Definition REGULAR : Z := 0.
Definition MIRRORED : Z := 1.

Definition FIRST_PRIMES_CUBIC_ROOT_DEC_REP : list Z := [
  0xa54ddd35b5; 0xd48ef058b4; 0x342640f4c9; 0x51cd2de3e9; 0x8503094982; 0x9b9fd7c452; 0xc47a643e0c; 0xa8602fe35a;
  0x20eaf18d67; 0x4d59f727fe; 0x685bd4533f; 0x7534dcd163; 0x8dc0dcbb8b; 0xb01624cb6d; 0xcfeabbf181; 0xda0b94f97e;
  0x8f4d86d1a9; 0x20c96455af; 0x29c172f7dd; 0x43b770ba12; 0x544d18005f; 0x6c34f761a1; 0x8a76ef782f; 0x98f8d17ddc;
  0xa0151027c6; 0xae080d4b7b; 0xb4e03c992b; 0xc251542f88; 0x3dc28be52f; 0xb75c7e128f; 0x241edeb8f4; 0x04317d07b2;
  0x46305e3a3d; 0x4bafebecef; 0x09308a3b6b; 0x6bb275e451; 0x76044f4b33; 0x85311d5237; 0x94051aaeb0; 0x98e38ef4df;
  0xb0b5da348c; 0xb55fd044a0; 0xbe9b372069; 0xc32ceea80e; 0xddf799a193; 0x0eee44484b; 0x17529bf549; 0x1b7b53489d;
  0x23ba4d74a0; 0x2febef5a50; 0x33f0db9016; 0x47b5d89777; 0x5352304156; 0x5ec09f1622; 0x6a02e0a83b; 0x0af9027c88;
  0x78c3f873a6; 0x8009496a17; 0x83a5537ad2; 0x95715f4210; 0xadb0de7719; 0xb47bab87d1; 0xb7db7bc375; 0xbe90221e69
].

(** ** Key-schedule initialisation *)

(** [cubic_root_array(cr)]; [int(h[i], 16)] is the digit value [h] already
    holds. *)
Definition cubic_root_array (cr : Z) : result (list Z) :=
  let h := format_x cr in
  let h := while_pure 10 (fun h => len h <? 10) (fun h => 0 :: h) h in
  let ret := repeat 0 8 in
  let h := slice h (Some (-10)) (Some (-2)) in
  foldM (fun ret i =>
           if i <? len h then d ← getitem h i; setitem ret i d
           else Ok ret)
        (range 8) ret.

(** One turn of the loop of [_init_standard_state], on the class
    attribute. *)
Definition standard_layer (self : Mirror256) (cls : list (list Z)) : result (list Z) :=
  let i := len cls in
  let layer := [] in
  if i <? len FIRST_PRIMES_CUBIC_ROOT_DEC_REP then
    jprimerep ← getitem FIRST_PRIMES_CUBIC_ROOT_DEC_REP i;
    digits ← cubic_root_array jprimerep;
    let layer := layer ++ digits in
    Ok (while_pure (Z.to_nat (size self `div` 4))
          (fun layer => len layer <? size self `div` 4)
          (fun layer => layer ++ [(i + 1) `mod` 16]) layer)
  else
    Ok ((fun j => (i + j) `mod` 16) <$> range (size self `div` 4)).

(** [_init_standard_state]: the class attribute it leaves and its outcome. *)
Fixpoint _init_standard_state (fuel : nat) (self : Mirror256) (cls : list (list Z))
  : list (list Z) * result unit :=
  match fuel with
  | O => (cls, Ok ())
  | S fuel' =>
      if len cls <? depth self then
        match standard_layer self cls with
        | Ok layer => _init_standard_state fuel' self (cls ++ [layer])
        | Raise e => (cls, Raise e)
        end
      else (cls, Ok ())
  end.

(** [_init_random_state].  [randint k] is the value of the [k]-th call of
    [random.randint(0, 15)] after [random.seed(777)]; [drawn] counts the
    calls made so far. *)
Fixpoint _init_random_state (randint : nat -> Z) (fuel : nat) (drawn : nat)
    (self : Mirror256) (cls : list (list Z)) : list (list Z) * result unit :=
  match fuel with
  | O => (cls, Ok ())
  | S fuel' =>
      if len cls <? depth self then
        let n := Z.to_nat (size self `div` 4) in
        let random_hash := (fun j => randint (drawn + j)%nat) <$> seq 0 n in
        _init_random_state randint fuel' (drawn + n)%nat self (cls ++ [random_hash])
      else (cls, Ok ())
  end.

(** ** Codec *)

(** The body of the loop of [_unpack]: the two nibbles of octet [b] go to
    [ret[i]] and [ret[i + 1]]. *)
Definition unpack_byte (st : list Z * Z) (b : Z) : result (list Z * Z) :=
  let '(ret, i) := st in
  ret ← setitem ret i (Z.land (Z.shiftr b 4) 0x0F);
  let i := i + 1 in
  ret ← setitem ret i (Z.land b 0x0F);
  let i := i + 1 in
  Ok (ret, i).

(** [_unpack(m)] for a [str] argument, the only kind [update] passes. *)
Definition _unpack (m : list Z) : result (list Z) :=
  let ret := repeat 0 64 in
  m_bytes ← encode_utf8 m;
  let m_bytes := ljust 32 65 (slice m_bytes None (Some 32)) in
  l ← struct_unpack_32B m_bytes;
  st ← foldM unpack_byte l (ret, 0);
  Ok (fst st).

(** The body of the loop of [_pack]: octet [i] of the digest. *)
Definition pack_byte (hm : list Z) (hb : list Z) (i : Z) : result (list Z) :=
  if i * 2 <? len hm then
    x ← getitem hm (i * 2);
    let b := Z.shiftl x 4 in
    b ← (if i * 2 + 1 <? len hm
         then y ← getitem hm (i * 2 + 1); Ok (Z.lor b y)
         else Ok b);
    setitem hb i b
  else Ok hb.

(** [_pack(hm)] *)
Definition _pack (self : Mirror256) (hm : list Z) : result (list Z) :=
  let hb := repeat 0 (size self `div` 8) in
  hb ← foldM (pack_byte hm) (range (size self `div` 8)) hb;
  struct_pack_B (size self `div` 8) hb.

(** ** Gate network *)

(** [_get_wire(gate_index, first_sublayer, offset)] *)
Definition _get_wire (self : Mirror256) (gate_index : Z) (first_sublayer : bool)
    (offset : Z) : result Z :=
  if size self =? 0 then Raise ZeroDivisionError
  else Ok ((gate_index * 4 + offset + (if negb first_sublayer then 2 else 0)) `mod` size self).

(** [_get_bit(block, wire)] *)
Definition _get_bit (block : list Z) (wire : Z) : result Z :=
  if wire `div` 4 <? len block then
    nib ← getitem block (wire `div` 4);
    Ok (Z.land (Z.shiftr nib (wire `mod` 4)) 1)
  else Ok 0.

(** [_set_bit(block, wire, bit)] *)
Definition _set_bit (block : list Z) (wire : Z) (bit : Z) : result (list Z) :=
  if wire `div` 4 <? len block then
    old_nib ← getitem block (wire `div` 4);
    let ret := Z.lor (Z.land old_nib (Z.lxor 15 (Z.shiftl 1 (wire `mod` 4))))
                     (Z.shiftl bit (wire `mod` 4)) in
    setitem block (wire `div` 4) ret
  else Ok block.

(** The [if]/[elif] chain of [_apply_gate]: the three values after the
    gate. *)
Definition gate_values (gate_name gate_symmetry val1 val2 val3 : Z) : Z * Z * Z :=
  if (gate_name =? TOFFOLI) && (gate_symmetry =? REGULAR)
     && int_truthy (int_and val1 val2)
  then (val1, val2, Z.lxor val3 (int_and val1 val2))
  else if (gate_name =? TOFFOLI) && (gate_symmetry =? MIRRORED)
          && int_truthy (int_and val2 val3)
  then (Z.lxor val1 (int_and val2 val3), val2, val3)
  else if (gate_name =? FREDKIN) && (gate_symmetry =? REGULAR)
          && int_truthy val1 && negb (val2 =? val3)
  then (val1, val3, val2)
  else if (gate_name =? FREDKIN) && (gate_symmetry =? MIRRORED)
          && int_truthy val3 && negb (val1 =? val2)
  then (val2, val1, val3)
  else (val1, val2, val3).

(** [_apply_gate(gate_index, gate_name, gate_symmetry, block, first_sublayer, layer)] *)
Definition _apply_gate (self : Mirror256) (gate_index gate_name gate_symmetry : Z)
    (block : list Z) (first_sublayer : bool) (layer : Z) : result (list Z) :=
  let initial_offset := layer `mod` 2 in
  wire1 ← _get_wire self gate_index first_sublayer (initial_offset + 0);
  wire2 ← _get_wire self gate_index first_sublayer (initial_offset + 1);
  wire3 ← _get_wire self gate_index first_sublayer (initial_offset + 2);
  val1 ← _get_bit block wire1;
  val2 ← _get_bit block wire2;
  val3 ← _get_bit block wire3;
  let '(oval1, oval2, oval3) := (val1, val2, val3) in
  let '(val1, val2, val3) := gate_values gate_name gate_symmetry val1 val2 val3 in
  block ← (if negb (val1 =? oval1) then _set_bit block wire1 val1 else Ok block);
  block ← (if negb (val2 =? oval2) then _set_bit block wire2 val2 else Ok block);
  block ← (if negb (val3 =? oval3) then _set_bit block wire3 val3 else Ok block);
  Ok block.

(** The bodies of the three loops of [_hash_layer_pass]. *)
Definition xor_layer_key (layer_hash : list Z) (block : list Z) (gate_index : Z)
  : result (list Z) :=
  if (gate_index <? len block) && (gate_index <? len layer_hash) then
    x ← getitem block gate_index;
    k ← getitem layer_hash gate_index;
    setitem block gate_index (Z.lxor x k)
  else Ok block.

Definition first_sublayer_gate (self : Mirror256) (layer : Z) (layer_hash : list Z)
    (block : list Z) (gate_index : Z) : result (list Z) :=
  if gate_index <? len layer_hash then
    k ← getitem layer_hash gate_index;
    let gate_type := Z.land k 0x3 in
    let gate_name := Z.land gate_type 1 in
    let gate_symmetry := Z.shiftr gate_type 1 in
    _apply_gate self gate_index gate_name gate_symmetry block true layer
  else Ok block.

Definition second_sublayer_gate (self : Mirror256) (layer : Z) (layer_hash : list Z)
    (block : list Z) (gate_index : Z) : result (list Z) :=
  if gate_index <? len layer_hash then
    k ← getitem layer_hash gate_index;
    let gate_type := Z.shiftr (Z.land k 0xC) 2 in
    let gate_name := Z.land gate_type 1 in
    let gate_symmetry := Z.shiftr gate_type 1 in
    _apply_gate self gate_index gate_name gate_symmetry block false layer
  else Ok block.

(** [_hash_layer_pass(layer, block)]; [last_hashes] is [self._last_hashes]. *)
Definition _hash_layer_pass (self : Mirror256) (last_hashes : list (list Z))
    (layer : Z) (block : list Z) : result (list Z) :=
  layer_hash ← getitem last_hashes layer;
  block ← foldM (xor_layer_key layer_hash) (range (size self `div` 4)) block;
  block ← foldM (first_sublayer_gate self layer layer_hash) (range (size self `div` 4)) block;
  block ← foldM (second_sublayer_gate self layer layer_hash) (range (size self `div` 4)) block;
  Ok block.

(** [_mirror256_process(m)] *)
Definition _mirror256_process (cls : list (list Z)) (m : list Z) (self : Mirror256)
  : result (list Z) :=
  block ← _unpack m;
  foldM (fun block layer => _hash_layer_pass self (self_last_hashes cls self) layer block)
        (range (depth self)) block.

(** ** The public methods *)

(** The body of the loop of [update]: one full chunk. *)
Definition update_chunk (cls : list (list Z)) : method unit :=
  chunk ← get (fun self => slice (_buffer self) None (Some 32));
  hm ← lift (_mirror256_process cls chunk);
  modify (fun self =>
    set_last_hashes ([hm] ++ slice (self_last_hashes cls self) None (Some (depth self - 1))) self);;
  modify (fun self => set_buffer (slice (_buffer self) (Some 32) None) self).

(** "Process complete 32-byte chunks": the [while] loop of [update].  Every
    turn removes 32 characters from the buffer, so its length is fuel
    enough. *)
Definition process_complete_chunks (cls : list (list Z)) : method unit :=
  fun self =>
    while (length (_buffer self)) (fun self => 32 <=? len (_buffer self))
          (update_chunk cls) self.

(** "Process any remaining data": the last [if] of [update(m)]. *)
Definition process_remaining (cls : list (list Z)) (m : list Z) : method unit :=
  buffer ← get _buffer;
  if truthy (PyStr buffer) || Nat.eqb (length m) 0 then
    let padded := buffer ++ repeat 65 (32 - len buffer) in
    hm ← lift (_mirror256_process cls padded);
    modify (set_hashed hm)
  else mret ().

(** [update(m)] *)
Definition update (cls : list (list Z)) (m : value) : method unit :=
  if negb (truthy m) then mret ()
  else
    match m with
    | PyStr s =>
        modify (fun self => set_buffer (_buffer self ++ s) self);;
        modify (fun self => set_counter (_counter self + len s) self);;
        process_complete_chunks cls;;
        process_remaining cls s
    | _ => raise TypeError
    end.

(** [digest()] *)
Definition digest : method (list Z) :=
  lift (fun self => _pack self (_hashed self)).

(** [hexdigest()] *)
Definition hexdigest : method string :=
  d ← digest;
  mret ("0x" ++ hexlify d)%string.

(** How [__init__] is asked to fill the class attribute:
    [use_standard_state] true, or false together with the values
    [random.randint(0, 15)] is going to return. *)
Inductive init_state : Type :=
| StandardState
| RandomState (randint : nat -> Z).

(** [depth or DEFAULT_DEPTH] *)
Definition or_default (o : option Z) (d : Z) : Z :=
  match o with
  | Some z => if z =? 0 then d else z
  | None => d
  end.

(** Lines 103-107 of [__init__]: fill the class attribute when it holds
    fewer than [depth] layers. *)
Definition init_last_hashes (state : init_state) (self : Mirror256)
    (cls : list (list Z)) : list (list Z) * result unit :=
  if len cls <? depth self then
    match state with
    | StandardState => _init_standard_state (Z.to_nat (depth self)) self cls
    | RandomState randint => _init_random_state randint (Z.to_nat (depth self)) 0 self cls
    end
  else (cls, Ok ()).

(** Lines 96-100 of [__init__]: the attributes of the new hasher. *)
Definition fresh (depth size : option Z) : Mirror256 :=
  mkMirror256 [] 0 (or_default depth DEFAULT_DEPTH) (or_default size DEFAULT_SIZE) [] None.

(** [Mirror256(m, depth, size, use_standard_state)]: the class attribute it
    leaves, and the new hasher unless it raises.  [None] is the default of
    each optional argument. *)
Definition __init__ (cls : list (list Z)) (m : value) (depth size : option Z)
    (state : init_state) : list (list Z) * result Mirror256 :=
  let self := fresh depth size in
  let '(cls, r) := init_last_hashes state self cls in
  match r with
  | Raise e => (cls, Raise e)
  | Ok _ =>
      match m with
      | PyNone => (cls, Ok self)
      | _ =>
          if negb (is_str m) then (cls, Raise TypeError)
          else
            match update cls m self with
            | (self, Ok _) => (cls, Ok self)
            | (_, Raise e) => (cls, Raise e)
            end
      end
  end.

(** [new(m)] *)
Definition new (cls : list (list Z)) (m : value) : list (list Z) * result Mirror256 :=
  __init__ cls m None None StandardState.

(** ** The specification's description of the codec, the gates and the
    schedule, stated independently of the code

    These definitions follow the words of the specification; the theorems
    below compare them with the functions translated from the source. *)

Module Spec.

(** "Each byte yields two nibbles in the Block, high nibble first, low
    nibble second". *)
Definition nibbles (byte : Z) : list Z := [(byte / 16) mod 16; byte mod 16].

(** "truncated to the first 32 bytes if longer, then right-padded with the
    ASCII byte for 'A' (0x41) to exactly 32 bytes if shorter". *)
Definition chunk32 (bytes : list Z) : list Z :=
  if (32 <? length bytes)%nat then take 32 bytes
  else bytes ++ replicate (32 - length bytes) 0x41.

Definition unpack (bytes : list Z) : list Z := chunk32 bytes ≫= nibbles.

(** "wire(tapOffset) = (gateIndex*4 + initialOffset + tapOffset +
    sublayerShift) mod size", with "initialOffset = layerIndex mod 2" and
    "sublayerShift = 0 for the first sublayer, 2 for the second". *)
Definition wire (size gateIndex layerIndex : Z) (firstSublayer : bool) (tapOffset : Z) : Z :=
  let initialOffset := layerIndex mod 2 in
  let sublayerShift := if firstSublayer then 0 else 2 in
  (gateIndex * 4 + initialOffset + tapOffset + sublayerShift) mod size.

Inductive name : Type := Toffoli | Fredkin.
Inductive symmetry : Type := Regular | Mirrored.

(** "gateName = gateType & 1 (0 = Toffoli, 1 = Fredkin) and gateSymmetry =
    gateType >> 1 (0 = Regular, 1 = Mirrored)". *)
Definition decode (gateType : Z) : name * symmetry :=
  (if Z.land gateType 1 =? 0 then Toffoli else Fredkin,
   if Z.shiftr gateType 1 =? 0 then Regular else Mirrored).

(** The table of gate semantics. *)
Definition gate (n : name) (s : symmetry) (v : bool * bool * bool) : bool * bool * bool :=
  let '(v1, v2, v3) := v in
  match n, s with
  | Toffoli, Regular => if v1 && v2 then (v1, v2, negb v3) else v
  | Toffoli, Mirrored => if v2 && v3 then (negb v1, v2, v3) else v
  | Fredkin, Regular => if v1 && xorb v2 v3 then (v1, v3, v2) else v
  | Fredkin, Mirrored => if v3 && xorb v1 v2 then (v2, v1, v3) else v
  end.

(** "wire w lives in nibble w/4 at bit position w%4". *)
Definition bit (block : list Z) (w : Z) : bool :=
  match block !! Z.to_nat (w / 4) with
  | Some nib => Z.testbit nib (w mod 4)
  | None => false
  end.

Definition write (block : list Z) (w : Z) (b : bool) : list Z :=
  alter (fun nib => if b then Z.setbit nib (w mod 4) else Z.clearbit nib (w mod 4))
        (Z.to_nat (w / 4)) block.

(** One gate on a block: read the three wires, apply the table, and write
    back "only wires whose value actually changes". *)
Definition apply (n : name) (s : symmetry) (w1 w2 w3 : Z) (block : list Z) : list Z :=
  let '(v1, v2, v3) := (bit block w1, bit block w2, bit block w3) in
  let '(v1', v2', v3') := gate n s (v1, v2, v3) in
  let block := if xorb v1' v1 then write block w1 v1' else block in
  let block := if xorb v2' v2 then write block w2 v2' else block in
  let block := if xorb v3' v3 then write block w3 v3' else block in
  block.

Definition gate_at (size layerIndex : Z) (firstSublayer : bool) (gateIndex gateType : Z)
    (block : list Z) : list Z :=
  let '(n, s) := decode gateType in
  apply n s (wire size gateIndex layerIndex firstSublayer 0)
            (wire size gateIndex layerIndex firstSublayer 1)
            (wire size gateIndex layerIndex firstSublayer 2) block.

(** "push(newKey): prepend newKey, truncate to the leading depth entries
    (drop the oldest)". *)
Definition push (depth : Z) (newKey : list Z) (schedule : list (list Z)) : list (list Z) :=
  take (Z.to_nat depth) (newKey :: schedule).

(** "lowercase hex characters". *)
Definition lowercase_hex (c : ascii) : bool :=
  existsb (Ascii.eqb c) (list_ascii_of_string "0123456789abcdef").

End Spec.

(** ** Invariants and reachable states *)

Definition nibble (x : Z) : Prop := 0 <= x <= 15.
Definition block_ok (block : list Z) : Prop := Forall nibble block.
Definition schedule_ok (schedule : list (list Z)) : Prop := Forall block_ok schedule.

(** [random.randint(0, 15)] returns a value between 0 and 15. *)
Definition randint_ok (state : init_state) : Prop :=
  match state with
  | StandardState => True
  | RandomState randint => forall k, 0 <= randint k <= 15
  end.

(** What the class attribute can hold: it is empty when the module is
    loaded and only constructors touch it. *)
Inductive class_reachable : list (list Z) -> Prop :=
| class_loaded : class_reachable []
| class_init cls m depth size state cls' r :
    class_reachable cls -> randint_ok state ->
    __init__ cls m depth size state = (cls', r) ->
    class_reachable cls'.

(** The states a hasher can be in, with the class attribute next to it: it
    is constructed, updated (also by a call that raises), and other hashers
    are constructed meanwhile. *)
Inductive reachable : list (list Z) -> Mirror256 -> Prop :=
| reach_new cls m depth size state cls' self :
    class_reachable cls -> randint_ok state ->
    __init__ cls m depth size state = (cls', Ok self) ->
    reachable cls' self
| reach_update cls self m self' r :
    reachable cls self ->
    update cls m self = (self', r) ->
    reachable cls self'
| reach_other cls self m depth size state cls' r :
    reachable cls self -> randint_ok state ->
    __init__ cls m depth size state = (cls', r) ->
    reachable cls' self.

(** The invariant of the reachable states: every stored nibble is a nibble,
    and the schedule a hasher reads has a key for each of its layers. *)
Definition state_ok (cls : list (list Z)) (self : Mirror256) : Prop :=
  schedule_ok cls /\
  schedule_ok (self_last_hashes cls self) /\
  block_ok (_hashed self) /\
  size self <> 0 /\
  depth self <= len (self_last_hashes cls self).

(** A block of [n] nibbles. *)
Definition shape_ok (n : nat) (block : list Z) : Prop :=
  block_ok block /\ length block = n.

Definition octet (x : Z) : Prop := 0 <= x <= 255.

(** The nibble [_set_bit] stores. *)
Definition set_bit_value (old_nib k bit : Z) : Z :=
  Z.lor (Z.land old_nib (Z.lxor 15 (Z.shiftl 1 k))) (Z.shiftl bit k).

(** The fields [update] never assigns. *)
Definition same_config (self self' : Mirror256) : Prop :=
  depth self' = depth self /\ size self' = size self.

(** The table entries, checked one by one: [cubic_root_array] returns
    eight nibbles for each. *)
Definition cubic_root_ok (cr : Z) : bool :=
  match cubic_root_array cr with
  | Ok digits => forallb (fun d => (0 <=? d) && (d <=? 15)) digits
  | Raise _ => false
  end.

(** A sequence of [update] calls, whatever their outcomes. *)
Definition updates (cls : list (list Z)) (ms : list value) (self : Mirror256) : Mirror256 :=
  fold_left (fun self m => fst (update cls m self)) ms self.

(** The schedule of [s] is within the depth of [self], or [s] still has the
    schedule [self] had. *)
Definition bounded_or_untouched (cls : list (list Z)) (self s : Mirror256) : Prop :=
  depth s = depth self /\
  (len (self_last_hashes cls s) <= depth self \/ _last_hashes s = _last_hashes self).

(** The digest of the all-padding chunk: 32 characters 'A' through all the
    layers, packed. *)
Definition all_padding_digest (cls : list (list Z)) (self : Mirror256) : result (list Z) :=
  hm ← _mirror256_process cls (repeat 65 32) self;
  _pack self hm.

(** A character [str.encode('utf-8')] accepts: a code point that is not a
    surrogate. *)
Definition code_point_ok (c : Z) : Prop :=
  0 <= c <= 0x10FFFF /\ ~ (0xD800 <= c <= 0xDFFF).

Definition text_ok (s : list Z) : Prop := Forall code_point_ok s.

(** [self] with [more] appended to its buffer. *)
Definition with_more (more : list Z) (self : Mirror256) : Mirror256 :=
  set_buffer (_buffer self ++ more) self.

(** The number whose hexadecimal digits are [ds], most significant first. *)
Definition of_digits (ds : list Z) : Z := fold_left (fun acc d => acc * 16 + d) ds 0.

(** A Python [str] literal as the list of its code points (ASCII only). *)
Definition str (s : string) : list Z :=
  (fun c => Z.of_nat (nat_of_ascii c)) <$> list_ascii_of_string s.

(** ** Further definitions: wires, digests, texts and schedules *)

(** A block on which every gate of a hasher has its three wires. *)
Definition wired (self : Mirror256) (block : list Z) : Prop :=
  block_ok block /\ size self <= 4 * len block.

(** Octet [i] of the digest of block [hm]: two nibbles, a missing one
    counting as 0. *)
Definition digest_byte (hm : list Z) (i : nat) : Z :=
  16 * default 0 (hm !! (2 * i)%nat) + default 0 (hm !! (2 * i + 1)%nat).

(** A text that holds a character [str.encode('utf-8')] rejects. *)
Definition unencodable (s : list Z) : Prop := Exists (fun c => ~ code_point_ok c) s.

(** The digest block is empty, or a whole block. *)
Definition hashed_ok (self : Mirror256) : Prop :=
  _hashed self = [] \/ shape_ok 64 (_hashed self).

(** The schedule [update] assigns to the instance: [depth] layers, the
    newest a whole block. *)
Definition own_schedule_ok (self : Mirror256) : Prop :=
  forall own, _last_hashes self = Some own ->
    (1 <= depth self -> len own = depth self) /\
    exists hm rest, own = hm :: rest /\ shape_ok 64 hm.

(** Layer [i] of the standard key schedule of a hasher of size [sz]: the
    digits of the [i]-th table entry and a filler, or a counting pattern
    past the table. *)
Definition standard_layer_at (sz : Z) (i : nat) : list Z :=
  match FIRST_PRIMES_CUBIC_ROOT_DEC_REP !! i with
  | Some cr =>
      ((fun k => (cr `div` 16 ^ (9 - k)) `mod` 16) <$> range 8)
      ++ replicate (Z.to_nat (sz `div` 4 - 8)) ((Z.of_nat i + 1) `mod` 16)
  | None => (fun j => (Z.of_nat i + j) `mod` 16) <$> range (sz `div` 4)
  end.

(** A class attribute that holds standard layers of size [sz] only. *)
Definition standard_class (sz : Z) (cls : list (list Z)) : Prop :=
  forall i layer, cls !! i = Some layer -> layer = standard_layer_at sz i.

(** ** The demonstration's random messages *)

(** [string.ascii_uppercase + string.digits] *)
Definition ALPHANUMERIC : list Z := str "ABCDEFGHIJKLMNOPQRSTUVWXYZ0123456789".

(** [random_alphanumeric_string(length)].  [choice k] is the character the
    [k]-th call of [random.choice] returns; [drawn] counts the calls made
    so far. *)
Definition random_alphanumeric_string (choice : nat -> Z) (drawn : nat) (length : Z) : list Z :=
  (fun k => choice (drawn + k)%nat) <$> seq 0 (Z.to_nat length).

(** [random.choice(seq)] returns an element of [seq]. *)
Definition choice_ok (choice : nat -> Z) : Prop := forall k, choice k ∈ ALPHANUMERIC.

(** ** The chaining rule, on the chunks of the pending text *)

(** A text of characters that are one byte each in UTF-8: its chunks of 32
    characters are chunks of 32 bytes. *)
Definition single_bytes (s : list Z) : Prop := Forall (fun c => 0 <= c < 0x80) s.

(** [_mirror256_process(chunk)] of a hasher whose [self._last_hashes] is
    [schedule]. *)
Definition process_with (self : Mirror256) (schedule : list (list Z)) (chunk : list Z)
  : result (list Z) :=
  block ← _unpack chunk;
  foldM (fun block layer => _hash_layer_pass self schedule layer block)
        (range (depth self)) block.

(** The first [k] chunks of 32 of the pending text. *)
Fixpoint full_chunks (k : nat) (pending : list Z) : list (list Z) :=
  match k with
  | O => []
  | S k' => take 32 pending :: full_chunks k' (drop 32 pending)
  end.

(** "after processing a full 32-byte chunk taken from the accumulated
    buffer, the resulting Block is pushed onto the schedule": the schedule
    the chunks leave, each processed under the schedule the chunks before
    it left. *)
Fixpoint chain (self : Mirror256) (schedule : list (list Z)) (chunks : list (list Z))
  : result (list (list Z)) :=
  match chunks with
  | [] => Ok schedule
  | chunk :: rest =>
      hm ← process_with self schedule chunk;
      chain self (Spec.push (depth self) hm schedule) rest
  end.

(** * Proofs *)

Ltac Zify.zify_post_hook ::= Z.div_mod_to_equations.

(** ** Python sequences and loops *)

Lemma position_nonneg n i : 0 <= i < n -> position n i = Some (Z.to_nat i).
Proof.
  intros H. unfold position.
  destruct (Z.leb_spec 0 i), (Z.ltb_spec i n); simpl; try lia. reflexivity.
Qed.

Lemma position_lt n i k : position n i = Some k -> (Z.of_nat k < n).
Proof.
  unfold position.
  destruct (Z.leb_spec 0 i), (Z.ltb_spec i n), (Z.ltb_spec i 0), (Z.leb_spec (- n) i);
    simpl; intros; simplify_eq; lia.
Qed.

Lemma getitem_nonneg {A} (l : list A) i :
  0 <= i < len l -> exists x, l !! Z.to_nat i = Some x /\ getitem l i = Ok x.
Proof.
  intros H. unfold getitem. rewrite position_nonneg by done.
  destruct (lookup_lt_is_Some_2 l (Z.to_nat i)) as [x Hx].
  { unfold len in H. lia. }
  exists x. by rewrite Hx.
Qed.

Lemma getitem_lookup {A} (l : list A) i x :
  0 <= i -> l !! Z.to_nat i = Some x -> getitem l i = Ok x.
Proof.
  intros Hi Hx. unfold getitem. rewrite position_nonneg.
  - by rewrite Hx.
  - apply lookup_lt_Some in Hx. unfold len. lia.
Qed.

Lemma getitem_elem_of {A} (l : list A) i x : getitem l i = Ok x -> x ∈ l.
Proof.
  unfold getitem. destruct (position (len l) i) as [k|]; [|done].
  destruct (l !! k) eqn:Hk; [|done]. intros [= <-].
  by eapply list_elem_of_lookup_2.
Qed.

Lemma setitem_nonneg {A} (l : list A) i x :
  0 <= i < len l -> setitem l i x = Ok (<[Z.to_nat i := x]> l).
Proof. intros H. unfold setitem. by rewrite position_nonneg. Qed.

Lemma setitem_insert {A} (l l' : list A) i x :
  setitem l i x = Ok l' -> exists k, l' = <[k := x]> l.
Proof.
  unfold setitem. destruct (position (len l) i) as [k|]; [|done].
  intros [= <-]. by exists k.
Qed.

Lemma elem_of_range i n : i ∈ range n <-> 0 <= i < n.
Proof.
  unfold range. rewrite list_elem_of_fmap. split.
  - intros (k & -> & Hk). apply elem_of_seq in Hk. lia.
  - intros H. exists (Z.to_nat i). split; [lia|]. apply elem_of_seq. lia.
Qed.

Lemma len_nonneg {A} (l : list A) : 0 <= len l.
Proof. unfold len. lia. Qed.

Lemma len_app {A} (l k : list A) : len (l ++ k) = len l + len k.
Proof. unfold len. rewrite length_app. lia. Qed.

Lemma foldM_app {A B} (f : B -> A -> result B) l k b :
  foldM f (l ++ k) b = foldM f l b ≫= foldM f k.
Proof.
  revert b. induction l as [|a l IH]; intros b; simpl; [done|].
  destruct (f b a); simpl; [apply IH|done].
Qed.

Lemma foldM_preserves {A B} (P : B -> Prop) (f : B -> A -> result B) l b b' :
  (forall b a b', a ∈ l -> P b -> f b a = Ok b' -> P b') ->
  P b -> foldM f l b = Ok b' -> P b'.
Proof.
  revert b. induction l as [|a l IH]; intros b Hf Hb; simpl.
  - by intros [= <-].
  - destruct (f b a) as [b1|] eqn:Hfa; simpl; [|done].
    apply IH.
    + intros ???? ; apply Hf. by right.
    + eapply Hf; [by left|done..].
Qed.

Lemma foldM_total {A B} (P : B -> Prop) (f : B -> A -> result B) l b :
  (forall b a, a ∈ l -> P b -> exists b', f b a = Ok b' /\ P b') ->
  P b -> exists b', foldM f l b = Ok b' /\ P b'.
Proof.
  revert b. induction l as [|a l IH]; intros b Hf Hb; simpl.
  - by exists b.
  - destruct (Hf b a) as (b1 & -> & Hb1); [by left|done|]. simpl.
    apply IH; [|done]. intros ???; apply Hf. by right.
Qed.

(** ** [_unpack] *)

Lemma high_nibble b : Z.land (Z.shiftr b 4) 0x0F = (b / 16) mod 16.
Proof. change 0x0F with (Z.ones 4). rewrite Z.land_ones, Z.shiftr_div_pow2 by lia. done. Qed.

Lemma low_nibble b : Z.land b 0x0F = b mod 16.
Proof. change 0x0F with (Z.ones 4). by rewrite Z.land_ones by lia. Qed.

Lemma slice_ljust_chunk32 bytes :
  ljust 32 65 (slice bytes None (Some 32)) = Spec.chunk32 bytes.
Proof.
  unfold ljust, slice, Spec.chunk32, clamp, repeat, len. simpl.
  rewrite Z.sub_0_r. change (Z.to_nat 0) with 0%nat. rewrite drop_0.
  destruct (Nat.ltb_spec 32 (length bytes)) as [Hlt|Hge].
  - rewrite Z.min_r by lia.
    change (Z.to_nat 32) with 32%nat.
    rewrite length_take, Nat.min_l by lia. simpl. by rewrite app_nil_r.
  - rewrite Z.min_l by lia. rewrite Nat2Z.id, firstn_all.
    f_equal. f_equal. lia.
Qed.

Lemma length_chunk32 bytes : length (Spec.chunk32 bytes) = 32%nat.
Proof.
  unfold Spec.chunk32. destruct (Nat.ltb_spec 32 (length bytes)).
  - rewrite length_take. lia.
  - rewrite length_app, length_replicate. lia.
Qed.

Lemma length_bind_nibbles l : length (l ≫= Spec.nibbles) = (2 * length l)%nat.
Proof.
  induction l as [|b l IH]; [done|].
  change ((b :: l) ≫= Spec.nibbles) with (Spec.nibbles b ++ (l ≫= Spec.nibbles)).
  rewrite length_app, IH. simpl. lia.
Qed.

Lemma unpack_byte_step pre r0 r1 rest b :
  unpack_byte (pre ++ r0 :: r1 :: rest, len pre) b
  = Ok ((pre ++ Spec.nibbles b) ++ rest, len (pre ++ Spec.nibbles b)).
Proof.
  unfold unpack_byte.
  rewrite setitem_nonneg by (rewrite len_app; unfold len; simpl; lia).
  cbn [mbind result_bind].
  rewrite setitem_nonneg
    by (unfold len; rewrite length_insert, length_app; simpl; lia).
  cbn [mbind result_bind]. f_equal. f_equal.
  - unfold len. rewrite Nat2Z.id.
    replace (Z.to_nat (Z.of_nat (length pre) + 1)) with (length pre + 1)%nat by lia.
    rewrite (insert_app_r_alt pre) by lia. rewrite Nat.sub_diag. simpl.
    rewrite (insert_app_r_alt pre) by lia.
    replace (length pre + 1 - length pre)%nat with 1%nat by lia. simpl.
    unfold Spec.nibbles. rewrite high_nibble, low_nibble.
    by rewrite <- app_assoc.
  - rewrite len_app. unfold len. simpl. lia.
Qed.

Lemma unpack_loop l pre rest :
  (2 * length l <= length rest)%nat ->
  foldM unpack_byte l (pre ++ rest, len pre)
  = Ok (pre ++ (l ≫= Spec.nibbles) ++ drop (2 * length l) rest, len pre + 2 * len l).
Proof.
  revert pre rest. induction l as [|b l IH]; intros pre rest Hlen.
  - simpl. rewrite Z.add_0_r. done.
  - destruct rest as [|r0 [|r1 rest]]; simpl in Hlen; try lia.
    change (foldM unpack_byte (b :: l) (pre ++ r0 :: r1 :: rest, len pre))
      with (unpack_byte (pre ++ r0 :: r1 :: rest, len pre) b ≫= foldM unpack_byte l).
    rewrite unpack_byte_step. cbn [mbind result_bind].
    rewrite IH by lia.
    f_equal. f_equal.
    + rewrite <- !app_assoc. f_equal.
      change (list_bind Z Z Spec.nibbles (b :: l))
        with (Spec.nibbles b ++ (l ≫= Spec.nibbles)).
      rewrite <- app_assoc. do 2 f_equal.
      replace (2 * length (b :: l))%nat with (S (S (2 * length l))) by (simpl; lia).
      done.
    + rewrite len_app. unfold len. simpl. lia.
Qed.

Lemma unpack_refines m bytes :
  encode_utf8 m = Ok bytes -> _unpack m = Ok (Spec.unpack bytes).
Proof.
  intros Henc. unfold _unpack. rewrite Henc. cbn [mbind result_bind].
  rewrite slice_ljust_chunk32. unfold struct_unpack_32B, len.
  rewrite length_chunk32. simpl (_ =? _). cbn [mbind result_bind].
  change (repeat 0 64, 0) with ([] ++ replicate 64 0, len (@nil Z)).
  rewrite unpack_loop by (rewrite length_chunk32, length_replicate; lia).
  cbn [mbind result_bind fst]. f_equal. unfold Spec.unpack.
  rewrite length_chunk32. simpl. by rewrite app_nil_r.
Qed.

Lemma length_unpack bytes : length (Spec.unpack bytes) = 64%nat.
Proof. unfold Spec.unpack. rewrite length_bind_nibbles, length_chunk32. done. Qed.

(** ** Bits, nibbles and gates *)

Ltac nibble_cases x :=
  let H := fresh in
  assert (H : x = 0 \/ x = 1 \/ x = 2 \/ x = 3 \/ x = 4 \/ x = 5 \/ x = 6 \/ x = 7 \/
              x = 8 \/ x = 9 \/ x = 10 \/ x = 11 \/ x = 12 \/ x = 13 \/ x = 14 \/ x = 15)
    by (unfold nibble in *; lia);
  repeat (destruct H as [H|H]; [subst x|]); [..|subst x].

Ltac position_cases k :=
  let H := fresh in
  assert (H : k = 0 \/ k = 1 \/ k = 2 \/ k = 3) by lia;
  repeat (destruct H as [H|H]; [subst k|]); [..|subst k].

Lemma nibble_lxor a b : nibble a -> nibble b -> nibble (Z.lxor a b).
Proof.
  intros Ha Hb. nibble_cases a; nibble_cases b; vm_compute; split; discriminate.
Qed.

Lemma land_1_b2z a k : 0 <= k -> Z.land (Z.shiftr a k) 1 = Z.b2z (Z.testbit a k).
Proof.
  intros Hk. change 1 with (Z.ones 1) at 1. rewrite Z.land_ones by lia.
  change (2 ^ 1) with 2. rewrite <- Z.bit0_mod, Z.shiftr_spec by lia. done.
Qed.

Lemma land_mask old m : Z.land m 15 = m -> Z.land old m = Z.land (old mod 16) m.
Proof.
  intros Hm. rewrite <- Hm at 1. rewrite (Z.land_comm m), Z.land_assoc.
  change 15 with (Z.ones 4). rewrite Z.land_ones by lia. done.
Qed.

Lemma set_bit_value_mod old k bit :
  0 <= k <= 3 -> set_bit_value old k bit = set_bit_value (old mod 16) k bit.
Proof.
  intros Hk. unfold set_bit_value. f_equal.
  apply land_mask. position_cases k; reflexivity.
Qed.

Lemma set_bit_value_nibble old k bit :
  0 <= k <= 3 -> 0 <= bit <= 1 -> nibble (set_bit_value old k bit).
Proof.
  intros Hk Hb. rewrite set_bit_value_mod by done.
  assert (Hold : nibble (old mod 16))
    by (unfold nibble; pose proof (Z.mod_pos_bound old 16); lia).
  generalize dependent (old mod 16). intros o Ho.
  assert (Hb' : bit = 0 \/ bit = 1) by lia.
  nibble_cases o; position_cases k; destruct Hb' as [-> | ->];
    vm_compute; split; discriminate.
Qed.

Lemma set_bit_value_spec old k (b : bool) :
  nibble old -> 0 <= k <= 3 ->
  set_bit_value old k (Z.b2z b) = if b then Z.setbit old k else Z.clearbit old k.
Proof.
  intros Ho Hk. nibble_cases old; position_cases k; destruct b; reflexivity.
Qed.

Lemma nibble_setbit old k (b : bool) :
  nibble old -> 0 <= k <= 3 -> nibble (if b then Z.setbit old k else Z.clearbit old k).
Proof.
  intros Ho Hk. rewrite <- set_bit_value_spec by done.
  apply set_bit_value_nibble; [done|]. destruct b; simpl; lia.
Qed.

Lemma land_1_cases x : Z.land x 1 = 0 \/ Z.land x 1 = 1.
Proof.
  change 1 with (Z.ones 1) at 1 2. rewrite Z.land_ones by lia.
  change (2 ^ 1) with 2. lia.
Qed.

Lemma get_bit_bool block wire v : _get_bit block wire = Ok v -> v = 0 \/ v = 1.
Proof.
  unfold _get_bit. destruct (_ <? _); [|intros [= <-]; by left].
  destruct (getitem block _) as [nib|]; simpl; [|done].
  intros [= <-]. apply land_1_cases.
Qed.

Lemma set_bit_ok block wire bit block' :
  block_ok block -> 0 <= bit <= 1 ->
  _set_bit block wire bit = Ok block' ->
  block_ok block' /\ length block' = length block.
Proof.
  intros Hb Hbit. unfold _set_bit. destruct (_ <? _); [|intros [= <-]; done].
  destruct (getitem block _) as [nib|]; simpl; [|done].
  intros Hset. apply setitem_insert in Hset as [k ->]. split.
  - apply Forall_insert; [done|].
    apply (set_bit_value_nibble nib (wire `mod` 4) bit); [lia|done].
  - by rewrite length_insert.
Qed.

Lemma get_bit_spec block wire :
  0 <= wire -> _get_bit block wire = Ok (Z.b2z (Spec.bit block wire)).
Proof.
  intros Hw. unfold _get_bit, Spec.bit.
  destruct (Z.ltb_spec (wire `div` 4) (len block)) as [Hlt|Hge].
  - destruct (getitem_nonneg block (wire `div` 4)) as (nib & Hnib & ->); [lia|].
    rewrite Hnib. simpl. by rewrite land_1_b2z by lia.
  - rewrite lookup_ge_None_2; [done|]. unfold len in Hge. lia.
Qed.

Lemma alter_lookup {A} (f : A -> A) i (l : list A) :
  alter f i l = match l !! i with Some x => <[i := f x]> l | None => l end.
Proof.
  revert i. induction l as [|a l IH]; intros [|i]; try done.
  change (alter f (S i) (a :: l)) with (a :: alter f i l).
  rewrite IH. simpl. by destruct (l !! i).
Qed.

Lemma set_bit_spec block wire (b : bool) :
  0 <= wire -> block_ok block ->
  _set_bit block wire (Z.b2z b) = Ok (Spec.write block wire b).
Proof.
  intros Hw Hb. unfold _set_bit, Spec.write. rewrite alter_lookup.
  destruct (Z.ltb_spec (wire `div` 4) (len block)) as [Hlt|Hge].
  - destruct (getitem_nonneg block (wire `div` 4)) as (nib & Hnib & ->); [lia|].
    rewrite Hnib. simpl. rewrite setitem_nonneg by lia. f_equal. f_equal.
    apply (set_bit_value_spec nib (wire `mod` 4) b); [|lia].
    eapply Forall_lookup_1 in Hnib; done.
  - rewrite lookup_ge_None_2; [done|]. unfold len in Hge. lia.
Qed.

Lemma write_ok block wire b : block_ok block -> block_ok (Spec.write block wire b).
Proof.
  intros Hb. unfold Spec.write. rewrite alter_lookup.
  destruct (block !! _) as [nib|] eqn:Hnib; [|done].
  apply Forall_insert; [done|]. apply nibble_setbit; [|lia].
  eapply Forall_lookup_1 in Hnib; done.
Qed.

Lemma gate_values_bool n s v1 v2 v3 :
  (v1 = 0 \/ v1 = 1) -> (v2 = 0 \/ v2 = 1) -> (v3 = 0 \/ v3 = 1) ->
  let '(w1, w2, w3) := gate_values n s v1 v2 v3 in
  (w1 = 0 \/ w1 = 1) /\ (w2 = 0 \/ w2 = 1) /\ (w3 = 0 \/ w3 = 1).
Proof.
  intros [-> | ->] [-> | ->] [-> | ->]; unfold gate_values;
    repeat (destruct (_ && _); simpl; try tauto).
Qed.

Lemma gate_values_spec gate_type (v1 v2 v3 : bool) :
  0 <= gate_type <= 3 ->
  gate_values (Z.land gate_type 1) (Z.shiftr gate_type 1) (Z.b2z v1) (Z.b2z v2) (Z.b2z v3)
  = let '(n, s) := Spec.decode gate_type in
    let '(w1, w2, w3) := Spec.gate n s (v1, v2, v3) in
    (Z.b2z w1, Z.b2z w2, Z.b2z w3).
Proof.
  intros H. position_cases gate_type; destruct v1, v2, v3; reflexivity.
Qed.

Lemma get_wire_spec self gate_index first_sublayer layer t :
  size self <> 0 ->
  _get_wire self gate_index first_sublayer (layer `mod` 2 + t)
  = Ok (Spec.wire (size self) gate_index layer first_sublayer t).
Proof.
  intros Hs. unfold _get_wire, Spec.wire.
  destruct (Z.eqb_spec (size self) 0); [done|].
  f_equal. f_equal. destruct first_sublayer; simpl; lia.
Qed.

Lemma wire_nonneg sz gi layer first t : 0 < sz -> 0 <= Spec.wire sz gi layer first t.
Proof. intros. unfold Spec.wire. apply Z.mod_pos_bound. lia. Qed.

Lemma b2z_neqb (a b : bool) : negb (Z.b2z a =? Z.b2z b) = xorb a b.
Proof. by destruct a, b. Qed.

Lemma apply_gate_spec self gate_index gate_type block first_sublayer layer :
  0 < size self -> 0 <= gate_type <= 3 -> block_ok block ->
  _apply_gate self gate_index (Z.land gate_type 1) (Z.shiftr gate_type 1) block
    first_sublayer layer
  = Ok (Spec.gate_at (size self) layer first_sublayer gate_index gate_type block).
Proof.
  intros Hs Hg Hb. unfold _apply_gate, Spec.gate_at, Spec.apply.
  rewrite !get_wire_spec by lia. cbn [mbind result_bind].
  set (w1 := Spec.wire _ _ _ _ 0). set (w2 := Spec.wire _ _ _ _ 1).
  set (w3 := Spec.wire _ _ _ _ 2).
  assert (0 <= w1 /\ 0 <= w2 /\ 0 <= w3) as (H1 & H2 & H3)
    by (repeat split; apply wire_nonneg; done).
  rewrite !get_bit_spec by done. cbn [mbind result_bind].
  rewrite gate_values_spec by done.
  destruct (Spec.decode gate_type) as [n s].
  destruct (Spec.gate n s _) as [[v1 v2] v3].
  rewrite !b2z_neqb.
  destruct (xorb v1 _).
  - rewrite set_bit_spec by done. cbn [mbind result_bind].
    destruct (xorb v2 _).
    + rewrite set_bit_spec by auto using write_ok. cbn [mbind result_bind].
      destruct (xorb v3 _); [|done].
      rewrite set_bit_spec by auto using write_ok. done.
    + cbn [mbind result_bind].
      destruct (xorb v3 _); [|done].
      rewrite set_bit_spec by auto using write_ok. done.
  - cbn [mbind result_bind].
    destruct (xorb v2 _).
    + rewrite set_bit_spec by auto using write_ok. cbn [mbind result_bind].
      destruct (xorb v3 _); [|done].
      rewrite set_bit_spec by auto using write_ok. done.
    + cbn [mbind result_bind].
      destruct (xorb v3 _); [|done].
      rewrite set_bit_spec by auto using write_ok. done.
Qed.

(** ** Layers keep blocks in shape *)

(** Inversion of a bind in the [result] monad. *)
Lemma bind_Ok {A B} (r : result A) (f : A -> result B) b :
  r ≫= f = Ok b -> exists a, r = Ok a /\ f a = Ok b.
Proof. destruct r as [a|e]; simpl; [eauto|done]. Qed.

Ltac inv_bind H :=
  let a := fresh "x" in
  let Ha := fresh "Hx" in
  apply bind_Ok in H as (a & Ha & H).

Lemma set_bit_if_ok (c : bool) block wire bit block' :
  block_ok block -> bit = 0 \/ bit = 1 ->
  (if c then _set_bit block wire bit else Ok block) = Ok block' ->
  block_ok block' /\ length block' = length block.
Proof.
  intros Hb Hbit. destruct c; [|intros [= <-]; done].
  apply set_bit_ok; [done|lia].
Qed.

Lemma apply_gate_ok self gate_index gate_name gate_symmetry block first_sublayer layer block' :
  block_ok block ->
  _apply_gate self gate_index gate_name gate_symmetry block first_sublayer layer = Ok block' ->
  block_ok block' /\ length block' = length block.
Proof.
  intros Hb H. unfold _apply_gate in H.
  inv_bind H. inv_bind H. inv_bind H.
  apply bind_Ok in H as (v1 & Hv1 & H). apply bind_Ok in H as (v2 & Hv2 & H).
  apply bind_Ok in H as (v3 & Hv3 & H).
  apply get_bit_bool in Hv1, Hv2, Hv3.
  pose proof (gate_values_bool gate_name gate_symmetry v1 v2 v3 Hv1 Hv2 Hv3) as Hg.
  destruct (gate_values _ _ _ _ _) as [[w1 w2] w3]. destruct Hg as (Hw1 & Hw2 & Hw3).
  apply bind_Ok in H as (b1 & Hb1 & H). apply bind_Ok in H as (b2 & Hb2 & H).
  apply bind_Ok in H as (b3 & Hb3 & H). injection H as <-.
  apply set_bit_if_ok in Hb1 as [Hok1 Hl1]; [|done..].
  apply set_bit_if_ok in Hb2 as [Hok2 Hl2]; [|done..].
  apply set_bit_if_ok in Hb3 as [Hok3 Hl3]; [|done..].
  split; [done|congruence].
Qed.

Lemma xor_layer_key_ok layer_hash block gate_index block' :
  block_ok layer_hash -> block_ok block ->
  xor_layer_key layer_hash block gate_index = Ok block' ->
  block_ok block' /\ length block' = length block.
Proof.
  intros Hk Hb. unfold xor_layer_key. destruct (_ && _); [|intros [= <-]; done].
  intros H. apply bind_Ok in H as (x & Hx & H). apply bind_Ok in H as (k & Hkk & H).
  apply setitem_insert in H as [i ->]. split; [|by rewrite length_insert].
  apply Forall_insert; [done|]. apply nibble_lxor.
  - apply getitem_elem_of in Hx. by eapply Forall_forall in Hb.
  - apply getitem_elem_of in Hkk. by eapply Forall_forall in Hk.
Qed.

Lemma first_sublayer_gate_ok self layer layer_hash block gate_index block' :
  block_ok block ->
  first_sublayer_gate self layer layer_hash block gate_index = Ok block' ->
  block_ok block' /\ length block' = length block.
Proof.
  intros Hb. unfold first_sublayer_gate. destruct (_ <? _); [|intros [= <-]; done].
  intros H. apply bind_Ok in H as (k & _ & H). by eapply apply_gate_ok.
Qed.

Lemma second_sublayer_gate_ok self layer layer_hash block gate_index block' :
  block_ok block ->
  second_sublayer_gate self layer layer_hash block gate_index = Ok block' ->
  block_ok block' /\ length block' = length block.
Proof.
  intros Hb. unfold second_sublayer_gate. destruct (_ <? _); [|intros [= <-]; done].
  intros H. apply bind_Ok in H as (k & _ & H). by eapply apply_gate_ok.
Qed.

Lemma foldM_shape {A} n (f : list Z -> A -> result (list Z)) l block block' :
  (forall b a b', block_ok b -> f b a = Ok b' -> block_ok b' /\ length b' = length b) ->
  shape_ok n block -> foldM f l block = Ok block' -> shape_ok n block'.
Proof.
  intros Hf. apply foldM_preserves. intros b a b1 _ [Hb Hl] Hfa.
  destruct (Hf b a b1 Hb Hfa). split; [done|congruence].
Qed.

Lemma hash_layer_pass_ok self last_hashes layer block block' n :
  schedule_ok last_hashes -> shape_ok n block ->
  _hash_layer_pass self last_hashes layer block = Ok block' ->
  shape_ok n block'.
Proof.
  intros Hs Hb H. unfold _hash_layer_pass in H.
  apply bind_Ok in H as (layer_hash & Hlh & H).
  assert (Hk : block_ok layer_hash).
  { apply getitem_elem_of in Hlh. by eapply Forall_forall in Hs. }
  apply bind_Ok in H as (b1 & H1 & H). apply bind_Ok in H as (b2 & H2 & H).
  apply bind_Ok in H as (b3 & H3 & H). injection H as <-.
  eapply foldM_shape in H1; [|intros ???; by apply xor_layer_key_ok|done].
  eapply foldM_shape in H2; [|intros ???; by apply first_sublayer_gate_ok|done].
  eapply foldM_shape in H3; [|intros ???; by apply second_sublayer_gate_ok|done].
  done.
Qed.

Lemma nibbles_ok b : block_ok (Spec.nibbles b).
Proof. unfold Spec.nibbles, block_ok, nibble. repeat constructor; lia. Qed.

Lemma spec_unpack_ok bytes : block_ok (Spec.unpack bytes).
Proof.
  unfold Spec.unpack. induction (Spec.chunk32 bytes) as [|b l IH]; [constructor|].
  change ((b :: l) ≫= Spec.nibbles) with (Spec.nibbles b ++ (l ≫= Spec.nibbles)).
  apply Forall_app. split; [apply nibbles_ok|done].
Qed.

Lemma unpack_ok m block : _unpack m = Ok block -> shape_ok 64 block.
Proof.
  intros H. destruct (encode_utf8 m) as [bytes|e] eqn:Henc.
  - rewrite (unpack_refines m bytes Henc) in H. injection H as <-.
    split; [apply spec_unpack_ok|apply length_unpack].
  - unfold _unpack in H. rewrite Henc in H. done.
Qed.

Lemma mirror256_process_ok cls m self hm :
  schedule_ok (self_last_hashes cls self) ->
  _mirror256_process cls m self = Ok hm -> shape_ok 64 hm.
Proof.
  intros Hs H. unfold _mirror256_process in H.
  apply bind_Ok in H as (block & Hb & H). apply unpack_ok in Hb.
  revert H. apply foldM_preserves; [|done].
  intros b a b' _ Hb0 Hp. by eapply hash_layer_pass_ok.
Qed.

(** ** [_pack], the readers and the loops of methods *)

Lemma octet_of_nibbles x y : nibble x -> nibble y -> octet (Z.lor (Z.shiftl x 4) y).
Proof.
  intros Hx Hy. nibble_cases x; nibble_cases y; vm_compute; split; discriminate.
Qed.

Lemma octet_of_nibble x : nibble x -> octet (Z.shiftl x 4).
Proof. intros Hx. nibble_cases x; vm_compute; split; discriminate. Qed.

Lemma len_range n : length (range n) = Z.to_nat n.
Proof. unfold range. by rewrite length_fmap, length_seq. Qed.

Lemma pack_byte_ok hm hb i :
  block_ok hm -> 0 <= i < len hb -> Forall octet hb ->
  exists hb', pack_byte hm hb i = Ok hb' /\ length hb' = length hb /\ Forall octet hb'.
Proof.
  intros Hhm Hi Hhb. unfold pack_byte.
  destruct (Z.ltb_spec (i * 2) (len hm)) as [H0|H0]; [|by exists hb].
  destruct (getitem_nonneg hm (i * 2)) as (x & Hx & ->); [lia|].
  cbn [mbind result_bind].
  assert (nibble x) by (by eapply Forall_lookup_1 in Hx).
  destruct (Z.ltb_spec (i * 2 + 1) (len hm)) as [H1|H1].
  - destruct (getitem_nonneg hm (i * 2 + 1)) as (y & Hy & ->); [lia|].
    cbn [mbind result_bind].
    assert (nibble y) by (by eapply Forall_lookup_1 in Hy).
    rewrite setitem_nonneg by done. eexists; split; [done|].
    rewrite length_insert. split; [done|].
    apply Forall_insert; [done|]. by apply octet_of_nibbles.
  - cbn [mbind result_bind].
    rewrite setitem_nonneg by done. eexists; split; [done|].
    rewrite length_insert. split; [done|].
    apply Forall_insert; [done|]. by apply octet_of_nibble.
Qed.

Lemma struct_pack_B_ok n vals :
  0 <= n -> len vals = n -> Forall octet vals -> struct_pack_B n vals = Ok vals.
Proof.
  intros Hn Hl Hv. unfold struct_pack_B.
  destruct (Z.ltb_spec n 0); [lia|].
  destruct (Z.eqb_spec (len vals) n); [|done]. simpl.
  rewrite (proj2 (forallb_forall _ _)); [done|].
  intros v Hin. apply list_elem_of_In in Hin.
  eapply Forall_forall in Hv; [|done]. unfold octet in Hv. lia.
Qed.

Lemma pack_ok self hm :
  0 <= size self -> block_ok hm ->
  exists d, _pack self hm = Ok d /\ len d = size self `div` 8 /\ Forall octet d.
Proof.
  intros Hs Hhm. unfold _pack.
  set (n := size self `div` 8). assert (0 <= n) by (subst n; lia).
  destruct (foldM_total (fun hb => len hb = n /\ Forall octet hb)
              (pack_byte hm) (range n) (repeat 0 n)) as (hb & -> & Hl & Ho).
  - intros hb i Hi [Hl Ho]. apply elem_of_range in Hi.
    destruct (pack_byte_ok hm hb i) as (hb' & -> & Hl' & Ho'); [done|lia|done|].
    exists hb'. repeat split; [|done]. unfold len in *. lia.
  - split.
    + unfold len, repeat. rewrite length_replicate. lia.
    + unfold repeat. apply Forall_replicate. unfold octet. lia.
  - cbn [mbind result_bind]. rewrite struct_pack_B_ok by done. eauto.
Qed.

Lemma pack_byte_empty hb i : 0 <= i -> pack_byte [] hb i = Ok hb.
Proof.
  intros Hi. unfold pack_byte.
  destruct (Z.ltb_spec (i * 2) (len (@nil Z))) as [H|H]; [|done].
  unfold len in H. simpl in H. lia.
Qed.

Lemma pack_empty self :
  0 <= size self -> _pack self [] = Ok (replicate (Z.to_nat (size self `div` 8)) 0).
Proof.
  intros Hs. unfold _pack. set (n := size self `div` 8).
  assert (0 <= n) by (subst n; lia).
  assert (Hfold : forall l hb, Forall (fun i => 0 <= i) l -> foldM (pack_byte []) l hb = Ok hb).
  { induction l as [|i l IH]; intros hb Hl; [done|]. simpl.
    inversion Hl; subst. rewrite pack_byte_empty by done. simpl. by apply IH. }
  rewrite Hfold.
  - cbn [mbind result_bind]. apply struct_pack_B_ok; [done|..].
    + unfold len, repeat. rewrite length_replicate. lia.
    + unfold repeat. apply Forall_replicate. unfold octet. lia.
  - apply Forall_forall. intros i Hi. apply elem_of_range in Hi. lia.
Qed.

Lemma hex_char_lowercase d : Spec.lowercase_hex (hex_char d) = true.
Proof.
  unfold hex_char. generalize (Z.to_nat d). intros n.
  do 16 (destruct n as [|n]; [reflexivity|]). simpl. by destruct n.
Qed.

Lemma hexlify_lowercase d :
  Forall (fun c => Spec.lowercase_hex c = true) (list_ascii_of_string (hexlify d)).
Proof.
  induction d as [|x d IH]; simpl; [constructor|].
  repeat constructor; auto using hex_char_lowercase.
Qed.

Lemma length_hexlify d : String.length (hexlify d) = (2 * length d)%nat.
Proof. induction d as [|x d IH]; simpl; [done|]. rewrite IH. lia. Qed.

Lemma update_falsy cls m self : truthy m = false -> update cls m self = (self, Ok ()).
Proof. intros H. unfold update. by rewrite H. Qed.

Lemma update_not_str cls m self :
  truthy m = true -> is_str m = false -> update cls m self = (self, Raise TypeError).
Proof. intros H Hs. unfold update. rewrite H. by destruct m. Qed.

Lemma method_bind_inv {A B} (c : method A) (f : A -> method B) self self' r :
  (c ≫= f) self = (self', r) ->
  (exists e, c self = (self', Raise e) /\ r = Raise e) \/
  (exists a self1, c self = (self1, Ok a) /\ f a self1 = (self', r)).
Proof.
  unfold mbind, method_bind. destruct (c self) as [self1 [a|e]].
  - right. eauto.
  - intros [= <- <-]. left. eauto.
Qed.

Lemma while_preserves (P : Mirror256 -> Prop) fuel cond (body : method unit) self self' r :
  (forall s s' r, P s -> cond s = true -> body s = (s', r) -> P s') ->
  P self -> while fuel cond body self = (self', r) -> P self'.
Proof.
  intros Hbody. revert self. induction fuel as [|fuel IH]; intros self HP; simpl.
  - by intros [= <- <-].
  - destruct (cond self) eqn:Hc; [|by intros [= <- <-]].
    intros H. apply method_bind_inv in H as [(e & Hb & ->)|([] & s1 & Hb & H)].
    + eauto.
    + eapply IH; [|done]. eauto.
Qed.

Lemma while_exit (measure : Mirror256 -> nat) fuel cond (body : method unit) self self' :
  (forall s, cond s = true -> (0 < measure s)%nat) ->
  (forall s s', cond s = true -> body s = (s', Ok ()) -> (measure s' < measure s)%nat) ->
  (measure self <= fuel)%nat ->
  while fuel cond body self = (self', Ok ()) -> cond self' = false.
Proof.
  intros Hpos Hbody. revert self. induction fuel as [|fuel IH]; intros self Hm; simpl.
  - intros [= <-]. destruct (cond self) eqn:Hc; [|done].
    apply Hpos in Hc. lia.
  - destruct (cond self) eqn:Hc; [|by intros [= <-]].
    intros H. apply method_bind_inv in H as [(e & Hb & ?)|([] & s1 & Hb & H)]; [done|].
    eapply IH; [|done]. apply Hbody in Hb; [lia|done].
Qed.

(** ** Slices and the invariant of [update] *)

Lemma slice_prefix {A} (l : list A) k :
  0 <= k -> slice l None (Some k) = take (Z.to_nat k) l.
Proof.
  intros Hk. unfold slice, clamp. simpl. destruct (Z.ltb_spec k 0); [lia|].
  rewrite Z.sub_0_r. change (Z.to_nat 0) with 0%nat. rewrite drop_0.
  destruct (Z.le_ge_cases (len l) k).
  - rewrite Z.min_l by done. unfold len in *. rewrite Nat2Z.id.
    rewrite !take_ge; [done|lia..].
  - by rewrite Z.min_r.
Qed.

Lemma slice_suffix {A} (l : list A) k :
  0 <= k -> slice l (Some k) None = drop (Z.to_nat k) l.
Proof.
  intros Hk. unfold slice, clamp. simpl. destruct (Z.ltb_spec k 0); [lia|].
  destruct (Z.le_ge_cases (len l) k).
  - rewrite Z.min_l by done. rewrite Z.sub_diag. change (Z.to_nat 0) with 0%nat.
    unfold len in *. rewrite take_0, drop_ge; [done|lia].
  - rewrite Z.min_r by done. apply take_ge. rewrite length_drop. unfold len in *. lia.
Qed.

Lemma slice_sublist {A} (P : A -> Prop) (l : list A) a b :
  Forall P l -> Forall P (slice l a b).
Proof. intros H. unfold slice. by apply Forall_take, Forall_drop. Qed.

Lemma len_slice_stop {A} (l : list A) k :
  len (slice l None (Some k)) = clamp (len l) k.
Proof.
  unfold slice. simpl. rewrite Z.sub_0_r. change (Z.to_nat 0) with 0%nat.
  rewrite drop_0. unfold len. rewrite length_take.
  unfold clamp, len. destruct (Z.ltb_spec k 0); lia.
Qed.

Lemma update_chunk_unfold cls self :
  update_chunk cls self
  = match _mirror256_process cls (slice (_buffer self) None (Some 32)) self with
    | Ok hm =>
        (set_buffer (slice (_buffer self) (Some 32) None)
           (set_last_hashes
              ([hm] ++ slice (self_last_hashes cls self) None (Some (depth self - 1))) self),
         Ok ())
    | Raise e => (self, Raise e)
    end.
Proof.
  unfold update_chunk, mbind, method_bind, get, lift, modify.
  by destruct (_mirror256_process _ _ _).
Qed.

Lemma process_remaining_unfold cls m self :
  process_remaining cls m self
  = if truthy (PyStr (_buffer self)) || Nat.eqb (length m) 0 then
      match _mirror256_process cls
              (_buffer self ++ repeat 65 (32 - len (_buffer self))) self with
      | Ok hm => (set_hashed hm self, Ok ())
      | Raise e => (self, Raise e)
      end
    else (self, Ok ()).
Proof.
  unfold process_remaining, mbind, method_bind, get, lift, modify.
  destruct (_ || _); [|done]. by destruct (_mirror256_process _ _ _).
Qed.

Lemma update_str_unfold cls s self :
  s <> [] ->
  update cls (PyStr s) self
  = match process_complete_chunks cls
            (set_counter (_counter self + len s) (set_buffer (_buffer self ++ s) self)) with
    | (self', Ok _) => process_remaining cls s self'
    | (self', Raise e) => (self', Raise e)
    end.
Proof.
  intros Hs. unfold update. destruct s as [|c s]; [done|]. simpl.
  unfold mbind, method_bind, modify. simpl.
  by destruct (process_complete_chunks _ _) as [? [[]|?]].
Qed.

Lemma update_chunk_state_ok cls self self' r :
  state_ok cls self -> update_chunk cls self = (self', r) -> state_ok cls self'.
Proof.
  intros (Hc & Hs & Hh & Hsz & Hd). rewrite update_chunk_unfold.
  destruct (_mirror256_process _ _ _) as [hm|e] eqn:Hp; intros [= <- <-]; [|done].
  apply mirror256_process_ok in Hp as [Hhm _]; [|done].
  repeat split; simpl; try done.
  - constructor; [done|]. by apply slice_sublist.
  - unfold self_last_hashes. simpl.
    change (len (hm :: ?l)) with (len ([hm] ++ l)). rewrite len_app, len_slice_stop.
    unfold clamp, len, self_last_hashes in *. simpl.
    destruct (Z.ltb_spec (depth self - 1) 0); lia.
Qed.

Lemma process_complete_chunks_state_ok cls self self' r :
  state_ok cls self -> process_complete_chunks cls self = (self', r) -> state_ok cls self'.
Proof.
  intros H. unfold process_complete_chunks.
  apply (while_preserves (state_ok cls)); [|done].
  intros s s' r' Hs _. by apply update_chunk_state_ok.
Qed.

Lemma process_remaining_state_ok cls m self self' r :
  state_ok cls self -> process_remaining cls m self = (self', r) -> state_ok cls self'.
Proof.
  intros (Hc & Hs & Hh & Hsz & Hd). rewrite process_remaining_unfold.
  destruct (_ || _); [|by intros [= <- <-]].
  destruct (_mirror256_process _ _ _) as [hm|e] eqn:Hp; intros [= <- <-]; [|done].
  apply mirror256_process_ok in Hp as [Hhm _]; [|done].
  repeat split; simpl; done.
Qed.

Lemma update_state_ok cls m self self' r :
  state_ok cls self -> update cls m self = (self', r) -> state_ok cls self'.
Proof.
  intros Hok. destruct (truthy m) eqn:Ht.
  - destruct (is_str m) eqn:Hs.
    + destruct m as [| | |s| |]; try done.
      assert (s <> []) by (by destruct s).
      rewrite update_str_unfold by done.
      destruct (process_complete_chunks _ _) as [self1 [[]|e]] eqn:Hl.
      * apply process_complete_chunks_state_ok in Hl.
        -- by apply process_remaining_state_ok.
        -- destruct Hok as (? & ? & ? & ? & ?). repeat split; done.
      * intros [= <- <-]. apply process_complete_chunks_state_ok in Hl; [done|].
        destruct Hok as (? & ? & ? & ? & ?). repeat split; done.
    + rewrite update_not_str by done. by intros [= <- <-].
  - rewrite update_falsy by done. by intros [= <- <-].
Qed.

Lemma update_same_config cls m self self' r :
  update cls m self = (self', r) -> same_config self self'.
Proof.
  destruct (truthy m) eqn:Ht.
  - destruct (is_str m) eqn:Hs.
    + destruct m as [| | |s| |]; try done.
      assert (s <> []) by (by destruct s).
      rewrite update_str_unfold by done.
      set (self0 := set_counter _ _).
      assert (H0 : same_config self self0) by done.
      destruct (process_complete_chunks _ _) as [self1 r1] eqn:Hl.
      assert (H1 : same_config self self1).
      { revert Hl. unfold process_complete_chunks.
        apply (while_preserves (same_config self)); [|done].
        intros s0 s' r' [Hd Hz] _. rewrite update_chunk_unfold.
        destruct (_mirror256_process _ _ _); by intros [= <- <-]. }
      destruct r1 as [[]|e]; [|by intros [= <- <-]].
      rewrite process_remaining_unfold. destruct (_ || _); [|by intros [= <- <-]].
      destruct (_mirror256_process _ _ _); by intros [= <- <-].
    + rewrite update_not_str by done. by intros [= <- <-].
  - rewrite update_falsy by done. by intros [= <- <-].
Qed.

(** ** Initialisation and the reachable states *)

(** The bounded loops have fuel enough: they stop because their condition
    is false. *)
Lemma while_pure_exit {S} (measure : S -> nat) fuel cond body (s : S) :
  (forall s, cond s = true -> (measure (body s) < measure s)%nat) ->
  (measure s <= fuel)%nat ->
  cond (while_pure fuel cond body s) = false.
Proof.
  intros Hb. revert s. induction fuel as [|fuel IH]; intros s Hm; simpl.
  - destruct (cond s) eqn:Hc; [|done]. apply Hb in Hc. lia.
  - destruct (cond s) eqn:Hc; [|done]. apply IH. apply Hb in Hc. lia.
Qed.

Lemma zero_padding_ends (h : list Z) :
  10 <= len (while_pure 10 (fun h => len h <? 10) (fun h => 0 :: h) h).
Proof.
  apply Z.ltb_ge.
  apply (while_pure_exit (fun h : list Z => 10 - length h)%nat 10 (fun h => len h <? 10)).
  - intros h' Hc. apply Z.ltb_lt in Hc. unfold len in Hc. simpl. lia.
  - lia.
Qed.

Lemma layer_filling_ends (n v : Z) (layer : list Z) :
  n <= len (while_pure (Z.to_nat n) (fun layer => len layer <? n)
              (fun layer => layer ++ [v]) layer).
Proof.
  apply Z.ltb_ge.
  apply (while_pure_exit (fun l : list Z => Z.to_nat n - length l)%nat (Z.to_nat n)
           (fun layer => len layer <? n)).
  - intros l Hc. apply Z.ltb_lt in Hc. unfold len in Hc. rewrite length_app. simpl. lia.
  - lia.
Qed.

(** [format_x] returns all the hexadecimal digits of its argument. *)
Lemma of_digits_cons d ds : of_digits (d :: ds) = d * 16 ^ len ds + of_digits ds.
Proof.
  unfold of_digits. simpl. revert d. induction ds as [|e es IH] using rev_ind; intros d.
  - unfold len. simpl. lia.
  - rewrite !fold_left_app. simpl. rewrite IH.
    replace (len (es ++ [e])) with (Z.succ (len es))
      by (unfold len; rewrite length_app; simpl; lia).
    rewrite Z.pow_succ_r by (unfold len; lia). lia.
Qed.

Lemma hex_digits_value fuel n acc :
  0 <= n < 16 ^ Z.of_nat fuel ->
  of_digits (hex_digits fuel n acc) = n * 16 ^ len acc + of_digits acc.
Proof.
  revert n acc. induction fuel as [|fuel IH]; intros n acc Hn.
  - simpl in *. assert (n = 0) by lia. subst. lia.
  - simpl hex_digits. destruct (Z.ltb_spec n 16) as [Hlt|Hge].
    + apply of_digits_cons.
    + rewrite IH.
      * rewrite of_digits_cons.
        replace (len (n `mod` 16 :: acc)) with (Z.succ (len acc)) by (unfold len; simpl; lia).
        rewrite Z.pow_succ_r by (unfold len; lia).
        pose proof (Z.div_mod n 16). lia.
      * rewrite Nat2Z.inj_succ, Z.pow_succ_r in Hn by lia. lia.
Qed.

Lemma format_x_value n : 0 <= n -> of_digits (format_x n) = n.
Proof.
  intros Hn. unfold format_x. rewrite hex_digits_value.
  - unfold len, of_digits. simpl. lia.
  - split; [done|]. destruct (Z.eq_dec n 0) as [->|Hne]; [done|].
    rewrite Nat2Z.inj_succ, Z2Nat.id by apply Z.log2_nonneg.
    pose proof (Z.log2_spec n ltac:(lia)) as [_ Hlt].
    eapply Z.lt_le_trans; [exact Hlt|].
    change 16 with (2 ^ 4). rewrite <- Z.pow_mul_r by (pose proof (Z.log2_nonneg n); lia).
    apply Z.pow_le_mono_r; [lia|]. pose proof (Z.log2_nonneg n). lia.
Qed.

(** Key-schedule initialisation *)
Lemma table_checked : forallb cubic_root_ok FIRST_PRIMES_CUBIC_ROOT_DEC_REP = true.
Proof. vm_compute. reflexivity. Qed.

Lemma cubic_root_array_table cr :
  cr ∈ FIRST_PRIMES_CUBIC_ROOT_DEC_REP ->
  exists digits, cubic_root_array cr = Ok digits /\ block_ok digits.
Proof.
  intros Hin. pose proof table_checked as H.
  rewrite forallb_forall in H. apply list_elem_of_In, H in Hin.
  unfold cubic_root_ok in Hin. destruct (cubic_root_array cr) as [digits|]; [|done].
  exists digits. split; [done|]. apply Forall_forall. intros d Hd.
  rewrite forallb_forall in Hin. apply list_elem_of_In, Hin in Hd. unfold nibble. lia.
Qed.

Lemma while_pure_preserves {S} (P : S -> Prop) fuel cond body (s : S) :
  (forall s, P s -> P (body s)) -> P s -> P (while_pure fuel cond body s).
Proof.
  intros Hb. revert s. induction fuel as [|fuel IH]; intros s Hs; simpl; [done|].
  destruct (cond s); auto.
Qed.

Lemma standard_layer_ok self cls :
  exists layer, standard_layer self cls = Ok layer /\ block_ok layer.
Proof.
  unfold standard_layer.
  destruct (Z.ltb_spec (len cls) (len FIRST_PRIMES_CUBIC_ROOT_DEC_REP)) as [Hlt|Hge].
  - destruct (getitem_nonneg FIRST_PRIMES_CUBIC_ROOT_DEC_REP (len cls))
      as (cr & Hcr & ->); [pose proof (len_nonneg cls); lia|].
    cbn [mbind result_bind].
    destruct (cubic_root_array_table cr) as (digits & -> & Hd).
    { by eapply list_elem_of_lookup_2. }
    cbn [mbind result_bind]. eexists. split; [done|].
    apply while_pure_preserves; [|done].
    intros layer Hl. apply Forall_app. split; [done|].
    constructor; [|constructor]. unfold nibble. lia.
  - eexists. split; [done|]. apply Forall_fmap, Forall_forall.
    intros j _. simpl. unfold nibble. lia.
Qed.

Lemma init_standard_state_spec fuel self cls :
  exists extra,
    _init_standard_state fuel self cls = (cls ++ extra, Ok ()) /\
    schedule_ok extra /\
    (depth self - len cls <= Z.of_nat fuel -> depth self <= len (cls ++ extra)).
Proof.
  revert cls. induction fuel as [|fuel IH]; intros cls; simpl.
  - exists []. rewrite app_nil_r. repeat split; [constructor|lia].
  - destruct (Z.ltb_spec (len cls) (depth self)) as [Hlt|Hge].
    + destruct (standard_layer_ok self cls) as (layer & -> & Hl).
      destruct (IH (cls ++ [layer])) as (extra & -> & He & Hd).
      exists (layer :: extra).
      replace (cls ++ layer :: extra) with ((cls ++ [layer]) ++ extra)
        by (by rewrite <- app_assoc).
      repeat split; [by constructor|].
      intros Hf. apply Hd. rewrite len_app. unfold len in *. simpl. lia.
    + exists []. rewrite app_nil_r. repeat split; [constructor|lia].
Qed.

Lemma init_random_state_spec randint fuel drawn self cls :
  exists extra,
    _init_random_state randint fuel drawn self cls = (cls ++ extra, Ok ()) /\
    ((forall k, 0 <= randint k <= 15) -> schedule_ok extra) /\
    (depth self - len cls <= Z.of_nat fuel -> depth self <= len (cls ++ extra)).
Proof.
  revert drawn cls. induction fuel as [|fuel IH]; intros drawn cls; simpl.
  - exists []. rewrite app_nil_r. repeat split; [constructor|lia].
  - destruct (Z.ltb_spec (len cls) (depth self)) as [Hlt|Hge].
    + match goal with |- context [cls ++ [?l]] => set (layer := l) end.
      destruct (IH (drawn + Z.to_nat (size self `div` 4))%nat (cls ++ [layer]))
        as (extra & -> & He & Hd).
      exists (layer :: extra).
      replace (cls ++ layer :: extra) with ((cls ++ [layer]) ++ extra)
        by (by rewrite <- app_assoc).
      repeat split.
      * intros Hr. constructor; [|by apply He].
        apply Forall_fmap, Forall_forall. intros j _. apply Hr.
      * intros Hf. apply Hd. rewrite len_app. unfold len in *. simpl. lia.
    + exists []. rewrite app_nil_r. repeat split; [constructor|lia].
Qed.

Lemma init_last_hashes_spec state self cls :
  exists extra,
    init_last_hashes state self cls = (cls ++ extra, Ok ()) /\
    (randint_ok state -> schedule_ok extra) /\ depth self <= len (cls ++ extra).
Proof.
  unfold init_last_hashes.
  destruct (Z.ltb_spec (len cls) (depth self)) as [Hlt|Hge].
  - destruct state as [|randint].
    + destruct (init_standard_state_spec (Z.to_nat (depth self)) self cls)
        as (extra & -> & He & Hd).
      exists extra. repeat split; [done|]. apply Hd. pose proof (len_nonneg cls). lia.
    + destruct (init_random_state_spec randint (Z.to_nat (depth self)) 0 self cls)
        as (extra & -> & He & Hd).
      exists extra. repeat split; [done|]. apply Hd. pose proof (len_nonneg cls). lia.
  - exists []. rewrite app_nil_r. repeat split; [constructor|done].
Qed.

Lemma or_default_nonzero o d : d <> 0 -> or_default o d <> 0.
Proof.
  intros Hd. unfold or_default. destruct o as [z|]; [|done].
  by destruct (Z.eqb_spec z 0).
Qed.

(** The constructor: what it leaves in the class attribute and the state
    of the hasher it returns. *)
Lemma init_spec cls m d sz state cls' r :
  randint_ok state -> schedule_ok cls ->
  __init__ cls m d sz state = (cls', r) ->
  (exists extra, cls' = cls ++ extra /\ schedule_ok extra) /\
  (forall self, r = Ok self ->
     state_ok cls' self /\
     depth self = or_default d DEFAULT_DEPTH /\
     size self = or_default sz DEFAULT_SIZE).
Proof.
  intros Hr Hc. unfold __init__.
  set (self0 := fresh _ _).
  destruct (init_last_hashes_spec state self0 cls) as (extra & -> & He & Hd).
  specialize (He Hr).
  assert (Hok0 : state_ok (cls ++ extra) self0).
  { repeat split; simpl; try done.
    - by apply Forall_app.
    - by apply Forall_app.
    - constructor.
    - by apply or_default_nonzero. }
  destruct m as [| | |s| |]; simpl;
    try (intros [= <- <-]; split; [by eauto|]; intros self [= <-]; done).
  destruct (update _ _ _) as [self1 [[]|e]] eqn:Hu; intros [= <- <-].
  - split; [by eauto|]. intros self [= <-].
    split; [by eapply update_state_ok|].
    apply update_same_config in Hu as [-> ->]. done.
  - split; [by eauto|]. done.
Qed.

Lemma init_none cls depth size state :
  exists cls', __init__ cls PyNone depth size state = (cls', Ok (fresh depth size)).
Proof.
  unfold __init__.
  destruct (init_last_hashes_spec state (fresh depth size) cls) as (extra & -> & _).
  by eexists.
Qed.

Lemma class_reachable_ok cls : class_reachable cls -> schedule_ok cls.
Proof.
  induction 1 as [|cls m depth size state cls' r _ IH Hr Hi]; [constructor|].
  apply init_spec in Hi as [(extra & -> & He) _]; [|done..]. by apply Forall_app.
Qed.

Lemma state_ok_extend cls extra self :
  schedule_ok extra -> state_ok cls self -> state_ok (cls ++ extra) self.
Proof.
  intros He (Hc & Hs & Hh & Hsz & Hd). unfold state_ok, self_last_hashes in *.
  destruct (_last_hashes self) as [own|]; simpl in *.
  - repeat split; try done. by apply Forall_app.
  - repeat split; try done; try (by apply Forall_app).
    rewrite len_app. pose proof (len_nonneg extra). lia.
Qed.

Lemma reachable_state_ok cls self : reachable cls self -> state_ok cls self.
Proof.
  induction 1 as [cls m depth size state cls' self Hc Hr Hi
                 |cls self m self' r _ IH Hu
                 |cls self m depth size state cls' r _ IH Hr Hi].
  - apply class_reachable_ok in Hc. apply init_spec in Hi as [_ Hi]; [|done..].
    by apply Hi.
  - by eapply update_state_ok.
  - assert (Hc : schedule_ok cls) by apply IH.
    apply init_spec in Hi as [(extra & -> & He) _]; [|done..].
    by apply state_ok_extend.
Qed.

Lemma gate_type_low k : 0 <= Z.land k 0x3 <= 3.
Proof.
  change (Z.land k 0x3) with (Z.land k (Z.ones 2)).
  rewrite Z.land_ones by lia. change (2 ^ 2) with 4. lia.
Qed.

Lemma gate_type_high k : 0 <= Z.shiftr (Z.land k 0xC) 2 <= 3.
Proof.
  rewrite Z.shiftr_land. change (Z.shiftr 0xC 2) with (Z.ones 2).
  rewrite Z.land_ones by lia. change (2 ^ 2) with 4. lia.
Qed.

Lemma updates_falsy cls ms self :
  Forall (fun m => truthy m = false) ms -> updates cls ms self = self.
Proof.
  unfold updates. induction 1 as [|m ms Hm _ IH]; simpl; [done|].
  by rewrite update_falsy.
Qed.

Lemma push_refines depth hm schedule :
  1 <= depth ->
  [hm] ++ slice schedule None (Some (depth - 1)) = Spec.push depth hm schedule.
Proof.
  intros Hd. rewrite slice_prefix by lia. unfold Spec.push.
  replace (Z.to_nat depth) with (S (Z.to_nat (depth - 1))) by lia. done.
Qed.

Lemma len_push depth hm schedule : 1 <= depth -> len (Spec.push depth hm schedule) <= depth.
Proof. intros Hd. unfold Spec.push, len. rewrite length_take. lia. Qed.

Lemma update_chunk_pushes cls self self' :
  1 <= depth self ->
  update_chunk cls self = (self', Ok ()) ->
  exists hm,
    _mirror256_process cls (take 32 (_buffer self)) self = Ok hm /\
    self_last_hashes cls self' = Spec.push (depth self) hm (self_last_hashes cls self) /\
    _buffer self' = drop 32 (_buffer self) /\
    _hashed self' = _hashed self /\ depth self' = depth self.
Proof.
  intros Hd. rewrite update_chunk_unfold, slice_prefix, slice_suffix by lia.
  change (Z.to_nat 32) with 32%nat.
  destruct (_mirror256_process _ _ _) as [hm|e]; [|done]. intros [= <-].
  exists hm. repeat split. unfold self_last_hashes at 1. simpl.
  by apply push_refines.
Qed.

Lemma process_remaining_keeps_schedule cls m self self' r :
  process_remaining cls m self = (self', r) ->
  _last_hashes self' = _last_hashes self /\ _buffer self' = _buffer self /\
  depth self' = depth self /\
  (r = Ok () -> _buffer self <> [] ->
   exists hm,
     _mirror256_process cls (_buffer self ++ repeat 65 (32 - len (_buffer self))) self = Ok hm /\
     _hashed self' = hm).
Proof.
  rewrite process_remaining_unfold.
  destruct (_ || _) eqn:Hc.
  - destruct (_mirror256_process _ _ _) as [hm|e]; intros [= <- <-].
    + repeat split. intros _ _. by exists hm.
    + repeat split. done.
  - intros [= <- <-]. repeat split. intros _ Hb.
    apply orb_false_elim in Hc as [Hc _]. simpl in Hc. by destruct (_buffer self).
Qed.

Lemma process_complete_chunks_bound cls self0 self self' r :
  1 <= depth self0 ->
  bounded_or_untouched cls self0 self ->
  process_complete_chunks cls self = (self', r) ->
  bounded_or_untouched cls self0 self'.
Proof.
  intros Hd H0. unfold process_complete_chunks. apply while_preserves; [|done].
  intros s s' r' [Hds Hs] _ Hc. destruct r' as [[]|e].
  - apply update_chunk_pushes in Hc as (hm & _ & Hp & _ & _ & Hd'); [|lia].
    split; [congruence|]. left. rewrite Hp, Hds. apply len_push. lia.
  - rewrite update_chunk_unfold in Hc.
    destruct (_mirror256_process _ _ _); [done|]. injection Hc as <- _. done.
Qed.

Lemma update_bound cls m self self' r :
  1 <= depth self ->
  update cls m self = (self', r) ->
  bounded_or_untouched cls self self'.
Proof.
  intros Hd. destruct (truthy m) eqn:Ht.
  - destruct (is_str m) eqn:Hs.
    + destruct m as [| | |s| |]; try done.
      assert (s <> []) by (by destruct s).
      rewrite update_str_unfold by done.
      destruct (process_complete_chunks _ _) as [self1 r1] eqn:Hl.
      apply (process_complete_chunks_bound cls self) in Hl; [|done|by split; [|right]].
      destruct r1 as [[]|e]; [|by intros [= <- <-]].
      intros Hrem. apply process_remaining_keeps_schedule in Hrem as (Heq & _ & Hdep & _).
      destruct Hl as [Hd1 Hl]. split; [congruence|].
      unfold self_last_hashes in *. rewrite Heq. done.
    + rewrite update_not_str by done. intros [= <- <-]. by split; [|right].
  - rewrite update_falsy by done. intros [= <- <-]. by split; [|right].
Qed.

Lemma init_rejects_non_str cls m d sz state :
  m <> PyNone -> is_str m = false ->
  snd (__init__ cls m d sz state) = Raise TypeError.
Proof.
  intros Hn Hs. unfold __init__.
  destruct (init_last_hashes_spec state (fresh d sz) cls) as (extra & -> & _).
  by destruct m.
Qed.

(** ** Chunk processing returns *)

Lemma encode_code_point_ok c : code_point_ok c -> exists bs, encode_code_point c = Ok bs.
Proof.
  intros [Hr Hs]. unfold encode_code_point.
  destruct (Z.ltb_spec c 0); [lia|]. destruct (Z.ltb_spec 0x10FFFF c); [lia|]. simpl.
  destruct (c <? 0x80); [eauto|]. destruct (c <? 0x800); [eauto|].
  destruct (Z.leb_spec 0xD800 c), (Z.leb_spec c 0xDFFF); simpl; try lia;
    destruct (c <? 0x10000); eauto.
Qed.

Lemma encode_utf8_ok s : text_ok s -> exists bytes, encode_utf8 s = Ok bytes.
Proof.
  induction 1 as [|c s Hc _ [bytes IH]]; simpl; [eauto|].
  destruct (encode_code_point_ok c Hc) as [bs ->]. rewrite IH. simpl. eauto.
Qed.

Lemma range_nonpos n : n <= 0 -> range n = [].
Proof. intros H. unfold range. by replace (Z.to_nat n) with 0%nat by lia. Qed.

Lemma xor_layer_key_total layer_hash block gate_index :
  0 <= gate_index -> exists block', xor_layer_key layer_hash block gate_index = Ok block'.
Proof.
  intros Hg. unfold xor_layer_key.
  destruct (Z.ltb_spec gate_index (len block)), (Z.ltb_spec gate_index (len layer_hash));
    simpl; eauto.
  destruct (getitem_nonneg block gate_index) as (x & _ & ->); [lia|].
  destruct (getitem_nonneg layer_hash gate_index) as (k & _ & ->); [lia|].
  cbn [mbind result_bind]. rewrite setitem_nonneg by lia. eauto.
Qed.

Lemma sublayer_gates_total self layer layer_hash block gate_index :
  0 < size self -> 0 <= gate_index -> block_ok block ->
  (exists block', first_sublayer_gate self layer layer_hash block gate_index = Ok block') /\
  (exists block', second_sublayer_gate self layer layer_hash block gate_index = Ok block').
Proof.
  intros Hs Hg Hb. unfold first_sublayer_gate, second_sublayer_gate.
  destruct (Z.ltb_spec gate_index (len layer_hash)); [|eauto].
  destruct (getitem_nonneg layer_hash gate_index) as (k & _ & ->); [lia|].
  cbn [mbind result_bind].
  rewrite !apply_gate_spec by auto using gate_type_low, gate_type_high. eauto.
Qed.

Lemma foldM_shape_total {A} n (f : list Z -> A -> result (list Z)) l block :
  (forall b a, a ∈ l -> block_ok b ->
     exists b', f b a = Ok b' /\ block_ok b' /\ length b' = length b) ->
  shape_ok n block -> exists block', foldM f l block = Ok block' /\ shape_ok n block'.
Proof.
  intros Hf. apply foldM_total. intros b a Ha [Hb Hl].
  destruct (Hf b a Ha Hb) as (b' & -> & Hb' & Hl'). exists b'.
  repeat split; [done|congruence].
Qed.

Lemma hash_layer_pass_total self last_hashes layer block n :
  size self <> 0 -> schedule_ok last_hashes -> 0 <= layer < len last_hashes ->
  shape_ok n block ->
  exists block', _hash_layer_pass self last_hashes layer block = Ok block' /\ shape_ok n block'.
Proof.
  intros Hs Hl Hlayer Hb. unfold _hash_layer_pass.
  destruct (getitem_nonneg last_hashes layer Hlayer) as (layer_hash & Hlh & ->).
  cbn [mbind result_bind].
  assert (Hk : block_ok layer_hash) by (by eapply Forall_lookup_1 in Hlh).
  destruct (Z.lt_ge_cases (size self) 0) as [Hneg|Hpos].
  { rewrite range_nonpos by lia. simpl. by exists block. }
  destruct (foldM_shape_total n (xor_layer_key layer_hash) (range (size self `div` 4)) block)
    as (b1 & -> & Hb1); [|done|].
  { intros b a Ha Hbb. apply elem_of_range in Ha.
    destruct (xor_layer_key_total layer_hash b a) as [b' Hx]; [lia|].
    exists b'. split; [done|]. by apply (xor_layer_key_ok layer_hash b a). }
  cbn [mbind result_bind].
  destruct (foldM_shape_total n (first_sublayer_gate self layer layer_hash)
              (range (size self `div` 4)) b1) as (b2 & -> & Hb2); [|done|].
  { intros b a Ha Hbb. apply elem_of_range in Ha.
    destruct (sublayer_gates_total self layer layer_hash b a) as [[b' Hx] _]; [lia..|done|].
    exists b'. split; [done|]. by eapply first_sublayer_gate_ok. }
  cbn [mbind result_bind].
  destruct (foldM_shape_total n (second_sublayer_gate self layer layer_hash)
              (range (size self `div` 4)) b2) as (b3 & -> & Hb3); [|done|].
  { intros b a Ha Hbb. apply elem_of_range in Ha.
    destruct (sublayer_gates_total self layer layer_hash b a) as [_ [b' Hx]]; [lia..|done|].
    exists b'. split; [done|]. by eapply second_sublayer_gate_ok. }
  cbn [mbind result_bind]. eauto.
Qed.

Lemma mirror256_process_total cls m self :
  state_ok cls self -> text_ok m ->
  exists hm, _mirror256_process cls m self = Ok hm /\ shape_ok 64 hm.
Proof.
  intros (_ & Hs & _ & Hsz & Hd) Hm. unfold _mirror256_process.
  destruct (encode_utf8_ok m Hm) as [bytes Henc].
  rewrite (unpack_refines m bytes Henc). cbn [mbind result_bind].
  apply foldM_total.
  - intros b layer Hl Hb. apply elem_of_range in Hl.
    apply hash_layer_pass_total; [done..|lia|done].
  - split; [apply spec_unpack_ok|apply length_unpack].
Qed.

(** ** The loop of [update], one turn at a time *)

Lemma update_chunk_buffer cls s s' :
  update_chunk cls s = (s', Ok ()) -> _buffer s' = drop 32 (_buffer s).
Proof.
  rewrite update_chunk_unfold. destruct (_mirror256_process _ _ _); [|done].
  intros [= <-]. simpl. by rewrite slice_suffix by lia.
Qed.

Lemma chunk_loop_fuel cls fuel1 fuel2 s :
  (length (_buffer s) <= fuel1)%nat -> (length (_buffer s) <= fuel2)%nat ->
  while fuel1 (fun self => 32 <=? len (_buffer self)) (update_chunk cls) s
  = while fuel2 (fun self => 32 <=? len (_buffer self)) (update_chunk cls) s.
Proof.
  revert fuel2 s. induction fuel1 as [|fuel1 IH]; intros [|fuel2] s H1 H2; simpl; try done.
  - destruct (Z.leb_spec 32 (len (_buffer s))) as [H|H]; [|done]. unfold len in H. lia.
  - destruct (Z.leb_spec 32 (len (_buffer s))) as [H|H]; [|done]. unfold len in H. lia.
  - destruct (Z.leb_spec 32 (len (_buffer s))) as [H|H]; [|done].
    unfold mbind, method_bind. destruct (update_chunk cls s) as [s' [[]|e]] eqn:Hc; [|done].
    apply update_chunk_buffer in Hc. unfold len in H.
    apply IH; rewrite Hc, length_drop; lia.
Qed.

Lemma chunk_loop_done cls s :
  len (_buffer s) < 32 -> process_complete_chunks cls s = (s, Ok ()).
Proof.
  intros H. unfold process_complete_chunks. destruct (length (_buffer s)); simpl; [done|].
  destruct (Z.leb_spec 32 (len (_buffer s))); [lia|done].
Qed.

Lemma chunk_loop_step cls s :
  32 <= len (_buffer s) ->
  process_complete_chunks cls s
  = match update_chunk cls s with
    | (s', Ok _) => process_complete_chunks cls s'
    | (s', Raise e) => (s', Raise e)
    end.
Proof.
  intros H. unfold process_complete_chunks.
  destruct (length (_buffer s)) as [|n] eqn:Hn; [unfold len in H; lia|]. simpl.
  destruct (Z.leb_spec 32 (len (_buffer s))); [|lia].
  unfold mbind, method_bind. destruct (update_chunk cls s) as [s' [[]|e]] eqn:Hc; [|done].
  apply update_chunk_buffer in Hc. unfold len in H.
  apply chunk_loop_fuel; rewrite Hc, length_drop; lia.
Qed.

(** Chunk processing reads the depth, the size and the schedule only. *)
Lemma process_same_keys cls m s t :
  depth t = depth s -> size t = size s -> _last_hashes t = _last_hashes s ->
  _mirror256_process cls m t = _mirror256_process cls m s.
Proof. destruct s, t. simpl. by intros -> -> ->. Qed.

Lemma update_chunk_frame cls (f : Mirror256 -> Mirror256) s :
  (forall s, _buffer (f s) = _buffer s /\ depth (f s) = depth s /\ size (f s) = size s /\
             _last_hashes (f s) = _last_hashes s) ->
  (forall b l s, f (set_buffer b (set_last_hashes l s)) = set_buffer b (set_last_hashes l (f s))) ->
  update_chunk cls (f s) = (f (fst (update_chunk cls s)), snd (update_chunk cls s)).
Proof.
  intros Hf Hcomm. rewrite !update_chunk_unfold.
  destruct (Hf s) as (Hb & Hd & Hs & Hl). rewrite Hb, Hd.
  rewrite (process_same_keys cls _ s (f s)) by done.
  destruct (_mirror256_process _ _ _); [|done]. simpl. f_equal.
  rewrite Hcomm. unfold self_last_hashes. by rewrite Hl.
Qed.

Lemma chunk_loop_frame cls (f : Mirror256 -> Mirror256) s :
  (forall s, _buffer (f s) = _buffer s /\ depth (f s) = depth s /\ size (f s) = size s /\
             _last_hashes (f s) = _last_hashes s) ->
  (forall b l s, f (set_buffer b (set_last_hashes l s)) = set_buffer b (set_last_hashes l (f s))) ->
  process_complete_chunks cls (f s)
  = (f (fst (process_complete_chunks cls s)), snd (process_complete_chunks cls s)).
Proof.
  intros Hf Hcomm. unfold process_complete_chunks.
  destruct (Hf s) as (-> & _). generalize (length (_buffer s)). intros fuel.
  revert s. induction fuel as [|fuel IH]; intros s; simpl; [done|].
  destruct (Hf s) as (-> & _).
  destruct (32 <=? len (_buffer s)); [|done].
  unfold mbind, method_bind. rewrite update_chunk_frame by done.
  destruct (update_chunk cls s) as [s' [[]|e]]; simpl; [apply IH|done].
Qed.

(** The loop ends, with fewer than 32 characters pending. *)
Lemma chunk_loop_total cls s :
  state_ok cls s -> text_ok (_buffer s) ->
  exists mid,
    process_complete_chunks cls s = (mid, Ok ()) /\
    state_ok cls mid /\ text_ok (_buffer mid) /\
    len (_buffer mid) = len (_buffer s) `mod` 32 /\
    _hashed mid = _hashed s /\ _counter mid = _counter s.
Proof.
  remember (length (_buffer s)) as n eqn:Hn. revert s Hn.
  induction n as [n IH] using lt_wf_ind. intros s Hn Hok Ht.
  destruct (Z.lt_ge_cases (len (_buffer s)) 32) as [Hlt|Hge].
  - exists s. rewrite chunk_loop_done by done.
    do 3 (split; [done|]). split; [|done].
    pose proof (len_nonneg (_buffer s)). rewrite Z.mod_small; lia.
  - rewrite chunk_loop_step by done.
    destruct (update_chunk cls s) as [s' r] eqn:Hc.
    pose proof (update_chunk_state_ok _ _ _ _ Hok Hc) as Hok'.
    rewrite update_chunk_unfold in Hc.
    destruct (mirror256_process_total cls (slice (_buffer s) None (Some 32)) s)
      as (hm & Hp & _); [done|by apply slice_sublist|].
    rewrite Hp in Hc. injection Hc as <- <-.
    destruct (IH (length (drop 32 (_buffer s)))) with (s := set_buffer (slice (_buffer s) (Some 32) None)
        (set_last_hashes ([hm] ++ slice (self_last_hashes cls s) None (Some (depth s - 1))) s))
      as (mid & Hmid & Hokm & Htm & Hlen & Hh & Hcnt).
    + rewrite length_drop. unfold len in Hge. lia.
    + simpl. by rewrite slice_suffix by lia.
    + done.
    + simpl. by apply slice_sublist.
    + exists mid. do 3 (split; [done|]). split; [|done].
      rewrite Hlen. simpl. rewrite slice_suffix by lia. unfold len in *.
      rewrite length_drop. change (Z.to_nat 32) with 32%nat. lia.
Qed.

Lemma update_chunk_more cls more s s' :
  32 <= len (_buffer s) ->
  update_chunk cls s = (s', Ok ()) ->
  update_chunk cls (with_more more s) = (with_more more s', Ok ()).
Proof.
  intros Hge. rewrite !update_chunk_unfold. unfold with_more. simpl.
  rewrite (slice_prefix (_buffer s ++ more)), (slice_prefix (_buffer s)),
    (slice_suffix (_buffer s ++ more)), (slice_suffix (_buffer s)) by lia.
  change (Z.to_nat 32) with 32%nat.
  unfold len in Hge. rewrite take_app_le, drop_app_le by lia.
  rewrite (process_same_keys cls _ s (set_buffer _ s)) by done.
  destruct (_mirror256_process _ _ _); [|done]. by intros [= <-].
Qed.

(** What is appended to the buffer once the loop is over could as well
    have been there from the start. *)
Lemma chunk_loop_more cls more s mid :
  process_complete_chunks cls s = (mid, Ok ()) ->
  process_complete_chunks cls (with_more more s)
  = process_complete_chunks cls (with_more more mid).
Proof.
  remember (length (_buffer s)) as n eqn:Hn. revert s Hn.
  induction n as [n IH] using lt_wf_ind. intros s Hn.
  destruct (Z.lt_ge_cases (len (_buffer s)) 32) as [Hlt|Hge].
  - rewrite chunk_loop_done by done. by intros [= <-].
  - rewrite chunk_loop_step by done.
    destruct (update_chunk cls s) as [s' [[]|e]] eqn:Hc; [|done]. intros Hl.
    rewrite (chunk_loop_step cls (with_more more s))
      by (unfold with_more; simpl; rewrite len_app; pose proof (len_nonneg more); lia).
    rewrite (update_chunk_more cls more s s') by done.
    apply (IH (length (_buffer s'))); [|done..].
    apply update_chunk_buffer in Hc. rewrite Hc, length_drop. unfold len in Hge. lia.
Qed.

(** ** [update] on text *)

(** [update] on text: it returns, and what it leaves *)
Lemma text_ok_padded buffer : text_ok buffer -> text_ok (buffer ++ repeat 65 (32 - len buffer)).
Proof.
  intros H. apply Forall_app. split; [done|]. apply Forall_replicate.
  unfold code_point_ok. lia.
Qed.

Lemma state_ok_buffered cls self b c :
  state_ok cls self -> state_ok cls (set_counter c (set_buffer b self)).
Proof. intros (? & ? & ? & ? & ?). repeat split; done. Qed.

Lemma update_str_spec cls s self :
  state_ok cls self -> text_ok (_buffer self) -> text_ok s -> s <> [] ->
  exists mid,
    process_complete_chunks cls
      (set_counter (_counter self + len s) (set_buffer (_buffer self ++ s) self))
    = (mid, Ok ()) /\
    state_ok cls mid /\ text_ok (_buffer mid) /\
    len (_buffer mid) = len (_buffer self ++ s) `mod` 32 /\
    _hashed mid = _hashed self /\ _counter mid = _counter self + len s /\
    ((_buffer mid = [] /\ update cls (PyStr s) self = (mid, Ok ())) \/
     (_buffer mid <> [] /\
      exists hm,
        _mirror256_process cls (_buffer mid ++ repeat 65 (32 - len (_buffer mid))) mid = Ok hm /\
        shape_ok 64 hm /\
        update cls (PyStr s) self = (set_hashed hm mid, Ok ()))).
Proof.
  intros Hok Hb Hs Hne.
  destruct (chunk_loop_total cls
              (set_counter (_counter self + len s) (set_buffer (_buffer self ++ s) self)))
    as (mid & Hl & Hokm & Htm & Hlen & Hh & Hc).
  { by apply state_ok_buffered. }
  { simpl. by apply Forall_app. }
  exists mid. do 6 (split; [done|]).
  rewrite update_str_unfold, Hl, process_remaining_unfold by done.
  assert (Hs0 : Nat.eqb (length s) 0 = false) by (by destruct s).
  rewrite Hs0, orb_false_r. simpl truthy.
  destruct (_buffer mid) as [|c buf] eqn:Hbuf; simpl negb; cbv iota.
  - by left.
  - right. split; [done|].
    destruct (mirror256_process_total cls ((c :: buf) ++ repeat 65 (32 - len (c :: buf))) mid)
      as (hm & Hp & Hshape); [done|by apply text_ok_padded|].
    exists hm. by rewrite Hp.
Qed.

(** [update] returns on every text, from every state that satisfies the
    invariant and whose pending characters can be encoded. *)
Lemma update_total cls s self :
  state_ok cls self -> text_ok (_buffer self) -> text_ok s ->
  exists self',
    update cls (PyStr s) self = (self', Ok ()) /\
    state_ok cls self' /\ text_ok (_buffer self').
Proof.
  intros Hok Hb Hs. destruct s as [|c s]; [by exists self|].
  destruct (update_str_spec cls (c :: s) self) as (mid & _ & Hokm & Htm & _ & _ & _ & H);
    try done.
  destruct H as [[_ ->]|(_ & hm & Hp & Hshape & ->)].
  - by exists mid.
  - exists (set_hashed hm mid). split; [done|]. split; [|done].
    destruct Hokm as (? & ? & ? & ? & ?), Hshape. repeat split; done.
Qed.

(** A message that ends on a chunk boundary leaves the digest block as it
    was. *)
Lemma update_on_boundary cls s self :
  state_ok cls self -> text_ok (_buffer self) -> text_ok s -> s <> [] ->
  len (_buffer self ++ s) `mod` 32 = 0 ->
  exists self',
    update cls (PyStr s) self = (self', Ok ()) /\
    _buffer self' = [] /\ _hashed self' = _hashed self /\
    depth self' = depth self /\ size self' = size self.
Proof.
  intros Hok Hb Hs Hne Hmod.
  destruct (update_str_spec cls s self) as (mid & _ & _ & _ & Hlen & Hh & _ & H); try done.
  assert (Hnil : _buffer mid = []).
  { rewrite Hmod in Hlen. destruct (_buffer mid); [done|]. unfold len in Hlen. simpl in Hlen. lia. }
  destruct H as [[_ Hu]|[Hn _]]; [|done].
  exists mid. pose proof (update_same_config _ _ _ _ _ Hu) as [? ?]. done.
Qed.

Lemma set_hashed_eta s : set_hashed (_hashed s) s = s.
Proof. by destruct s. Qed.

(** Splitting a message between two calls of [update] changes nothing but
    possibly the digest block, and that only when the whole ends on a chunk
    boundary. *)
Lemma update_incremental cls self A B :
  state_ok cls self -> text_ok (_buffer self) -> text_ok A -> text_ok B ->
  A <> [] -> B <> [] ->
  exists s1 two one,
    update cls (PyStr A) self = (s1, Ok ()) /\
    update cls (PyStr B) s1 = (two, Ok ()) /\
    update cls (PyStr (A ++ B)) self = (one, Ok ()) /\
    two = set_hashed (_hashed two) one /\
    (len (_buffer self ++ A ++ B) `mod` 32 <> 0 -> two = one) /\
    (len (_buffer self ++ A ++ B) `mod` 32 = 0 ->
     _buffer one = [] /\ _hashed one = _hashed self /\ _hashed two = _hashed s1).
Proof.
  intros Hok Hb HA HB HAne HBne.
  (* the first call *)
  destruct (update_str_spec cls A self) as (mid1 & Hl1 & Hok1 & Ht1 & _ & _ & Hc1 & H1);
    try done.
  assert (exists s1, update cls (PyStr A) self = (s1, Ok ()) /\
                     s1 = set_hashed (_hashed s1) mid1 /\ state_ok cls s1) as (s1 & Hu1 & Hs1 & Hoks1).
  { destruct H1 as [[_ Hu]|(_ & hm & _ & Hshape & Hu)].
    - exists mid1. split; [done|]. split; [by rewrite set_hashed_eta|done].
    - exists (set_hashed hm mid1). split; [done|]. split; [done|].
      destruct Hok1 as (? & ? & ? & ? & ?), Hshape. repeat split; done. }
  set (h1 := _hashed s1) in *.
  (* the second call *)
  destruct (update_str_spec cls B s1) as (mid2 & Hl2 & _ & _ & Hlen2 & Hh2 & _ & H2);
    try done.
  { rewrite Hs1. done. }
  (* the single call *)
  assert (HAB : A ++ B <> []) by (by destruct A).
  destruct (update_str_spec cls (A ++ B) self) as (mid12 & Hl12 & _ & _ & Hlen12 & Hh12 & _ & H12);
    try done.
  { by apply Forall_app. }
  (* both loops continue the loop of the first call *)
  pose proof (chunk_loop_more cls B _ _ Hl1) as Hmore.
  destruct (process_complete_chunks cls (with_more B mid1)) as [x rx] eqn:Hx.
  assert (Hone : (mid12, Ok ()) = (set_counter (_counter self + len (A ++ B)) x, rx)).
  { rewrite <- Hl12.
    replace (set_counter (_counter self + len (A ++ B)) (set_buffer (_buffer self ++ A ++ B) self))
      with (set_counter (_counter self + len (A ++ B))
              (with_more B (set_counter (_counter self + len A)
                              (set_buffer (_buffer self ++ A) self))))
      by (unfold with_more, set_counter, set_buffer; simpl; by rewrite <- app_assoc).
    rewrite (chunk_loop_frame cls (set_counter (_counter self + len (A ++ B)))) by done.
    by rewrite Hmore. }
  assert (Htwo : (mid2, Ok ()) = (set_counter (_counter self + len (A ++ B)) (set_hashed h1 x), rx)).
  { rewrite <- Hl2.
    replace (set_counter (_counter s1 + len B) (set_buffer (_buffer s1 ++ B) s1))
      with ((fun s => set_counter (_counter self + len (A ++ B)) (set_hashed h1 s))
              (with_more B mid1)).
    2:{ rewrite Hs1. unfold with_more, set_counter, set_hashed, set_buffer. simpl.
        rewrite Hc1, len_app. f_equal. lia. }
    rewrite (chunk_loop_frame cls
               (fun s => set_counter (_counter self + len (A ++ B)) (set_hashed h1 s))) by done.
    by rewrite Hx. }
  pose proof (f_equal fst Hone) as E1. pose proof (f_equal snd Hone) as E2.
  pose proof (f_equal fst Htwo) as E3. simpl in E1, E2, E3.
  subst mid12 rx mid2. clear Hone Htwo.
  set (c := _counter self + len (A ++ B)) in *.
  assert (Hbuf : _buffer (set_counter c (set_hashed h1 x)) = _buffer (set_counter c x)) by done.
  assert (Hlen : len (_buffer self ++ A ++ B) `mod` 32 = len (_buffer (set_counter c x))) by done.
  destruct H12 as [[Hnil Hu12]|(Hnn & hm & Hp & _ & Hu12)].
  - (* on the boundary *)
    destruct H2 as [[_ Hu2]|[Hn _]]; [|by rewrite Hbuf in Hn].
    exists s1, (set_counter c (set_hashed h1 x)), (set_counter c x).
    do 3 (split; [done|]). split; [done|]. split.
    + intros Hmod. rewrite Hlen, Hnil in Hmod. done.
    + intros _. repeat split; [done|]. by rewrite <- Hh12.
  - (* off the boundary *)
    destruct H2 as [[Hn _]|(_ & hm2 & Hp2 & _ & Hu2)]; [by rewrite Hbuf in Hn|].
    rewrite Hbuf in Hp2.
    rewrite (process_same_keys cls _ (set_counter c x) (set_counter c (set_hashed h1 x))) in Hp2
      by done.
    rewrite Hp in Hp2. injection Hp2 as <-.
    exists s1, (set_hashed hm (set_counter c (set_hashed h1 x))), (set_hashed hm (set_counter c x)).
    do 3 (split; [done|]). split; [done|]. split; [done|].
    intros Hmod. rewrite Hlen in Hmod. destruct (_buffer (set_counter c x)); [done|].
    unfold len in Hmod. simpl in Hmod. lia.
Qed.

(** ** Constructing with a message, short messages *)

(** Constructing with a message is constructing without one and calling
    [update] once. *)
Lemma init_with_message cls s d sz state cls' :
  __init__ cls PyNone d sz state = (cls', Ok (fresh d sz)) ->
  __init__ cls (PyStr s) d sz state
  = (cls', match update cls' (PyStr s) (fresh d sz) with
           | (self, Ok _) => Ok self
           | (_, Raise e) => Raise e
           end).
Proof.
  unfold __init__, fresh.
  destruct (init_last_hashes _ _ _) as [c [[]|e]]; [|done]. intros [= <-]. simpl.
  by destruct (update _ _ _) as [? [[]|?]].
Qed.

Lemma init_default_state_ok cls :
  __init__ [] PyNone None None StandardState = (cls, Ok (fresh None None)) ->
  state_ok cls (fresh None None).
Proof.
  intros Hi. apply init_spec in Hi as [_ H]; [by apply H|exact I|constructor].
Qed.

Lemma digest_same_block s t :
  size t = size s -> _hashed t = _hashed s -> snd (digest t) = snd (digest s).
Proof. intros Hs Hh. unfold digest, lift, _pack. simpl. by rewrite Hs, Hh. Qed.

Lemma process_same_unpack cls m1 m2 s :
  _unpack m1 = _unpack m2 -> _mirror256_process cls m1 s = _mirror256_process cls m2 s.
Proof. intros H. unfold _mirror256_process. by rewrite H. Qed.

Lemma update_short cls s self :
  s <> [] -> len (_buffer self ++ s) < 32 ->
  update cls (PyStr s) self
  = match _mirror256_process cls
            ((_buffer self ++ s) ++ repeat 65 (32 - len (_buffer self ++ s))) self with
    | Ok hm =>
        (set_hashed hm
           (set_counter (_counter self + len s) (set_buffer (_buffer self ++ s) self)), Ok ())
    | Raise e =>
        (set_counter (_counter self + len s) (set_buffer (_buffer self ++ s) self), Raise e)
    end.
Proof.
  intros Hs Hlen. rewrite update_str_unfold, chunk_loop_done by done.
  rewrite process_remaining_unfold.
  assert (Hs0 : Nat.eqb (length s) 0 = false) by (by destruct s).
  assert (Hb0 : Nat.eqb (length (_buffer self ++ s)) 0 = false).
  { rewrite length_app. destruct s; [done|]. simpl. apply Nat.eqb_neq. lia. }
  simpl. rewrite Hb0. simpl.
  by rewrite (process_same_keys cls _ self (set_counter _ (set_buffer _ self))).
Qed.

Lemma text_ok_str s : text_ok (str s).
Proof.
  unfold str. apply Forall_fmap, Forall_forall. intros c _. simpl.
  pose proof (nat_ascii_bounded c). unfold code_point_ok. lia.
Qed.

Lemma default_class_is_first_init cls :
  __init__ [] PyNone None None StandardState = (cls, Ok (fresh None None)) ->
  cls = fst (__init__ [] PyNone None None StandardState).
Proof. by intros ->. Qed.

(** ** The schedule [update] leaves *)

Lemma single_bytes_text_ok s : single_bytes s -> text_ok s.
Proof.
  intros H. eapply Forall_impl; [exact H|]. intros c Hc. simpl in Hc. unfold code_point_ok. lia.
Qed.

Lemma encode_utf8_single_bytes s : single_bytes s -> encode_utf8 s = Ok s.
Proof.
  induction 1 as [|c s Hc _ IH]; [done|]. simpl. unfold encode_code_point.
  destruct (Z.ltb_spec c 0); [lia|]. destruct (Z.ltb_spec 0x10FFFF c); [lia|].
  destruct (Z.ltb_spec c 0x80); [|lia]. simpl. by rewrite IH.
Qed.

Lemma full_chunks_cover k pending :
  concat (full_chunks k pending) ++ drop (32 * k) pending = pending.
Proof.
  revert pending. induction k as [|k IH]; intros pending.
  - done.
  - cbn [full_chunks concat].
    replace (32 * S k)%nat with (32 + 32 * k)%nat by lia.
    rewrite <- drop_drop, <- app_assoc, IH. apply take_drop.
Qed.

Lemma full_chunks_bytes k pending :
  single_bytes pending -> (32 * k <= length pending)%nat ->
  Forall (fun chunk => encode_utf8 chunk = Ok chunk /\ length chunk = 32%nat)
         (full_chunks k pending).
Proof.
  revert pending. induction k as [|k IH]; intros pending Hp Hk; cbn [full_chunks].
  - constructor.
  - constructor.
    + split; [by apply encode_utf8_single_bytes, Forall_take|].
      rewrite length_take. lia.
    + apply IH; [by apply Forall_drop|]. rewrite length_drop. lia.
Qed.

Lemma process_with_same_config s t schedule chunk :
  depth t = depth s -> size t = size s ->
  process_with t schedule chunk = process_with s schedule chunk.
Proof. destruct s, t. simpl. by intros -> ->. Qed.

Lemma chain_same_config s t schedule chunks :
  depth t = depth s -> size t = size s ->
  chain t schedule chunks = chain s schedule chunks.
Proof.
  intros Hd Hs. revert schedule. induction chunks as [|chunk rest IH]; intros schedule; [done|].
  cbn [chain]. rewrite (process_with_same_config s t) by done.
  destruct (process_with s schedule chunk) as [hm|e]; [|done].
  cbn [mbind result_bind]. by rewrite IH, Hd.
Qed.

Lemma chain_bound self schedule chunks schedule' :
  1 <= depth self ->
  chain self schedule chunks = Ok schedule' ->
  chunks <> [] \/ len schedule <= depth self ->
  len schedule' <= depth self.
Proof.
  intros Hd. revert schedule. induction chunks as [|chunk rest IH]; intros schedule.
  - intros [= <-] [H|H]; done.
  - cbn [chain]. destruct (process_with self schedule chunk) as [hm|e]; [|done].
    cbn [mbind result_bind]. intros Hc _. apply IH in Hc; [done|].
    right. by apply len_push.
Qed.

(** The loop of [update] is the chaining rule on the full chunks of the
    buffer. *)
Lemma chunk_loop_chain cls s :
  state_ok cls s -> text_ok (_buffer s) -> 1 <= depth s ->
  exists mid,
    process_complete_chunks cls s = (mid, Ok ()) /\
    chain s (self_last_hashes cls s) (full_chunks (length (_buffer s) / 32) (_buffer s))
    = Ok (self_last_hashes cls mid) /\
    (32 <= len (_buffer s) -> _last_hashes mid = Some (self_last_hashes cls mid)) /\
    (len (_buffer s) < 32 -> mid = s) /\
    _buffer mid = drop (32 * (length (_buffer s) / 32)) (_buffer s) /\
    depth mid = depth s /\ size mid = size s.
Proof.
  remember (length (_buffer s)) as n eqn:Hn. revert s Hn.
  induction n as [n IH] using lt_wf_ind. intros s Hn Hok Ht Hd.
  destruct (Z.lt_ge_cases (len (_buffer s)) 32) as [Hlt|Hge].
  - exists s. rewrite chunk_loop_done by done.
    assert (Hk : (n / 32 = 0)%nat) by (apply Nat.div_small; unfold len in Hlt; lia).
    rewrite Hk. split; [done|]. split; [done|]. split; [lia|]. split; [done|].
    split; [|done]. by rewrite Nat.mul_0_r, drop_0.
  - rewrite chunk_loop_step by done.
    rewrite update_chunk_unfold.
    destruct (mirror256_process_total cls (slice (_buffer s) None (Some 32)) s)
      as (hm & Hp & _); [done|by apply slice_sublist|].
    pose proof (update_chunk_state_ok cls s) as Hok'.
    rewrite update_chunk_unfold, Hp in Hok'. specialize (Hok' _ _ Hok eq_refl).
    rewrite Hp.
    rewrite push_refines in * by done.
    rewrite slice_prefix, slice_suffix in * by lia.
    change (Z.to_nat 32) with 32%nat in *.
    set (s1 := set_buffer (drop 32 (_buffer s))
                 (set_last_hashes (Spec.push (depth s) hm (self_last_hashes cls s)) s)) in *.
    assert (Hk : (n / 32 = S ((n - 32) / 32))%nat).
    { unfold len in Hge. replace n with ((n - 32) + 1 * 32)%nat at 1 by lia.
      rewrite Nat.div_add by lia. lia. }
    destruct (IH (length (_buffer s1))) with (s := s1)
      as (mid & Hmid & Hch & Hsome & Hsame & Hbuf & Hdm & Hsm).
    + simpl. rewrite length_drop. unfold len in Hge. lia.
    + done.
    + done.
    + simpl. by apply Forall_drop.
    + done.
    + exists mid. split; [done|].
      assert (Hl1 : length (_buffer s1) = (n - 32)%nat) by (simpl; rewrite length_drop; lia).
      rewrite Hl1 in *. rewrite Hk. cbn [full_chunks chain].
      change (process_with s (self_last_hashes cls s) (take 32 (_buffer s)))
        with (_mirror256_process cls (take 32 (_buffer s)) s).
      rewrite Hp. cbn [mbind result_bind].
      rewrite (chain_same_config s s1) in Hch by done.
      split; [exact Hch|]. split.
      { intros _. destruct (Z.lt_ge_cases (len (_buffer s1)) 32) as [H1|H1].
        - by rewrite (Hsame H1).
        - by apply Hsome. }
      split; [unfold len in *; lia|].
      split; [|done].
      rewrite Hbuf. simpl. rewrite drop_drop. f_equal. lia.
Qed.

(** ** The repository's tests, on the model *)

(** [test_empty_string]: [Mirror256("").hexdigest()] starts with "0x" and
    has 66 characters. *)
Example test_empty_string :
  exists cls h digest,
    __init__ [] (PyStr (str "")) None None StandardState = (cls, Ok h) /\
    hexdigest h = (h, Ok digest) /\
    String.prefix "0x" digest = true /\ String.length digest = 66%nat.
Proof.
  destruct (init_none [] None None StandardState) as [cls Hi].
  exists cls, (fresh None None). eexists.
  split; [rewrite (init_with_message _ _ _ _ _ _ Hi); reflexivity|].
  split; [vm_compute; reflexivity|]. split; reflexivity.
Qed.

(** [test_update]: updating an empty hasher with "Hello", ", " and "world!"
    leaves it as [Mirror256("Hello, world!")] is, so the digests agree. *)
Example test_update :
  exists cls h1,
    __init__ [] (PyStr (str "Hello, world!")) None None StandardState = (cls, Ok h1) /\
    updates cls [PyStr (str "Hello"); PyStr (str ", "); PyStr (str "world!")] (fresh None None)
    = h1 /\
    snd (hexdigest h1)
    = snd (hexdigest (updates cls [PyStr (str "Hello"); PyStr (str ", "); PyStr (str "world!")]
                        (fresh None None))).
Proof.
  destruct (init_none [] None None StandardState) as [cls Hi].
  pose proof (init_default_state_ok cls Hi) as Hok.
  destruct (update_incremental cls (fresh None None) (str "Hello") (str ", ") Hok)
    as (s1 & s2 & s12 & Hu1 & Hu2 & Hu12 & _ & He & _);
    [constructor|apply text_ok_str..|done|done|].
  specialize (He ltac:(vm_compute; discriminate)). subst s12.
  destruct (update_incremental cls (fresh None None) (str "Hello, ") (str "world!") Hok)
    as (s2' & s3 & h1 & Hu2' & Hu3 & Hu & _ & He & _);
    [constructor|apply text_ok_str..|done|done|].
  specialize (He ltac:(vm_compute; discriminate)). subst s3.
  change (str "Hello" ++ str ", ") with (str "Hello, ") in Hu12.
  change (str "Hello, " ++ str "world!") with (str "Hello, world!") in Hu.
  rewrite Hu12 in Hu2'. injection Hu2' as <-.
  assert (Hups : updates cls [PyStr (str "Hello"); PyStr (str ", "); PyStr (str "world!")]
                   (fresh None None) = h1).
  { unfold updates. cbn [fold_left]. rewrite Hu1. cbn [fst]. rewrite Hu2. cbn [fst].
    by rewrite Hu3. }
  exists cls, h1. rewrite Hups. split; [|split; reflexivity].
  rewrite (init_with_message _ _ _ _ _ _ Hi), Hu. reflexivity.
Qed.

(** ** The claims *)

(** C1, as stated, fails: [Mirror256()], [Mirror256("")] and a first
    [update("")] all leave the digest block empty, and the digest is 32
    octets 0x00, not the digest of the all-padding chunk. *)
Lemma empty_input_is_not_the_all_padding_digest :
  exists cls self,
    __init__ [] PyNone None None StandardState = (cls, Ok self) /\
    __init__ [] (PyStr []) None None StandardState = (cls, Ok self) /\
    update cls (PyStr []) self = (self, Ok ()) /\
    snd (digest self) = Ok (replicate 32 0) /\
    all_padding_digest cls self
    = Ok [158; 241; 86; 68; 154; 49; 132; 54; 122; 109; 33; 124; 161; 77; 148; 80;
          12; 95; 54; 156; 161; 77; 148; 80; 12; 95; 54; 156; 131; 33; 6; 52] /\
    snd (digest self) <> all_padding_digest cls self.
Proof.
  destruct (init_none [] None None StandardState) as [cls Hi].
  pose proof (default_class_is_first_init cls Hi) as Hcls.
  exists cls, (fresh None None).
  split; [done|]. split; [rewrite (init_with_message _ _ _ _ _ _ Hi); reflexivity|].
  split; [done|]. split; [reflexivity|].
  assert (Hpad : all_padding_digest cls (fresh None None)
                 = Ok [158; 241; 86; 68; 154; 49; 132; 54; 122; 109; 33; 124; 161; 77; 148;
                       80; 12; 95; 54; 156; 161; 77; 148; 80; 12; 95; 54; 156; 131; 33; 6; 52]).
  { rewrite Hcls. vm_compute. reflexivity. }
  split; [exact Hpad|]. rewrite Hpad. discriminate.
Qed.

(** C1, amended. Constructing a hasher with no message, with a size that
    is not negative, succeeds and yields a valid digest, not an error:
    [digest()] returns the [size // 8] octets 0x00 that [_pack] makes of
    the empty digest block. *)
Theorem constructing_without_message_gives_the_zero_digest cls d sz state :
  0 <= or_default sz DEFAULT_SIZE ->
  exists cls' self bytes,
    __init__ cls PyNone d sz state = (cls', Ok self) /\
    digest self = (self, Ok bytes) /\
    len bytes = size self `div` 8 /\
    bytes = replicate (Z.to_nat (size self `div` 8)) 0 /\
    _pack self [] = Ok bytes.
Proof.
  intros Hs. destruct (init_none cls d sz state) as (cls' & Hi).
  assert (Hp : _pack (fresh d sz) [] = Ok (replicate (Z.to_nat (size (fresh d sz) `div` 8)) 0))
    by (by apply pack_empty).
  exists cls', (fresh d sz), (replicate (Z.to_nat (size (fresh d sz) `div` 8)) 0).
  split; [exact Hi|]. repeat split.
  - unfold digest, lift. simpl _hashed. by rewrite Hp.
  - unfold len. rewrite length_replicate. simpl in *. lia.
  - done.
Qed.

Lemma constructing_without_message_gives_the_zero_digest_witness :
  0 <= or_default None DEFAULT_SIZE /\
  exists cls' self bytes,
    __init__ [] PyNone None None StandardState = (cls', Ok self) /\
    digest self = (self, Ok bytes) /\ len bytes = size self `div` 8.
Proof.
  assert (H : 0 <= or_default None DEFAULT_SIZE) by (vm_compute; discriminate).
  split; [exact H|].
  destruct (constructing_without_message_gives_the_zero_digest [] None None StandardState H)
    as (cls' & self & bytes & Hi & Hd & Hl & _).
  exists cls', self, bytes. split; [exact Hi|]. split; [exact Hd|exact Hl].
Defined.

(** C2 at the failing inputs: [update] returns normally, without raising,
    for the non-text values [0], [b""], [[]], [False] and [None], while the
    constructor raises [TypeError] for [0] and [b""], and [update] raises it
    for the truthy [1] and [b"hi"]. *)
Theorem update_lets_falsy_non_text_through cls self :
  update cls (PyInt 0) self = (self, Ok ()) /\
  update cls (PyBytes []) self = (self, Ok ()) /\
  update cls (PyList []) self = (self, Ok ()) /\
  update cls (PyBool false) self = (self, Ok ()) /\
  update cls PyNone self = (self, Ok ()) /\
  snd (__init__ cls (PyInt 0) None None StandardState) = Raise TypeError /\
  snd (__init__ cls (PyBytes []) None None StandardState) = Raise TypeError /\
  update cls (PyInt 1) self = (self, Raise TypeError) /\
  update cls (PyBytes [104; 105]) self = (self, Raise TypeError).
Proof.
  repeat split; try reflexivity; by apply init_rejects_non_str.
Qed.

(** C3 at the failing input: twenty characters U+00E9 are 40 octets of
    UTF-8, but [update] counts 20 characters: it takes no full chunk
    (buffer and schedule are untouched), pads to 32 characters and
    [_unpack] keeps the first 32 octets only, so the last four characters
    are never hashed and the digest is that of a message ending in "zzzz"
    instead. *)
Theorem update_measures_the_buffer_in_code_points :
  let m := replicate 20 233 in
  let m' := replicate 16 233 ++ str "zzzz" in
  exists cls self self' bytes,
    __init__ [] (PyStr m) None None StandardState = (cls, Ok self) /\
    __init__ [] (PyStr m') None None StandardState = (cls, Ok self') /\
    encode_utf8 m = Ok bytes /\ len bytes = 40 /\
    _buffer self = m /\ _last_hashes self = None /\
    _unpack (m ++ repeat 65 (32 - len m)) = Ok (Spec.unpack (take 32 bytes)) /\
    _unpack (m ++ repeat 65 (32 - len m)) = _unpack (m' ++ repeat 65 (32 - len m')) /\
    _hashed self = _hashed self' /\
    snd (digest self)
    = Ok [201; 14; 250; 84; 5; 152; 192; 192; 133; 31; 190; 120; 26; 227; 155; 2; 66; 65;
          206; 120; 26; 227; 155; 2; 66; 65; 196; 5; 201; 49; 83; 195] /\
    snd (digest self) = snd (digest self').
Proof.
  intros m m'.
  destruct (init_none [] None None StandardState) as [cls Hi].
  pose proof (default_class_is_first_init cls Hi) as Hcls.
  assert (Hun : _unpack (m ++ repeat 65 (32 - len m)) = _unpack (m' ++ repeat 65 (32 - len m')))
    by (vm_compute; reflexivity).
  assert (exists hm,
             _mirror256_process cls (m ++ repeat 65 (32 - len m)) (fresh None None) = Ok hm /\
             _pack (fresh None None) hm
             = Ok [201; 14; 250; 84; 5; 152; 192; 192; 133; 31; 190; 120; 26; 227; 155; 2;
                   66; 65; 206; 120; 26; 227; 155; 2; 66; 65; 196; 5; 201; 49; 83; 195])
    as (hm & Hp & Hd).
  { rewrite Hcls. eexists. split; [vm_compute; reflexivity|vm_compute; reflexivity]. }
  assert (Hp' : _mirror256_process cls (m' ++ repeat 65 (32 - len m')) (fresh None None) = Ok hm).
  { rewrite <- (process_same_unpack cls _ _ _ Hun). exact Hp. }
  assert (Hu : update cls (PyStr m) (fresh None None)
               = (set_hashed hm (set_counter 20 (set_buffer m (fresh None None))), Ok ())).
  { rewrite update_short; [|discriminate|vm_compute; reflexivity].
    change (_buffer (fresh None None) ++ m) with m. rewrite Hp. reflexivity. }
  assert (Hu' : update cls (PyStr m') (fresh None None)
                = (set_hashed hm (set_counter 20 (set_buffer m' (fresh None None))), Ok ())).
  { rewrite update_short; [|discriminate|vm_compute; reflexivity].
    change (_buffer (fresh None None) ++ m') with m'. rewrite Hp'. reflexivity. }
  exists cls, (set_hashed hm (set_counter 20 (set_buffer m (fresh None None)))),
    (set_hashed hm (set_counter 20 (set_buffer m' (fresh None None)))).
  eexists.
  split; [rewrite (init_with_message _ _ _ _ _ _ Hi), Hu; reflexivity|].
  split; [rewrite (init_with_message _ _ _ _ _ _ Hi), Hu'; reflexivity|].
  split; [vm_compute; reflexivity|].
  do 3 (split; [reflexivity|]).
  split; [vm_compute; reflexivity|].
  split; [exact Hun|]. split; [reflexivity|]. split; [exact Hd|reflexivity].
Qed.

(** C4 at the failing input: with A sixteen 'a' and B sixteen 'b',
    [update(A + B)] on a fresh hasher (and [Mirror256(A + B)]) consumes one
    full chunk and leaves the digest block empty, so the digest is 32
    octets 0x00; [update(A)] then [update(B)] leaves the same buffer and
    schedule but the digest block [update(A)] computed. *)
Theorem split_update_differs_on_a_chunk_boundary :
  let A := replicate 16 97 in
  let B := replicate 16 98 in
  exists cls fresh0 one two_a two,
    __init__ [] PyNone None None StandardState = (cls, Ok fresh0) /\
    update cls (PyStr (A ++ B)) fresh0 = (one, Ok ()) /\
    update cls (PyStr A) fresh0 = (two_a, Ok ()) /\
    update cls (PyStr B) two_a = (two, Ok ()) /\
    __init__ [] (PyStr (A ++ B)) None None StandardState = (cls, Ok one) /\
    two = set_hashed (_hashed two_a) one /\
    _buffer one = [] /\ _hashed one = [] /\
    snd (digest one) = Ok (replicate 32 0) /\
    snd (digest two)
    = Ok [116; 111; 43; 11; 93; 82; 42; 139; 202; 10; 57; 191; 47; 13; 65; 196; 133; 114;
          9; 218; 84; 77; 148; 80; 12; 95; 54; 244; 59; 155; 93; 247] /\
    snd (digest one) <> snd (digest two).
Proof.
  intros A B.
  destruct (init_none [] None None StandardState) as [cls Hi].
  pose proof (default_class_is_first_init cls Hi) as Hcls.
  pose proof (init_default_state_ok cls Hi) as Hok.
  assert (HA : text_ok A) by (apply Forall_replicate; unfold code_point_ok; lia).
  assert (HB : text_ok B) by (apply Forall_replicate; unfold code_point_ok; lia).
  destruct (update_incremental cls (fresh None None) A B Hok)
    as (two_a & two & one & Hu1 & Hu2 & Hu12 & Heq & _ & Hb);
    [constructor|done..|].
  destruct Hb as (Hnil & Hh1 & Hh2); [vm_compute; reflexivity|].
  rewrite Hh2 in Heq.
  pose proof (update_same_config _ _ _ _ _ Hu12) as [_ Hsz].
  assert (Hd1 : snd (digest one) = Ok (replicate 32 0)).
  { rewrite (digest_same_block (fresh None None) one) by done. reflexivity. }
  assert (Hd2 : snd (digest two)
                = Ok [116; 111; 43; 11; 93; 82; 42; 139; 202; 10; 57; 191; 47; 13; 65; 196;
                      133; 114; 9; 218; 84; 77; 148; 80; 12; 95; 54; 244; 59; 155; 93; 247]).
  { rewrite (digest_same_block (set_hashed (_hashed two_a) (fresh None None)) two)
      by (by rewrite Heq).
    replace two_a with (fst (update cls (PyStr A) (fresh None None))) by (by rewrite Hu1).
    rewrite Hcls. vm_compute. reflexivity. }
  exists cls, (fresh None None), one, two_a, two.
  do 4 (split; [done|]).
  split; [rewrite (init_with_message _ _ _ _ _ _ Hi), Hu12; reflexivity|].
  do 5 (split; [done|]). rewrite Hd1, Hd2. discriminate.
Qed.

(** C5. In every reachable state of a hasher whose size is not negative,
    [digest()] returns exactly [size // 8] octets and [hexdigest()] returns
    "0x" followed by the two lowercase hexadecimal characters of each of
    them (32 octets and 66 characters for the default size 256); both leave
    the hasher as it was and depend on nothing but [size] and [_hashed]. *)
Theorem digest_and_hexdigest_read_the_digest_block cls self :
  reachable cls self -> 0 <= size self ->
  exists d,
    digest self = (self, Ok d) /\
    len d = size self `div` 8 /\
    Forall octet d /\
    hexdigest self = (self, Ok ("0x" ++ hexlify d)%string) /\
    Z.of_nat (String.length ("0x" ++ hexlify d)) = 2 + 2 * (size self `div` 8) /\
    Forall (fun c => Spec.lowercase_hex c = true) (list_ascii_of_string (hexlify d)) /\
    (size self = DEFAULT_SIZE ->
     len d = 32 /\ String.length ("0x" ++ hexlify d) = 66%nat) /\
    (forall other,
       size other = size self -> _hashed other = _hashed self ->
       digest other = (other, Ok d)).
Proof.
  intros Hr Hs. apply reachable_state_ok in Hr as (_ & _ & Hh & _).
  destruct (pack_ok self (_hashed self) Hs Hh) as (d & Hd & Hl & Ho).
  assert (Hlen : String.length ("0x" ++ hexlify d) = (2 + 2 * length d)%nat).
  { simpl. by rewrite length_hexlify. }
  exists d.
  split; [unfold digest, lift; by rewrite Hd|].
  split; [done|]. split; [done|].
  split; [unfold hexdigest, mbind, method_bind, digest, lift; by rewrite Hd|].
  split; [rewrite Hlen; unfold len in Hl; lia|].
  split; [apply hexlify_lowercase|].
  split.
  - intros Hdef. rewrite Hdef in Hl. change (DEFAULT_SIZE `div` 8) with 32 in Hl.
    split; [done|]. rewrite Hlen. unfold len in Hl. lia.
  - intros other Hsz Hhd. unfold digest, lift, _pack in *. rewrite Hsz, Hhd. by rewrite Hd.
Qed.

Lemma digest_and_hexdigest_read_the_digest_block_witness :
  exists cls self,
    (reachable cls self /\ 0 <= size self) /\
    exists d, digest self = (self, Ok d) /\ len d = size self `div` 8.
Proof.
  eexists _, _.
  match goal with |- (reachable ?c ?s /\ _) /\ _ => assert (Hr : reachable c s) end.
  { eapply (reach_new [] (PyStr (str "hi")) (Some 2) (Some 16) StandardState).
    - apply class_loaded.
    - exact I.
    - vm_compute. reflexivity. }
  assert (Hs : 0 <= 16) by lia.
  split; [split; [exact Hr|exact Hs]|].
  destruct (digest_and_hexdigest_read_the_digest_block _ _ Hr Hs) as (d & Hd & Hl & _).
  exists d. split; [exact Hd|exact Hl].
Defined.

(** C6, as stated, fails on the bound: the class attribute is one list for
    all depths, so a hasher of depth 3 constructed after a default one
    reads a schedule of 128 entries, before and after an [update] that
    takes no full chunk. *)
Lemma shallow_hasher_reads_the_deeper_class_schedule :
  exists cls0 first cls self self',
    __init__ [] PyNone None None StandardState = (cls0, Ok first) /\
    __init__ cls0 PyNone (Some 3) None StandardState = (cls, Ok self) /\
    update cls (PyStr (str "x")) self = (self', Ok ()) /\
    cls = cls0 /\
    depth self' = 3 /\
    _last_hashes self' = None /\
    len (self_last_hashes cls self') = 128 /\
    ~ len (self_last_hashes cls self') <= depth self'.
Proof.
  eexists _, _, _, _, _.
  split; [vm_compute; reflexivity|].
  split; [vm_compute; reflexivity|].
  split; [vm_compute; reflexivity|].
  split; [reflexivity|]. split; [reflexivity|]. split; [reflexivity|].
  split; [reflexivity|]. vm_compute. intros H. apply H. reflexivity.
Qed.

(** C6, amended. In a reachable state of a hasher of depth at least 1,
    for a non-empty text of single-byte characters given to [update] while
    such text is pending: [update] returns; the pending text is its full
    32-byte chunks followed by a remainder of fewer than 32 bytes; the
    schedule [update] leaves is the one the chaining rule gives on the
    full chunks in order, each chunk processed under the schedule the
    chunks before it left and its block prepended, the leading [depth]
    entries kept; when there is a full chunk that schedule is the
    instance's own and has at most [depth] entries, and when there is none
    the schedule is untouched; the remainder stays in the buffer and, when
    it is not empty, it is padded and processed the same way under the
    final schedule, its block going to [_hashed] only.  For every [update],
    whatever its argument and its outcome, the schedule has at most
    [depth] entries afterwards when [update] changed it or it had at most
    [depth] entries before. *)
Theorem full_chunks_are_pushed_and_the_remainder_is_not cls self :
  reachable cls self -> 1 <= depth self ->
  (forall s,
     single_bytes (_buffer self) -> single_bytes s -> s <> [] ->
     let pending := _buffer self ++ s in
     let k := (length pending / 32)%nat in
     let rest := drop (32 * k) pending in
     exists self' schedule',
       update cls (PyStr s) self = (self', Ok ()) /\
       Forall (fun chunk => encode_utf8 chunk = Ok chunk /\ length chunk = 32%nat)
              (full_chunks k pending) /\
       concat (full_chunks k pending) ++ rest = pending /\
       (length rest < 32)%nat /\
       chain self (self_last_hashes cls self) (full_chunks k pending) = Ok schedule' /\
       self_last_hashes cls self' = schedule' /\
       (k <> 0%nat -> _last_hashes self' = Some schedule' /\ len schedule' <= depth self) /\
       (k = 0%nat -> _last_hashes self' = _last_hashes self) /\
       _buffer self' = rest /\
       (rest <> [] ->
        process_with self schedule' (rest ++ repeat 65 (32 - len rest)) = Ok (_hashed self')) /\
       (rest = [] -> _hashed self' = _hashed self)) /\
  (forall m self' r,
     update cls m self = (self', r) ->
     len (self_last_hashes cls self) <= depth self \/ _last_hashes self' <> _last_hashes self ->
     len (self_last_hashes cls self') <= depth self).
Proof.
  intros Hr Hd. split.
  - intros s Hb Hs Hne pending k rest.
    pose proof (reachable_state_ok cls self Hr) as Hok.
    assert (Hpend : single_bytes pending) by (apply Forall_app; done).
    set (self0 := set_counter (_counter self + len s) (set_buffer (_buffer self ++ s) self)).
    destruct (chunk_loop_chain cls self0) as (mid & Hloop & Hch & Hsome & Hsame & Hbuf & Hdm & Hsm).
    { by apply state_ok_buffered. }
    { simpl. by apply single_bytes_text_ok. }
    { done. }
    change (_buffer self0) with pending in *. fold k in Hch, Hbuf. fold rest in Hbuf.
    rewrite (chain_same_config self self0) in Hch by done.
    change (self_last_hashes cls self0) with (self_last_hashes cls self) in Hch.
    assert (Hk : (32 * k <= length pending)%nat).
    { unfold k. pose proof (Nat.div_mod_eq (length pending) 32). lia. }
    assert (Hrest : (length rest < 32)%nat).
    { unfold rest. rewrite length_drop. unfold k.
      pose proof (Nat.div_mod_eq (length pending) 32).
      pose proof (Nat.mod_upper_bound (length pending) 32). lia. }
    assert (Hbound : k <> 0%nat -> len (self_last_hashes cls mid) <= depth self).
    { intros Hk0. apply (chain_bound self _ _ _ Hd Hch). left.
      destruct k; [done|]. discriminate. }
    assert (Hown : k <> 0%nat -> _last_hashes mid = Some (self_last_hashes cls mid)).
    { intros Hk0. apply Hsome. unfold len. destruct k; [done|]. lia. }
    assert (Hnone : k = 0%nat -> _last_hashes mid = _last_hashes self).
    { intros Hk0. rewrite Hsame; [done|]. unfold len. unfold k in Hk0.
      apply Nat.div_small_iff in Hk0; lia. }
    assert (Hm : _hashed mid = _hashed self).
    { destruct (chunk_loop_total cls self0) as (mid' & Hloop' & _ & _ & _ & Hh & _).
      - by apply state_ok_buffered.
      - simpl. by apply single_bytes_text_ok.
      - rewrite Hloop in Hloop'. by injection Hloop' as ->. }
    rewrite update_str_unfold by done. fold self0. rewrite Hloop.
    rewrite process_remaining_unfold.
    destruct (_buffer mid) as [|c b] eqn:Hbm.
    + assert (s <> []) as Hs' by done. destruct s as [|c0 s0]; [done|].
      change (truthy (PyStr []) || Nat.eqb (length (c0 :: s0)) 0) with false.
      exists mid, (self_last_hashes cls mid).
      split; [done|]. split; [by apply full_chunks_bytes|].
      split; [apply full_chunks_cover|]. split; [done|]. split; [done|]. split; [done|].
      split; [by intros Hk0; split; [apply Hown|apply Hbound]|].
      split; [done|]. split; [by rewrite Hbm|]. split; [by rewrite <- Hbuf|done].
    + change (truthy (PyStr (c :: b)) || Nat.eqb (length s) 0) with true.
      assert (Hokm : state_ok cls mid).
      { eapply process_complete_chunks_state_ok; [|exact Hloop]. by apply state_ok_buffered. }
      destruct (mirror256_process_total cls ((c :: b) ++ repeat 65 (32 - len (c :: b))) mid)
        as (hm & Hp & _); [done| |].
      { apply text_ok_padded. rewrite Hbuf. apply single_bytes_text_ok.
        by apply Forall_drop. }
      rewrite Hp.
      exists (set_hashed hm mid), (self_last_hashes cls mid).
      split; [done|]. split; [by apply full_chunks_bytes|].
      split; [apply full_chunks_cover|]. split; [done|]. split; [done|]. split; [done|].
      split; [by intros Hk0; split; [apply Hown|apply Hbound]|].
      split; [done|]. split; [by simpl; rewrite Hbm|]. split; [|by rewrite <- Hbuf].
      intros _. rewrite <- Hbuf. change (_hashed (set_hashed hm mid)) with hm.
      rewrite (process_with_same_config mid self) by done. exact Hp.
  - intros m self' r Hu Hor. apply update_bound in Hu as [_ Hu]; [|done].
    destruct Hu as [Hu|Hu]; [done|]. destruct Hor as [Hor|Hor]; [|done].
    unfold self_last_hashes in *. by rewrite Hu.
Qed.

Lemma full_chunks_are_pushed_and_the_remainder_is_not_witness :
  exists cls self,
    (reachable cls self /\ 1 <= depth self) /\
    exists self' schedule',
      update cls (PyStr (repeat 97 40)) self = (self', Ok ()) /\
      chain self (self_last_hashes cls self) [repeat 97 32] = Ok schedule' /\
      _last_hashes self = None /\
      _last_hashes self' = Some schedule' /\
      len schedule' <= depth self /\
      _buffer self' = repeat 97 8 /\
      process_with self schedule' (repeat 97 8 ++ repeat 65 24) = Ok (_hashed self').
Proof.
  eexists _, _.
  match goal with |- (reachable ?c ?s /\ _) /\ _ => assert (Hr : reachable c s) end.
  { eapply (reach_new [] PyNone (Some 2) (Some 16) StandardState).
    - apply class_loaded.
    - exact I.
    - vm_compute. reflexivity. }
  assert (Hd : 1 <= 2) by lia.
  split; [split; [exact Hr|exact Hd]|].
  assert (Hs : single_bytes (repeat 97 40)).
  { apply Forall_replicate. lia. }
  assert (Hb : single_bytes []) by constructor.
  assert (Hne : repeat 97 40 <> []) by discriminate.
  destruct (full_chunks_are_pushed_and_the_remainder_is_not _ _ Hr Hd) as (Hpush & _).
  destruct (Hpush (repeat 97 40) Hb Hs Hne)
    as (self' & schedule' & Hu & _ & _ & _ & Hch & _ & Hown & _ & Hbuf & Hrest & _).
  assert (Hk : 1%nat <> 0%nat) by discriminate.
  destruct (Hown Hk) as [Hsome Hlen].
  assert (Hnil : repeat 97 8 <> []) by discriminate.
  exists self', schedule'.
  split; [exact Hu|]. split; [exact Hch|]. split; [reflexivity|]. split; [exact Hsome|].
  split; [exact Hlen|]. split; [exact Hbuf|]. exact (Hrest Hnil).
Defined.

(** C7. For the gate at [gate_index >= 0] of layer [layer] in a hasher of
    positive size: the three wires the code computes are
    [(gate_index*4 + layer mod 2 + t + shift) mod size] for [t = 0, 1, 2],
    with shift 0 in the first sublayer and 2 in the second; called with
    [gate_type & 1] and [gate_type >> 1], [_apply_gate] is the gate the
    specification's decoding and table give (Toffoli or Fredkin, Regular or
    Mirrored), writing back only the wires whose value changed; and the two
    sublayer loops take [gate_type] from the low and the high two bits of
    the key nibble. *)
Theorem gates_follow_wire_formula_and_table self layer layer_hash block gate_index k :
  0 < size self -> 0 <= gate_index -> block_ok block ->
  layer_hash !! Z.to_nat gate_index = Some k ->
  (forall first_sublayer t,
     _get_wire self gate_index first_sublayer (layer `mod` 2 + t)
     = Ok (Spec.wire (size self) gate_index layer first_sublayer t)) /\
  (forall gate_type first_sublayer,
     0 <= gate_type <= 3 ->
     _apply_gate self gate_index (Z.land gate_type 1) (Z.shiftr gate_type 1) block
       first_sublayer layer
     = Ok (Spec.gate_at (size self) layer first_sublayer gate_index gate_type block)) /\
  first_sublayer_gate self layer layer_hash block gate_index
  = Ok (Spec.gate_at (size self) layer true gate_index (Z.land k 0x3) block) /\
  second_sublayer_gate self layer layer_hash block gate_index
  = Ok (Spec.gate_at (size self) layer false gate_index (Z.shiftr (Z.land k 0xC) 2) block).
Proof.
  intros Hs Hg Hb Hk.
  assert (Hlt : (gate_index <? len layer_hash) = true).
  { apply Z.ltb_lt. apply lookup_lt_Some in Hk. unfold len. lia. }
  repeat split.
  - intros first_sublayer t. apply get_wire_spec. lia.
  - intros gate_type first_sublayer Hgt. by apply apply_gate_spec.
  - unfold first_sublayer_gate. rewrite Hlt, (getitem_lookup _ _ _ Hg Hk).
    cbn [mbind result_bind]. apply apply_gate_spec; [done|apply gate_type_low|done].
  - unfold second_sublayer_gate. rewrite Hlt, (getitem_lookup _ _ _ Hg Hk).
    cbn [mbind result_bind]. apply apply_gate_spec; [done|apply gate_type_high|done].
Qed.

Lemma gates_follow_wire_formula_and_table_witness :
  let self := fresh None None in
  let block := [3; 0; 15; 8] in
  (0 < size self /\ 0 <= 0 /\ block_ok block /\ [6; 9] !! Z.to_nat 0 = Some 6) /\
  first_sublayer_gate self 1 [6; 9] block 0
  = Ok (Spec.gate_at (size self) 1 true 0 (Z.land 6 0x3) block).
Proof.
  split.
  - split; [reflexivity|]. split; [lia|]. split; [|reflexivity].
    unfold block_ok, nibble. repeat constructor; lia.
  - apply (gates_follow_wire_formula_and_table (fresh None None) 1 [6; 9] [3; 0; 15; 8] 0 6).
    + reflexivity.
    + lia.
    + unfold block_ok, nibble. repeat constructor; lia.
    + reflexivity.
Defined.

(** C8. For every chunk whose text encodes as UTF-8 to [bytes], [_unpack]
    returns the nibbles of the first 32 octets of [bytes] when there are
    more than 32, and of [bytes] padded on the right with 0x41 ('A') to 32
    octets otherwise; each octet gives its high nibble and then its low
    nibble, in input order, and the result has exactly 64 nibbles. *)
Theorem unpack_truncates_pads_and_splits m bytes :
  encode_utf8 m = Ok bytes ->
  _unpack m = Ok (Spec.unpack bytes) /\ length (Spec.unpack bytes) = 64%nat.
Proof.
  intros Henc. split; [by apply unpack_refines|apply length_unpack].
Qed.

Lemma unpack_truncates_pads_and_splits_witness :
  encode_utf8 [233; 33] = Ok [195; 169; 33] /\
  (_unpack [233; 33] = Ok (Spec.unpack [195; 169; 33]) /\
   length (Spec.unpack [195; 169; 33]) = 64%nat).
Proof.
  split; [reflexivity|].
  apply (unpack_truncates_pads_and_splits [233; 33] [195; 169; 33]). reflexivity.
Defined.

(** C9. A hasher constructed with no message, of a size that is not
    negative, and then updated only by calls that return at once (falsy
    arguments), has the empty list as its digest block; [digest()] returns
    [size // 8] octets, all 0x00, and neither [digest()] nor [hexdigest()]
    raises. *)
Theorem fresh_hasher_digest_is_zero cls d sz state ms :
  0 <= or_default sz DEFAULT_SIZE ->
  Forall (fun m => truthy m = false) ms ->
  exists cls' self,
    __init__ cls PyNone d sz state = (cls', Ok self) /\
    let self' := updates cls' ms self in
    let zeros := replicate (Z.to_nat (size self' `div` 8)) 0 in
    _hashed self' = [] /\
    digest self' = (self', Ok zeros) /\
    len zeros = size self' `div` 8 /\
    hexdigest self' = (self', Ok ("0x" ++ hexlify zeros)%string).
Proof.
  intros Hs Hms. destruct (init_none cls d sz state) as (cls' & Hi).
  exists cls', (fresh d sz). split; [exact Hi|].
  rewrite updates_falsy by done. cbn zeta.
  assert (Hp : _pack (fresh d sz) [] = Ok (replicate (Z.to_nat (size (fresh d sz) `div` 8)) 0))
    by (by apply pack_empty).
  repeat split.
  - unfold digest, lift. simpl _hashed. by rewrite Hp.
  - unfold len. rewrite length_replicate. simpl in *. lia.
  - unfold hexdigest, mbind, method_bind, digest, lift. simpl _hashed. by rewrite Hp.
Qed.

Lemma fresh_hasher_digest_is_zero_witness :
  (0 <= or_default None DEFAULT_SIZE /\
   Forall (fun m => truthy m = false) [PyStr []; PyNone; PyInt 0]) /\
  exists cls' self,
    __init__ [] PyNone None None StandardState = (cls', Ok self) /\
    digest (updates cls' [PyStr []; PyNone; PyInt 0] self)
    = (updates cls' [PyStr []; PyNone; PyInt 0] self, Ok (replicate 32 0)).
Proof.
  assert (H1 : 0 <= or_default None DEFAULT_SIZE) by (vm_compute; discriminate).
  assert (H2 : Forall (fun m => truthy m = false) [PyStr []; PyNone; PyInt 0])
    by (repeat constructor).
  split; [split; [exact H1|exact H2]|].
  destruct (fresh_hasher_digest_is_zero [] None None StandardState _ H1 H2)
    as (cls' & self & Hi & _ & Hd & _).
  exists cls', self. split; [exact Hi|].
  assert (Hsz : size (updates cls' [PyStr []; PyNone; PyInt 0] self) = 256).
  { unfold __init__ in Hi.
    destruct (init_last_hashes _ _ _) as [c [[]|e]]; [|discriminate Hi].
    injection Hi as _ <-. reflexivity. }
  rewrite Hd, Hsz. reflexivity.
Defined.

(** C10. In every reachable state all nibbles of the class schedule, of
    the schedule the hasher reads and of its digest block are in 0..15, so
    [_pack] is defined on it; and each operation keeps them there:
    [_unpack] returns nibbles, the XOR with a layer key and [_set_bit]
    (whatever the old nibble was) store nibbles, a layer pass returns
    nibbles, both initialisers append only layers of nibbles, and [update]
    leaves a schedule and a digest block of nibbles. *)
Theorem nibbles_stay_in_range cls self :
  reachable cls self ->
  (schedule_ok cls /\ schedule_ok (self_last_hashes cls self) /\ block_ok (_hashed self)) /\
  (0 <= size self -> exists d, _pack self (_hashed self) = Ok d /\ Forall octet d) /\
  (forall m block, _unpack m = Ok block -> block_ok block) /\
  (forall a b, nibble a -> nibble b -> nibble (Z.lxor a b)) /\
  (forall layer_hash block gate_index block',
     block_ok layer_hash -> block_ok block ->
     xor_layer_key layer_hash block gate_index = Ok block' -> block_ok block') /\
  (forall old_nib wire bit,
     0 <= bit <= 1 -> nibble (set_bit_value old_nib (wire `mod` 4) bit)) /\
  (forall block wire bit block',
     block_ok block -> 0 <= bit <= 1 ->
     _set_bit block wire bit = Ok block' -> block_ok block') /\
  (forall last_hashes layer block block',
     schedule_ok last_hashes -> block_ok block ->
     _hash_layer_pass self last_hashes layer block = Ok block' -> block_ok block') /\
  (forall state other cls' r,
     randint_ok state ->
     init_last_hashes state other cls = (cls', r) -> schedule_ok cls') /\
  (forall m self' r,
     update cls m self = (self', r) ->
     schedule_ok (self_last_hashes cls self') /\ block_ok (_hashed self')).
Proof.
  intros Hr. apply reachable_state_ok in Hr. pose proof Hr as (Hc & Hs & Hh & Hsz & Hd).
  split; [done|]. split.
  { intros H0. destruct (pack_ok self (_hashed self) H0 Hh) as (d & ? & _ & ?). eauto. }
  split. { intros m block H. by apply unpack_ok in H as [? _]. }
  split. { apply nibble_lxor. }
  split. { intros ???? Hk Hb H. by apply xor_layer_key_ok in H as [? _]. }
  split. { intros ??? Hb. apply set_bit_value_nibble; [lia|done]. }
  split. { intros ???? Hb Hbit H. by apply set_bit_ok in H as [? _]. }
  split.
  { intros ???? Hl Hb H.
    by apply (hash_layer_pass_ok _ _ _ _ _ (length block)) in H as [? _]. }
  split.
  { intros state other cls' r Hrand Hi.
    destruct (init_last_hashes_spec state other cls) as (extra & He & Hok & _).
    rewrite He in Hi. injection Hi as <- _. apply Forall_app. split; [done|by apply Hok]. }
  intros m self' r Hu. apply update_state_ok in Hu as (_ & ? & ? & _); done.
Qed.

Lemma nibbles_stay_in_range_witness :
  exists cls self,
    reachable cls self /\
    schedule_ok (self_last_hashes cls self) /\ block_ok (_hashed self).
Proof.
  eexists _, _.
  match goal with |- reachable ?c ?s /\ _ => assert (Hr : reachable c s) end.
  { eapply (reach_new [] (PyStr (str "hi")) (Some 2) (Some 16) StandardState).
    - apply class_loaded.
    - exact I.
    - vm_compute. reflexivity. }
  split; [exact Hr|].
  destruct (nibbles_stay_in_range _ _ Hr) as ((_ & Hs & Hh) & _).
  split; [exact Hs|exact Hh].
Defined.

(** * Further properties of the code *)

(** ** Wires as coordinates of a block *)

Lemma length_write block w b : length (Spec.write block w b) = length block.
Proof. unfold Spec.write. apply length_alter. Qed.

Lemma bit_write_eq block w b :
  0 <= w -> w `div` 4 < len block -> Spec.bit (Spec.write block w b) w = b.
Proof.
  intros Hw Hlt. unfold Spec.bit, Spec.write.
  destruct (lookup_lt_is_Some_2 block (Z.to_nat (w `div` 4))) as [nib Hnib].
  { unfold len in Hlt. lia. }
  rewrite list_lookup_alter_eq, Hnib. simpl.
  destruct b; [apply Z.setbit_eq|apply Z.clearbit_eq]; lia.
Qed.

Lemma bit_write_ne block w w' b :
  0 <= w -> 0 <= w' -> w <> w' -> Spec.bit (Spec.write block w b) w' = Spec.bit block w'.
Proof.
  intros Hw Hw' Hne. unfold Spec.bit, Spec.write.
  destruct (decide (Z.to_nat (w `div` 4) = Z.to_nat (w' `div` 4))) as [Heq|Hi].
  - rewrite <- Heq, list_lookup_alter_eq.
    destruct (block !! _) as [nib|]; [simpl|done].
    destruct b; [apply Z.setbit_neq|apply Z.clearbit_neq]; lia.
  - by rewrite list_lookup_alter_ne.
Qed.

Lemma nibble_of_bits x :
  nibble x ->
  x = Z.b2z (Z.testbit x 0) + 2 * Z.b2z (Z.testbit x 1)
      + 4 * Z.b2z (Z.testbit x 2) + 8 * Z.b2z (Z.testbit x 3).
Proof. intros Hx. nibble_cases x; reflexivity. Qed.

Lemma block_ext b1 b2 :
  block_ok b1 -> block_ok b2 -> length b1 = length b2 ->
  (forall w, 0 <= w < 4 * len b1 -> Spec.bit b1 w = Spec.bit b2 w) ->
  b1 = b2.
Proof.
  intros H1 H2 Hlen Hbit. apply list_eq_same_length with (length b1); [done..|].
  intros i x y Hi Hx Hy.
  assert (Hk : forall k, 0 <= k <= 3 -> Z.testbit x k = Z.testbit y k).
  { intros k Hk. specialize (Hbit (4 * Z.of_nat i + k)). unfold Spec.bit in Hbit.
    replace ((4 * Z.of_nat i + k) `div` 4) with (Z.of_nat i) in Hbit by lia.
    replace ((4 * Z.of_nat i + k) `mod` 4) with k in Hbit by lia.
    rewrite Nat2Z.id, Hx, Hy in Hbit. apply Hbit. unfold len. lia. }
  rewrite (nibble_of_bits x), (nibble_of_bits y).
  - rewrite !Hk by lia. reflexivity.
  - eapply Forall_lookup_1 in Hy; done.
  - eapply Forall_lookup_1 in Hx; done.
Qed.

Lemma gate_involutive n s v : Spec.gate n s (Spec.gate n s v) = v.
Proof. destruct n, s, v as [[[] []] []]; reflexivity. Qed.

(** The wires of a gate hold the gate's outputs afterwards, every other
    wire is as it was. *)
Lemma apply_bits n s w1 w2 w3 block w :
  0 <= w1 -> 0 <= w2 -> 0 <= w3 -> w1 <> w2 -> w1 <> w3 -> w2 <> w3 ->
  w1 `div` 4 < len block -> w2 `div` 4 < len block -> w3 `div` 4 < len block ->
  0 <= w ->
  Spec.bit (Spec.apply n s w1 w2 w3 block) w =
  let '(v1, v2, v3) := Spec.gate n s (Spec.bit block w1, Spec.bit block w2, Spec.bit block w3) in
  if decide (w = w1) then v1 else if decide (w = w2) then v2
  else if decide (w = w3) then v3 else Spec.bit block w.
Proof.
  intros H1 H2 H3 H12 H13 H23 R1 R2 R3 Hw. unfold Spec.apply.
  destruct (Spec.gate n s _) as [[v1 v2] v3].
  assert (Hlen : forall blk w0 b, w0 `div` 4 < len blk -> forall w', w' `div` 4 < len blk ->
                   w' `div` 4 < len (Spec.write blk w0 b)).
  { intros. unfold len. by rewrite length_write. }
  destruct (decide (w = w1)) as [->|N1]; [|destruct (decide (w = w2)) as [->|N2];
    [|destruct (decide (w = w3)) as [->|N3]]].
  all: destruct (xorb v1 _) eqn:E1, (xorb v2 _) eqn:E2, (xorb v3 _) eqn:E3;
    rewrite ?(bit_write_ne _ w3) by done;
    rewrite ?(bit_write_eq _ w3) by auto;
    rewrite ?(bit_write_ne _ w2) by done;
    rewrite ?(bit_write_eq _ w2) by auto;
    rewrite ?(bit_write_ne _ w1) by done;
    rewrite ?(bit_write_eq _ w1) by auto;
    try reflexivity.
  all: try (apply xorb_eq in E1; by rewrite E1).
  all: try (apply xorb_eq in E2; by rewrite E2).
  all: try (apply xorb_eq in E3; by rewrite E3).
Qed.

Lemma length_apply n s w1 w2 w3 block : length (Spec.apply n s w1 w2 w3 block) = length block.
Proof.
  unfold Spec.apply. destruct (Spec.gate n s _) as [[v1 v2] v3].
  destruct (xorb v1 _), (xorb v2 _), (xorb v3 _); by rewrite ?length_write.
Qed.

Lemma apply_ok n s w1 w2 w3 block : block_ok block -> block_ok (Spec.apply n s w1 w2 w3 block).
Proof.
  intros Hb. unfold Spec.apply. destruct (Spec.gate n s _) as [[v1 v2] v3].
  destruct (xorb v1 _), (xorb v2 _), (xorb v3 _); auto using write_ok.
Qed.

Lemma apply_involutive n s w1 w2 w3 block :
  0 <= w1 -> 0 <= w2 -> 0 <= w3 -> w1 <> w2 -> w1 <> w3 -> w2 <> w3 ->
  w1 `div` 4 < len block -> w2 `div` 4 < len block -> w3 `div` 4 < len block ->
  block_ok block ->
  Spec.apply n s w1 w2 w3 (Spec.apply n s w1 w2 w3 block) = block.
Proof.
  intros H1 H2 H3 H12 H13 H23 R1 R2 R3 Hb.
  assert (Hl : len (Spec.apply n s w1 w2 w3 block) = len block)
    by (unfold len; by rewrite length_apply).
  apply block_ext; [by do 2 apply apply_ok|done|by rewrite !length_apply|].
  intros w [Hw _].
  rewrite apply_bits by (try done; by rewrite Hl).
  rewrite !(apply_bits n s w1 w2 w3 block) by done.
  destruct (Spec.gate n s (Spec.bit block w1, _, _)) as [[v1 v2] v3] eqn:Hg.
  rewrite !decide_True by done.
  rewrite (decide_False (P := w2 = w1)), (decide_False (P := w3 = w1)),
    (decide_False (P := w3 = w2)) by done.
  rewrite !decide_True by done.
  rewrite <- Hg, gate_involutive.
  repeat case_decide; by subst.
Qed.

(** Three consecutive taps of a gate are three different wires. *)
Lemma mod_shift_ne a d sz : 0 < d < sz -> (a + d) `mod` sz <> a `mod` sz.
Proof.
  intros Hd Heq.
  assert (Hdiv : (sz | d)).
  { replace d with ((a + d) - a) by lia. apply Z.mod_divide; [lia|].
    rewrite Zminus_mod, Heq, Z.sub_diag. apply Z.mod_0_l. lia. }
  apply Z.divide_pos_le in Hdiv; lia.
Qed.

Lemma wires_distinct sz gi layer first :
  3 <= sz ->
  Spec.wire sz gi layer first 0 <> Spec.wire sz gi layer first 1 /\
  Spec.wire sz gi layer first 0 <> Spec.wire sz gi layer first 2 /\
  Spec.wire sz gi layer first 1 <> Spec.wire sz gi layer first 2.
Proof.
  intros Hs. unfold Spec.wire.
  set (a := gi * 4 + layer `mod` 2 + 0 + (if first then 0 else 2)).
  replace (gi * 4 + layer `mod` 2 + 1 + _) with (a + 1) by (unfold a; lia).
  replace (gi * 4 + layer `mod` 2 + 2 + _) with (a + 1 + 1) by (unfold a; lia).
  repeat split; intros H; symmetry in H; revert H.
  - apply mod_shift_ne. lia.
  - replace (a + 1 + 1) with (a + 2) by lia. apply mod_shift_ne. lia.
  - apply mod_shift_ne. lia.
Qed.

Lemma wire_in_range sz gi layer first t (block : list Z) :
  0 < sz <= 4 * len block -> Spec.wire sz gi layer first t `div` 4 < len block.
Proof.
  intros Hs. unfold Spec.wire.
  pose proof (Z.mod_pos_bound (gi * 4 + layer `mod` 2 + t + (if first then 0 else 2)) sz).
  lia.
Qed.

Lemma gate_at_involutive sz layer first gi gate_type block :
  3 <= sz <= 4 * len block -> block_ok block ->
  Spec.gate_at sz layer first gi gate_type
    (Spec.gate_at sz layer first gi gate_type block) = block.
Proof.
  intros Hs Hb. unfold Spec.gate_at. destruct (Spec.decode gate_type) as [n s].
  destruct (wires_distinct sz gi layer first) as (H12 & H13 & H23); [lia|].
  apply apply_involutive; try done; try (apply wire_nonneg; lia);
    apply wire_in_range; lia.
Qed.

(** [gate_values] is one of the four gates, or leaves the values alone. *)
Lemma gate_values_cases gate_name gate_symmetry :
  (exists gate_type, 0 <= gate_type <= 3 /\
     gate_name = Z.land gate_type 1 /\ gate_symmetry = Z.shiftr gate_type 1) \/
  (forall v1 v2 v3, gate_values gate_name gate_symmetry v1 v2 v3 = (v1, v2, v3)).
Proof.
  destruct (decide (gate_name = 0 \/ gate_name = 1)) as [Hn|Hn];
    [destruct (decide (gate_symmetry = 0 \/ gate_symmetry = 1)) as [Hs|Hs]|].
  - left. exists (gate_name + 2 * gate_symmetry).
    destruct Hn as [-> | ->], Hs as [-> | ->]; simpl; repeat split; lia.
  - right. intros v1 v2 v3. unfold gate_values, REGULAR, MIRRORED.
    destruct (Z.eqb_spec gate_symmetry 0), (Z.eqb_spec gate_symmetry 1); try lia.
    by rewrite !andb_false_r.
  - right. intros v1 v2 v3. unfold gate_values, TOFFOLI, FREDKIN.
    destruct (Z.eqb_spec gate_name 0), (Z.eqb_spec gate_name 1); try lia. done.
Qed.

Lemma apply_gate_idle self gate_index gate_name gate_symmetry block first_sublayer layer :
  0 < size self ->
  (forall v1 v2 v3, gate_values gate_name gate_symmetry v1 v2 v3 = (v1, v2, v3)) ->
  _apply_gate self gate_index gate_name gate_symmetry block first_sublayer layer = Ok block.
Proof.
  intros Hs Hid. unfold _apply_gate. rewrite !get_wire_spec by lia.
  cbn [mbind result_bind].
  rewrite !get_bit_spec by (apply wire_nonneg; lia). cbn [mbind result_bind].
  rewrite Hid, !Z.eqb_refl. reflexivity.
Qed.

Lemma apply_gate_involutive self gate_index gate_name gate_symmetry block first_sublayer layer :
  3 <= size self <= 4 * len block -> block_ok block ->
  exists block',
    _apply_gate self gate_index gate_name gate_symmetry block first_sublayer layer = Ok block' /\
    _apply_gate self gate_index gate_name gate_symmetry block' first_sublayer layer = Ok block.
Proof.
  intros Hs Hb.
  destruct (gate_values_cases gate_name gate_symmetry) as [(gt & Hgt & -> & ->)|Hid].
  - eexists. split; [apply apply_gate_spec; [lia|done..]|].
    rewrite apply_gate_spec; [|lia|done|].
    + f_equal. by apply gate_at_involutive.
    + unfold Spec.gate_at. destruct (Spec.decode gt). by apply apply_ok.
  - exists block. split; apply apply_gate_idle; (lia || done).
Qed.

(** ** Layers can be undone *)

Lemma foldM_undo {A B} (P : B -> Prop) (f : B -> A -> result B) l :
  (forall b a b', a ∈ l -> P b -> f b a = Ok b' -> P b' /\ f b' a = Ok b) ->
  forall b c, P b -> foldM f l b = Ok c -> P c /\ foldM f (reverse l) c = Ok b.
Proof.
  induction l as [|a l IH]; intros Hf b c Hb H; simpl in H.
  - injection H as <-. done.
  - apply bind_Ok in H as (b1 & H1 & H).
    destruct (Hf b a b1) as [Hb1 Hback]; [left|done..|].
    destruct (IH (fun b a b' Ha => Hf b a b' (list_elem_of_further _ _ _ Ha)) b1 c Hb1 H)
      as [Hc Hrev].
    split; [done|]. rewrite reverse_cons, foldM_app, Hrev. simpl. by rewrite Hback.
Qed.

Lemma foldM_injective {A B} (P : B -> Prop) (f : B -> A -> result B) l :
  (forall b a b', a ∈ l -> P b -> f b a = Ok b' -> P b') ->
  (forall b1 b2 a c, a ∈ l -> P b1 -> P b2 -> f b1 a = Ok c -> f b2 a = Ok c -> b1 = b2) ->
  forall b1 b2 c, P b1 -> P b2 -> foldM f l b1 = Ok c -> foldM f l b2 = Ok c -> b1 = b2.
Proof.
  induction l as [|a l IH]; intros HP Hinj b1 b2 c H1 H2 E1 E2; simpl in E1, E2.
  - congruence.
  - apply bind_Ok in E1 as (c1 & F1 & E1). apply bind_Ok in E2 as (c2 & F2 & E2).
    assert (P1 : P c1) by (eapply (HP b1 a); [left|done..]).
    assert (P2 : P c2) by (eapply (HP b2 a); [left|done..]).
    assert (c1 = c2) as <-.
    { apply (IH (fun b a b' Ha => HP b a b' (list_elem_of_further _ _ _ Ha))
                (fun b1 b2 a c Ha => Hinj b1 b2 a c (list_elem_of_further _ _ _ Ha))
                c1 c2 c); done. }
    eapply Hinj; [left|done..].
Qed.

Lemma xor_layer_key_undo layer_hash block gate_index block' :
  0 <= gate_index ->
  xor_layer_key layer_hash block gate_index = Ok block' ->
  xor_layer_key layer_hash block' gate_index = Ok block.
Proof.
  intros Hg. unfold xor_layer_key.
  destruct (Z.ltb_spec gate_index (len block)) as [Hb|Hb];
    destruct (Z.ltb_spec gate_index (len layer_hash)) as [Hk|Hk]; simpl.
  2-4: intros [= <-]; destruct (Z.ltb_spec gate_index (len block)); simpl; (done || lia).
  destruct (getitem_nonneg block gate_index) as (x & Hx & ->); [lia|].
  destruct (getitem_nonneg layer_hash gate_index) as (k & Hkk & ->); [lia|].
  cbn [mbind result_bind]. rewrite setitem_nonneg by lia. intros [= <-].
  assert (Hl : len (<[Z.to_nat gate_index := Z.lxor x k]> block) = len block)
    by (unfold len; by rewrite length_insert).
  rewrite Hl. destruct (Z.ltb_spec gate_index (len block)); [simpl|lia].
  rewrite (getitem_lookup _ gate_index (Z.lxor x k)); [|lia|].
  2: { apply list_lookup_insert_eq. unfold len in Hb. lia. }
  cbn [mbind result_bind]. rewrite setitem_nonneg by lia.
  rewrite list_insert_insert_eq, Z.lxor_assoc, Z.lxor_nilpotent, Z.lxor_0_r.
  by rewrite list_insert_id.
Qed.

Lemma sublayer_gates_undo self layer layer_hash block gate_index block' :
  0 <= gate_index < size self `div` 4 -> wired self block ->
  (first_sublayer_gate self layer layer_hash block gate_index = Ok block' ->
   first_sublayer_gate self layer layer_hash block' gate_index = Ok block) /\
  (second_sublayer_gate self layer layer_hash block gate_index = Ok block' ->
   second_sublayer_gate self layer layer_hash block' gate_index = Ok block).
Proof.
  intros Hg [Hb Hs]. unfold first_sublayer_gate, second_sublayer_gate.
  destruct (_ <? _); [|split; congruence].
  destruct (getitem layer_hash gate_index) as [k|]; [|done]. cbn [mbind result_bind].
  split; intros H.
  - destruct (apply_gate_involutive self gate_index (Z.land (Z.land k 3) 1)
                (Z.shiftr (Z.land k 3) 1) block true layer) as (b & Hgo & Hback);
      [lia|done|]. congruence.
  - destruct (apply_gate_involutive self gate_index (Z.land (Z.shiftr (Z.land k 12) 2) 1)
                (Z.shiftr (Z.shiftr (Z.land k 12) 2) 1) block false layer) as (b & Hgo & Hback);
      [lia|done|]. congruence.
Qed.

Lemma wired_step self block block' :
  wired self block -> block_ok block' /\ length block' = length block -> wired self block'.
Proof. intros [Hb Hs] [Hb' Hl]. split; [done|]. unfold len in *. lia. Qed.

(** Running the three loops of a layer backwards, last loop first and each
    loop from its last gate to its first, gives the block back. *)
Lemma hash_layer_pass_undo self last_hashes layer block block' :
  schedule_ok last_hashes -> wired self block ->
  _hash_layer_pass self last_hashes layer block = Ok block' ->
  wired self block' /\
  exists layer_hash, getitem last_hashes layer = Ok layer_hash /\
    (b ← foldM (second_sublayer_gate self layer layer_hash)
          (reverse (range (size self `div` 4))) block';
     b ← foldM (first_sublayer_gate self layer layer_hash)
          (reverse (range (size self `div` 4))) b;
     foldM (xor_layer_key layer_hash) (reverse (range (size self `div` 4))) b) = Ok block.
Proof.
  intros Hs Hw H. unfold _hash_layer_pass in H.
  apply bind_Ok in H as (layer_hash & Hlh & H).
  assert (Hk : block_ok layer_hash).
  { apply getitem_elem_of in Hlh. by eapply Forall_forall in Hs. }
  apply bind_Ok in H as (b1 & H1 & H). apply bind_Ok in H as (b2 & H2 & H).
  apply bind_Ok in H as (b3 & H3 & H). injection H as <-.
  apply (foldM_undo (wired self)) in H1 as [W1 U1]; [|clear H1|done].
  2: { intros b a b' Ha Hb Hx. apply elem_of_range in Ha. split.
       - eapply wired_step; [done|]. apply (xor_layer_key_ok layer_hash b a); [done|apply Hb|done].
       - apply xor_layer_key_undo; [lia|done]. }
  apply (foldM_undo (wired self)) in H2 as [W2 U2]; [|clear H2|done].
  2: { intros b a b' Ha Hb Hx. apply elem_of_range in Ha. split.
       - eapply wired_step; [done|]. eapply first_sublayer_gate_ok; [apply Hb|done].
       - by apply (sublayer_gates_undo self layer layer_hash b a b'). }
  apply (foldM_undo (wired self)) in H3 as [W3 U3]; [|clear H3|done].
  2: { intros b a b' Ha Hb Hx. apply elem_of_range in Ha. split.
       - eapply wired_step; [done|]. eapply second_sublayer_gate_ok; [apply Hb|done].
       - by apply (sublayer_gates_undo self layer layer_hash b a b'). }
  split; [done|]. exists layer_hash. split; [done|].
  rewrite U3. cbn [mbind result_bind]. rewrite U2. cbn [mbind result_bind]. done.
Qed.

Lemma hash_layer_pass_injective self last_hashes layer b1 b2 c :
  schedule_ok last_hashes -> wired self b1 -> wired self b2 ->
  _hash_layer_pass self last_hashes layer b1 = Ok c ->
  _hash_layer_pass self last_hashes layer b2 = Ok c ->
  b1 = b2.
Proof.
  intros Hs W1 W2 H1 H2.
  apply hash_layer_pass_undo in H1 as (_ & k1 & Hk1 & U1); [|done..].
  apply hash_layer_pass_undo in H2 as (_ & k2 & Hk2 & U2); [|done..].
  rewrite Hk1 in Hk2. injection Hk2 as <-. rewrite U1 in U2. by injection U2.
Qed.

Lemma shape_wired self n block :
  size self <= 4 * Z.of_nat n -> shape_ok n block -> wired self block.
Proof. intros Hn [Hb Hl]. split; [done|]. unfold len. lia. Qed.

Lemma hash_layer_pass_onto self last_hashes layer n c :
  schedule_ok last_hashes -> 0 <= layer < len last_hashes ->
  size self <= 4 * Z.of_nat n -> shape_ok n c ->
  exists b, shape_ok n b /\ _hash_layer_pass self last_hashes layer b = Ok c.
Proof.
  intros Hs Hlayer Hn Hc. unfold _hash_layer_pass.
  destruct (getitem_nonneg last_hashes layer Hlayer) as (layer_hash & Hlh & ->).
  cbn [mbind result_bind].
  assert (Hk : block_ok layer_hash) by (by eapply Forall_lookup_1 in Hlh).
  set (l := range (size self `div` 4)).
  assert (Hin : forall a, a ∈ reverse l -> 0 <= a < size self `div` 4).
  { intros a Ha. rewrite elem_of_reverse in Ha. by apply elem_of_range in Ha. }
  assert (Hundo_x : forall b a b', a ∈ reverse l -> wired self b ->
            xor_layer_key layer_hash b a = Ok b' ->
            wired self b' /\ xor_layer_key layer_hash b' a = Ok b).
  { intros b a b' Ha Hb Hx. apply Hin in Ha. split.
    - eapply wired_step; [done|]. apply (xor_layer_key_ok layer_hash b a); [done|apply Hb|done].
    - apply xor_layer_key_undo; [lia|done]. }
  assert (Hundo_1 : forall b a b', a ∈ reverse l -> wired self b ->
            first_sublayer_gate self layer layer_hash b a = Ok b' ->
            wired self b' /\ first_sublayer_gate self layer layer_hash b' a = Ok b).
  { intros b a b' Ha Hb Hx. apply Hin in Ha. split.
    - eapply wired_step; [done|]. eapply first_sublayer_gate_ok; [apply Hb|done].
    - by apply (sublayer_gates_undo self layer layer_hash b a b'). }
  assert (Hundo_2 : forall b a b', a ∈ reverse l -> wired self b ->
            second_sublayer_gate self layer layer_hash b a = Ok b' ->
            wired self b' /\ second_sublayer_gate self layer layer_hash b' a = Ok b).
  { intros b a b' Ha Hb Hx. apply Hin in Ha. split.
    - eapply wired_step; [done|]. eapply second_sublayer_gate_ok; [apply Hb|done].
    - by apply (sublayer_gates_undo self layer layer_hash b a b'). }
  destruct (foldM_shape_total n (second_sublayer_gate self layer layer_hash) (reverse l) c)
    as (b2 & H2 & S2); [|done|].
  { intros b a Ha Hb. apply Hin in Ha.
    destruct (sublayer_gates_total self layer layer_hash b a) as [_ [b' Hx]]; [lia|lia|done|].
    exists b'. split; [done|]. by eapply second_sublayer_gate_ok. }
  destruct (foldM_shape_total n (first_sublayer_gate self layer layer_hash) (reverse l) b2)
    as (b1 & H1 & S1); [|done|].
  { intros b a Ha Hb. apply Hin in Ha.
    destruct (sublayer_gates_total self layer layer_hash b a) as [[b' Hx] _]; [lia|lia|done|].
    exists b'. split; [done|]. by eapply first_sublayer_gate_ok. }
  destruct (foldM_shape_total n (xor_layer_key layer_hash) (reverse l) b1)
    as (b & H0 & S0); [|done|].
  { intros b a Ha Hb. apply Hin in Ha.
    destruct (xor_layer_key_total layer_hash b a) as [b' Hx]; [lia|].
    exists b'. split; [done|]. by apply (xor_layer_key_ok layer_hash b a). }
  exists b. split; [done|].
  apply (foldM_undo (wired self)) in H0 as [_ H0]; [|done|by eapply shape_wired].
  apply (foldM_undo (wired self)) in H1 as [_ H1]; [|done|by eapply shape_wired].
  apply (foldM_undo (wired self)) in H2 as [_ H2]; [|done|by eapply shape_wired].
  rewrite reverse_involutive in H0, H1, H2.
  rewrite H0. cbn [mbind result_bind]. rewrite H1. cbn [mbind result_bind].
  rewrite H2. reflexivity.
Qed.

Lemma lor_nibbles x y : nibble x -> nibble y -> Z.lor (Z.shiftl x 4) y = 16 * x + y.
Proof. intros Hx Hy. nibble_cases x; nibble_cases y; reflexivity. Qed.

Lemma pack_byte_spec hm pre rest (i : nat) :
  block_ok hm -> length pre = i ->
  pack_byte hm (pre ++ 0 :: rest) (Z.of_nat i) = Ok (pre ++ digest_byte hm i :: rest).
Proof.
  intros Hhm Hi. unfold pack_byte, digest_byte.
  destruct (Z.ltb_spec (Z.of_nat i * 2) (len hm)) as [H0|H0].
  - destruct (getitem_nonneg hm (Z.of_nat i * 2)) as (x & Hx & ->); [lia|].
    replace (Z.to_nat (Z.of_nat i * 2)) with (2 * i)%nat in Hx by lia. rewrite Hx.
    assert (nibble x) by (by eapply Forall_lookup_1 in Hx).
    cbn [mbind result_bind].
    assert (Hset : forall v, setitem (pre ++ 0 :: rest) (Z.of_nat i) v = Ok (pre ++ v :: rest)).
    { intros v. rewrite setitem_nonneg.
      - rewrite Nat2Z.id, <- Hi. f_equal.
        by rewrite (insert_app_r_alt pre _ (length pre)), Nat.sub_diag by lia.
      - unfold len. rewrite length_app. simpl. lia. }
    destruct (Z.ltb_spec (Z.of_nat i * 2 + 1) (len hm)) as [H1|H1].
    + destruct (getitem_nonneg hm (Z.of_nat i * 2 + 1)) as (y & Hy & ->); [lia|].
      replace (Z.to_nat (Z.of_nat i * 2 + 1)) with (2 * i + 1)%nat in Hy by lia. rewrite Hy.
      assert (nibble y) by (by eapply Forall_lookup_1 in Hy).
      cbn [mbind result_bind]. rewrite Hset. simpl. by rewrite lor_nibbles.
    + cbn [mbind result_bind]. rewrite Hset.
      rewrite (lookup_ge_None_2 hm (2 * i + 1)) by (unfold len in H1; lia). simpl.
      rewrite Z.shiftl_mul_pow2 by lia. do 3 f_equal. lia.
  - rewrite !lookup_ge_None_2 by (unfold len in H0; lia). done.
Qed.

Lemma pack_loop hm m : forall k pre,
  block_ok hm -> length pre = k ->
  foldM (pack_byte hm) (Z.of_nat <$> seq k m) (pre ++ replicate m 0)
  = Ok (pre ++ (digest_byte hm <$> seq k m)).
Proof.
  induction m as [|m IH]; intros k pre Hhm Hk; [done|].
  cbn [seq fmap list_fmap foldM replicate].
  rewrite pack_byte_spec by done. cbn [mbind result_bind].
  rewrite (cons_middle (digest_byte hm k) pre (replicate m 0)), app_assoc.
  rewrite (IH (S k) (pre ++ [digest_byte hm k])); [|done|rewrite length_app; simpl; lia].
  by rewrite <- app_assoc.
Qed.

Lemma digest_byte_octet hm i : block_ok hm -> octet (digest_byte hm i).
Proof.
  intros Hhm. unfold digest_byte, octet.
  assert (Hn : forall j, nibble (default 0 (hm !! j))).
  { intros j. destruct (hm !! j) as [x|] eqn:Hx; simpl.
    - by eapply Forall_lookup_1 in Hx.
    - unfold nibble. lia. }
  pose proof (Hn (2 * i)%nat). pose proof (Hn (2 * i + 1)%nat). unfold nibble in *. lia.
Qed.

Lemma pack_spec self hm :
  0 <= size self -> block_ok hm ->
  _pack self hm = Ok (digest_byte hm <$> seq 0 (Z.to_nat (size self `div` 8))).
Proof.
  intros Hs Hhm. unfold _pack, range, repeat.
  pose proof (pack_loop hm (Z.to_nat (size self `div` 8)) 0%nat [] Hhm eq_refl) as Hloop.
  cbn [app] in Hloop. rewrite Hloop. cbn [mbind result_bind].
  apply struct_pack_B_ok.
  - lia.
  - unfold len. rewrite length_fmap, length_seq. lia.
  - apply Forall_fmap, Forall_forall. intros i _. by apply digest_byte_octet.
Qed.

(** ** Packing undoes unpacking *)

Lemma digest_byte_nibbles l i b :
  Forall octet l -> l !! i = Some b -> digest_byte (l ≫= Spec.nibbles) i = b.
Proof.
  revert i. induction l as [|a l IH]; intros i Hl Hb; [done|].
  change ((a :: l) ≫= Spec.nibbles) with (Spec.nibbles a ++ (l ≫= Spec.nibbles)).
  inversion Hl as [|? ? Ha Hl']; subst. destruct i as [|i].
  - injection Hb as ->. unfold digest_byte, Spec.nibbles. simpl. unfold octet in Ha. lia.
  - simpl in Hb. rewrite <- (IH i Hl' Hb). unfold digest_byte, Spec.nibbles.
    replace (2 * S i)%nat with (S (S (2 * i))) by lia.
    replace (S (S (2 * i)) + 1)%nat with (S (S (2 * i + 1))) by lia. done.
Qed.

Lemma digest_byte_beyond hm i : (length hm <= 2 * i)%nat -> digest_byte hm i = 0.
Proof. intros H. unfold digest_byte. by rewrite !lookup_ge_None_2 by lia. Qed.

Lemma pack_nibbles l n :
  Forall octet l ->
  digest_byte (l ≫= Spec.nibbles) <$> seq 0 n = take n (l ++ replicate (n - length l) 0).
Proof.
  intros Hl. apply list_eq. intros i.
  rewrite list_lookup_fmap. destruct (decide (i < n)%nat) as [Hi|Hi].
  - rewrite lookup_seq_lt by done. rewrite lookup_take_lt by done. simpl.
    destruct (l !! i) as [b|] eqn:Hb.
    + rewrite (lookup_app_l_Some _ _ _ _ Hb). f_equal. by apply digest_byte_nibbles.
    + apply lookup_ge_None_1 in Hb. rewrite lookup_app_r by done.
      rewrite lookup_replicate_2 by lia. f_equal. apply digest_byte_beyond.
      rewrite length_bind_nibbles. lia.
  - rewrite lookup_seq_ge by lia. rewrite lookup_take_ge by lia. done.
Qed.

Lemma chunk32_octets bytes : Forall octet bytes -> Forall octet (Spec.chunk32 bytes).
Proof.
  intros H. unfold Spec.chunk32. destruct (_ <? _)%nat.
  - by apply Forall_take.
  - apply Forall_app. split; [done|]. apply Forall_replicate. unfold octet. lia.
Qed.

Lemma lor_octet a b : octet a -> octet b -> octet (Z.lor a b).
Proof.
  intros Ha Hb. unfold octet in *.
  assert (0 <= Z.lor a b) by (apply Z.lor_nonneg; lia).
  destruct (Z.eq_dec (Z.lor a b) 0) as [->|Hne]; [lia|].
  assert (Z.lor a b < 2 ^ 8); [|lia].
  apply Z.log2_lt_pow2; [lia|]. rewrite Z.log2_lor by lia.
  apply Z.max_lub_lt.
  - destruct (Z.eq_dec a 0) as [->|]; [done|]. apply Z.log2_lt_pow2; lia.
  - destruct (Z.eq_dec b 0) as [->|]; [done|]. apply Z.log2_lt_pow2; lia.
Qed.

Lemma continuation_octet c : octet (Z.lor 0x80 (Z.land c 0x3F)).
Proof.
  apply lor_octet; [unfold octet; lia|].
  change 0x3F with (Z.ones 6). rewrite Z.land_ones by lia.
  unfold octet. pose proof (Z.mod_pos_bound c (2 ^ 6)). lia.
Qed.

Lemma encode_code_point_octets c bs : encode_code_point c = Ok bs -> Forall octet bs.
Proof.
  unfold encode_code_point.
  destruct (Z.ltb_spec c 0); [done|]. destruct (Z.ltb_spec 0x10FFFF c); [done|]. simpl.
  destruct (Z.ltb_spec c 0x80).
  { intros [= <-]. repeat constructor; lia. }
  destruct (Z.ltb_spec c 0x800).
  { intros [= <-]. repeat first [apply Forall_nil_2 | apply Forall_cons_2];
      try apply continuation_octet.
    apply lor_octet; [unfold octet; lia|]. rewrite Z.shiftr_div_pow2 by lia.
    unfold octet. change (2 ^ 6) with 64. lia. }
  destruct (_ && _); [done|].
  destruct (Z.ltb_spec c 0x10000).
  { intros [= <-]. repeat first [apply Forall_nil_2 | apply Forall_cons_2];
      try apply continuation_octet.
    apply lor_octet; [unfold octet; lia|]. rewrite Z.shiftr_div_pow2 by lia.
    unfold octet. change (2 ^ 12) with 4096. lia. }
  intros [= <-]. repeat first [apply Forall_nil_2 | apply Forall_cons_2];
    try apply continuation_octet.
  apply lor_octet; [unfold octet; lia|]. rewrite Z.shiftr_div_pow2 by lia.
  unfold octet. change (2 ^ 18) with 262144. lia.
Qed.

Lemma encode_utf8_octets s bytes : encode_utf8 s = Ok bytes -> Forall octet bytes.
Proof.
  revert bytes. induction s as [|c s IH]; intros bytes; simpl.
  - intros [= <-]. constructor.
  - intros H. apply bind_Ok in H as (bs & Hbs & H). apply bind_Ok in H as (rest & Hrest & H).
    injection H as <-. apply Forall_app. split; [by eapply encode_code_point_octets|by apply IH].
Qed.

Lemma bind_nibbles_inj l1 l2 :
  Forall octet l1 -> Forall octet l2 ->
  l1 ≫= Spec.nibbles = l2 ≫= Spec.nibbles -> l1 = l2.
Proof.
  intros H1 H2 Heq.
  assert (Hlen : length l1 = length l2).
  { apply (f_equal length) in Heq. rewrite !length_bind_nibbles in Heq. lia. }
  pose proof (pack_nibbles l1 (length l1) H1) as E1.
  pose proof (pack_nibbles l2 (length l1) H2) as E2.
  rewrite Nat.sub_diag in E1. simpl in E1. rewrite app_nil_r, take_ge in E1 by lia.
  rewrite Hlen, Nat.sub_diag in E2. simpl in E2. rewrite app_nil_r, take_ge in E2 by lia.
  rewrite Hlen, Heq in E1. congruence.
Qed.

Lemma unpack_injective m1 m2 bytes1 bytes2 :
  encode_utf8 m1 = Ok bytes1 -> encode_utf8 m2 = Ok bytes2 ->
  _unpack m1 = _unpack m2 -> Spec.chunk32 bytes1 = Spec.chunk32 bytes2.
Proof.
  intros E1 E2. rewrite (unpack_refines m1 bytes1 E1), (unpack_refines m2 bytes2 E2).
  intros [= H]. apply bind_nibbles_inj; [..|done];
    by eapply chunk32_octets, encode_utf8_octets.
Qed.

Lemma digest_bytes_inj n b1 b2 :
  shape_ok (2 * n) b1 -> shape_ok (2 * n) b2 ->
  digest_byte b1 <$> seq 0 n = digest_byte b2 <$> seq 0 n -> b1 = b2.
Proof.
  intros [O1 L1] [O2 L2] Heq. apply list_eq_same_length with (2 * n)%nat; [done..|].
  intros j x y Hj Hx Hy.
  assert (Hcase : exists i, (i < n)%nat /\ (j = 2 * i \/ j = 2 * i + 1)%nat).
  { exists (j `div` 2)%nat. pose proof (Nat.div_mod_eq j 2).
    pose proof (Nat.mod_upper_bound j 2). lia. }
  destruct Hcase as (i & Hi & Hc).
  apply (f_equal (fun l => l !! i)) in Heq.
  rewrite !list_lookup_fmap, lookup_seq_lt in Heq by done.
  change (0 + i)%nat with i in Heq. injection Heq as Heq. unfold digest_byte in Heq.
  destruct (lookup_lt_is_Some_2 b1 (2 * i)) as [x0 Hx0]; [lia|].
  destruct (lookup_lt_is_Some_2 b1 (2 * i + 1)) as [x1 Hx1]; [lia|].
  destruct (lookup_lt_is_Some_2 b2 (2 * i)) as [y0 Hy0]; [lia|].
  destruct (lookup_lt_is_Some_2 b2 (2 * i + 1)) as [y1 Hy1]; [lia|].
  rewrite Hx0, Hx1, Hy0, Hy1 in Heq. cbn [default from_option id] in Heq.
  pose proof (Forall_lookup_1 _ _ _ _ O1 Hx0). pose proof (Forall_lookup_1 _ _ _ _ O1 Hx1).
  pose proof (Forall_lookup_1 _ _ _ _ O2 Hy0). pose proof (Forall_lookup_1 _ _ _ _ O2 Hy1).
  unfold nibble in *.
  destruct Hc as [Hc|Hc]; rewrite Hc in Hx, Hy; simplify_eq; lia.
Qed.

(** ** All the layers, and a whole chunk *)

Lemma layers_injective self last_hashes d b1 b2 c n :
  schedule_ok last_hashes -> size self <= 4 * Z.of_nat n ->
  shape_ok n b1 -> shape_ok n b2 ->
  foldM (fun block layer => _hash_layer_pass self last_hashes layer block) (range d) b1 = Ok c ->
  foldM (fun block layer => _hash_layer_pass self last_hashes layer block) (range d) b2 = Ok c ->
  b1 = b2.
Proof.
  intros Hs Hn. apply (foldM_injective (shape_ok n)).
  - intros b a b' _ Hb Hp. by eapply hash_layer_pass_ok.
  - intros x1 x2 a y _ S1 S2. apply hash_layer_pass_injective; [done|by eapply shape_wired..].
Qed.

Lemma foldM_onto {A B} (P : B -> Prop) (f : B -> A -> result B) l :
  (forall a c, a ∈ l -> P c -> exists b, P b /\ f b a = Ok c) ->
  forall c, P c -> exists b, P b /\ foldM f l b = Ok c.
Proof.
  induction l as [|a l IH]; intros Hf c Hc.
  - by exists c.
  - destruct (IH (fun a c Ha => Hf a c (list_elem_of_further _ _ _ Ha)) c Hc) as (b1 & P1 & H1).
    destruct (Hf a b1) as (b & Pb & Hb); [left|done|].
    exists b. split; [done|]. simpl. by rewrite Hb.
Qed.

Lemma layers_onto self last_hashes d c n :
  schedule_ok last_hashes -> d <= len last_hashes -> size self <= 4 * Z.of_nat n ->
  shape_ok n c ->
  exists b, shape_ok n b /\
    foldM (fun block layer => _hash_layer_pass self last_hashes layer block) (range d) b = Ok c.
Proof.
  intros Hs Hd Hn. apply (foldM_onto (shape_ok n)).
  intros a c0 Ha Hc. apply elem_of_range in Ha.
  apply hash_layer_pass_onto; [done|lia|done..].
Qed.

Lemma mirror256_process_injective cls m1 m2 self hm :
  schedule_ok (self_last_hashes cls self) -> size self <= 256 ->
  _mirror256_process cls m1 self = Ok hm -> _mirror256_process cls m2 self = Ok hm ->
  _unpack m1 = _unpack m2.
Proof.
  intros Hs Hsz H1 H2. unfold _mirror256_process in H1, H2.
  apply bind_Ok in H1 as (b1 & U1 & H1). apply bind_Ok in H2 as (b2 & U2 & H2).
  rewrite U1, U2. f_equal.
  apply (layers_injective self (self_last_hashes cls self) (depth self) b1 b2 hm 64);
    [done|lia|by eapply unpack_ok..|done|done].
Qed.

(** ** What [update] leaves pending *)

Lemma chunk_loop_buffer cls s mid :
  process_complete_chunks cls s = (mid, Ok ()) ->
  _buffer mid = drop (32 * (length (_buffer s) `div` 32)) (_buffer s).
Proof.
  remember (length (_buffer s)) as n eqn:Hn. revert s Hn.
  induction n as [n IH] using lt_wf_ind. intros s Hn.
  destruct (Z.lt_ge_cases (len (_buffer s)) 32) as [Hlt|Hge].
  - rewrite chunk_loop_done by done. intros [= <-].
    unfold len in Hlt. rewrite Nat.div_small by lia. done.
  - rewrite chunk_loop_step by done.
    destruct (update_chunk cls s) as [s' [[]|e]] eqn:Hc; [|done]. intros Hl.
    apply update_chunk_buffer in Hc. unfold len in Hge.
    assert (Hlt : (length (_buffer s') < n)%nat) by (rewrite Hc, length_drop; lia).
    rewrite (IH (length (_buffer s')) Hlt s' eq_refl Hl).
    rewrite Hc, drop_drop, length_drop. f_equal. rewrite <- Hn.
    replace n with (n - 32 + 1 * 32)%nat at 2 by lia.
    rewrite Nat.div_add by lia. lia.
Qed.

Lemma code_point_ok_dec c : code_point_ok c \/ ~ code_point_ok c.
Proof. unfold code_point_ok. lia. Qed.

Lemma text_ok_or_unencodable s : text_ok s \/ unencodable s.
Proof.
  induction s as [|c s [IH|IH]].
  - left. constructor.
  - destruct (code_point_ok_dec c); [left; by constructor|right; by left].
  - right. by right.
Qed.

Lemma encode_code_point_bad c : ~ code_point_ok c -> encode_code_point c = Raise UnicodeEncodeError.
Proof.
  intros Hc. unfold encode_code_point, code_point_ok in *.
  destruct (Z.ltb_spec c 0); [done|]. destruct (Z.ltb_spec 0x10FFFF c); [done|]. simpl.
  destruct (Z.ltb_spec c 0x80); [lia|]. destruct (Z.ltb_spec c 0x800); [lia|].
  destruct (Z.leb_spec 0xD800 c), (Z.leb_spec c 0xDFFF); simpl; (done || lia).
Qed.

Lemma encode_code_point_error c e : encode_code_point c = Raise e -> e = UnicodeEncodeError.
Proof.
  unfold encode_code_point. repeat (destruct (_ : bool)); congruence.
Qed.

Lemma encode_utf8_unencodable s : unencodable s -> encode_utf8 s = Raise UnicodeEncodeError.
Proof.
  induction 1 as [c s Hc|c s _ IH]; simpl.
  - by rewrite encode_code_point_bad.
  - destruct (encode_code_point c) as [bs|e] eqn:He; simpl.
    + by rewrite IH.
    + by rewrite (encode_code_point_error c e He).
Qed.

Lemma mirror256_process_unencodable cls m self :
  unencodable m -> _mirror256_process cls m self = Raise UnicodeEncodeError.
Proof.
  intros Hm. unfold _mirror256_process, _unpack. by rewrite encode_utf8_unencodable.
Qed.

Lemma unencodable_not_text_ok s : unencodable s -> text_ok s -> False.
Proof.
  intros He Ht. apply Exists_exists in He as (c & Hin & Hc).
  eapply Forall_forall in Ht; done.
Qed.

(** The loop stops at the first chunk it cannot encode and leaves it in
    the buffer. *)
Lemma chunk_loop_unencodable cls s :
  state_ok cls s -> unencodable (_buffer s) ->
  exists s' r,
    process_complete_chunks cls s = (s', r) /\
    state_ok cls s' /\ unencodable (_buffer s') /\
    _hashed s' = _hashed s /\ _counter s' = _counter s /\
    (r = Raise UnicodeEncodeError \/ r = Ok () /\ len (_buffer s') < 32).
Proof.
  remember (length (_buffer s)) as n eqn:Hn. revert s Hn.
  induction n as [n IH] using lt_wf_ind. intros s Hn Hok Hbad.
  destruct (Z.lt_ge_cases (len (_buffer s)) 32) as [Hlt|Hge].
  - exists s, (Ok ()). rewrite chunk_loop_done by done. do 5 (split; [done|]). by right.
  - rewrite chunk_loop_step by done. rewrite update_chunk_unfold.
    rewrite slice_prefix, slice_suffix by lia. change (Z.to_nat 32) with 32%nat.
    destruct (text_ok_or_unencodable (take 32 (_buffer s))) as [Ht|Hu].
    + destruct (mirror256_process_total cls (take 32 (_buffer s)) s) as (hm & Hp & Hshape);
        [done..|].
      rewrite Hp.
      set (s1 := set_buffer _ _).
      assert (Hok1 : state_ok cls s1).
      { apply (update_chunk_state_ok cls s s1 (Ok ())); [done|].
        rewrite update_chunk_unfold, slice_prefix, slice_suffix by lia.
        change (Z.to_nat 32) with 32%nat. by rewrite Hp. }
      destruct (IH (length (_buffer s1))) with (s := s1)
        as (s' & r & Hl & Hok' & Hb' & Hh & Hc & Hr).
      * subst s1. simpl. rewrite length_drop. unfold len in Hge. lia.
      * done.
      * done.
      * subst s1. simpl. rewrite <- (take_drop 32 (_buffer s)) in Hbad.
        apply Exists_app in Hbad as [Hbad|Hbad]; [|done].
        by destruct (unencodable_not_text_ok _ Hbad Ht).
      * exists s', r. done.
    + rewrite mirror256_process_unencodable by done.
      exists s, (Raise UnicodeEncodeError). do 5 (split; [done|]). by left.
Qed.

Lemma update_unencodable cls s self :
  state_ok cls self -> s <> [] -> unencodable (_buffer self ++ s) ->
  exists self',
    update cls (PyStr s) self = (self', Raise UnicodeEncodeError) /\
    state_ok cls self' /\ unencodable (_buffer self') /\
    _hashed self' = _hashed self /\ _counter self' = _counter self + len s.
Proof.
  intros Hok Hs Hbad. rewrite update_str_unfold by done.
  destruct (chunk_loop_unencodable cls
              (set_counter (_counter self + len s) (set_buffer (_buffer self ++ s) self)))
    as (s' & r & Hl & Hok' & Hb' & Hh & Hc & Hr); [by apply state_ok_buffered|done|].
  rewrite Hl. destruct Hr as [->|[-> Hlt]].
  - by exists s'.
  - rewrite process_remaining_unfold.
    assert (Hne : truthy (PyStr (_buffer s')) = true).
    { destruct (_buffer s'); [inversion Hb'|done]. }
    rewrite Hne. simpl orb. cbv iota.
    rewrite mirror256_process_unencodable.
    + by exists s'.
    + apply Exists_app. by left.
Qed.

(** ** [update] on text, in full *)

Lemma update_text_spec cls s self :
  state_ok cls self -> text_ok (_buffer self) -> text_ok s -> s <> [] ->
  exists self',
    update cls (PyStr s) self = (self', Ok ()) /\
    state_ok cls self' /\ text_ok (_buffer self') /\
    _buffer self' = drop (32 * (length (_buffer self ++ s) `div` 32)) (_buffer self ++ s) /\
    len (_buffer self') = len (_buffer self ++ s) `mod` 32 /\
    _counter self' = _counter self + len s /\
    (_buffer self' = [] -> _hashed self' = _hashed self) /\
    (_buffer self' <> [] ->
     _mirror256_process cls (_buffer self' ++ repeat 65 (32 - len (_buffer self'))) self'
     = Ok (_hashed self')).
Proof.
  intros Hok Hb Hs Hne.
  destruct (update_str_spec cls s self) as (mid & Hl & Hokm & Htm & Hlen & Hh & Hc & H);
    try done.
  pose proof (chunk_loop_buffer _ _ _ Hl) as Hbuf. simpl in Hbuf.
  destruct H as [[Hnil ->]|(Hnn & hm & Hp & Hshape & ->)].
  - exists mid. do 6 (split; [done|]). split; [done|]. intros Hx. by destruct Hx.
  - exists (set_hashed hm mid). split; [done|]. split.
    { destruct Hokm as (? & ? & ? & ? & ?), Hshape. repeat split; done. }
    do 4 (split; [done|]). split; [intros Hx; by destruct Hnn|]. intros _. simpl.
    by rewrite (process_same_keys cls _ mid (set_hashed hm mid)).
Qed.

Lemma same_but_hashed_trans a b c :
  a = set_hashed (_hashed a) b -> b = set_hashed (_hashed b) c -> a = set_hashed (_hashed a) c.
Proof. intros Ha Hb. rewrite Ha at 1. rewrite Hb. by destruct c. Qed.

(** However a text is cut into pieces, feeding the pieces one by one leaves
    the hasher as one call with the whole text does, up to the digest
    block; the digest blocks agree too unless the whole ends on a chunk
    boundary. *)
Lemma updates_pieces cls ps : forall self,
  state_ok cls self -> text_ok (_buffer self) -> Forall text_ok ps ->
  let two := updates cls (PyStr <$> ps) self in
  let one := fst (update cls (PyStr (concat ps)) self) in
  two = set_hashed (_hashed two) one /\
  (len (_buffer self ++ concat ps) `mod` 32 <> 0 -> two = one).
Proof.
  induction ps as [|A rest IH]; intros self Hok Hb Hps; cbn zeta.
  - simpl. split; [by destruct self|done].
  - inversion Hps as [|? ? HA Hrest]; subst.
    change (updates cls (PyStr <$> A :: rest) self)
      with (updates cls (PyStr <$> rest) (fst (update cls (PyStr A) self))).
    change (concat (A :: rest)) with (A ++ concat rest).
    destruct (decide (A = [])) as [->|HAne].
    { rewrite (update_falsy cls (PyStr []) self) by done. cbn [fst].
      change ([] ++ concat rest) with (concat rest).
      exact (IH self Hok Hb Hrest). }
    destruct (update_text_spec cls A self) as (s1 & Hu1 & Hok1 & Ht1 & _ & Hlen1 & _); try done.
    rewrite Hu1. cbn [fst].
    destruct (IH s1 Hok1 Ht1 Hrest) as [Hsame Heq]. cbn zeta in Hsame, Heq.
    assert (Hmod : len (_buffer s1 ++ concat rest) `mod` 32
                   = len (_buffer self ++ A ++ concat rest) `mod` 32).
    { rewrite !len_app in *. rewrite Hlen1. lia. }
    destruct (decide (concat rest = [])) as [Hnil|Hcne].
    + rewrite Hnil in *. rewrite app_nil_r. rewrite Hu1. cbn [fst].
      rewrite (update_falsy cls (PyStr []) s1) in Hsame, Heq by done. cbn [fst] in Hsame, Heq.
      split; [done|]. intros Hm. apply Heq. rewrite Hmod, (app_nil_r A). exact Hm.
    + destruct (update_incremental cls self A (concat rest))
        as (s1' & two & one & Hu1' & Hu2 & Hu12 & Hsame2 & Heq2 & _); try done.
      { by apply Forall_concat. }
      rewrite Hu1 in Hu1'. injection Hu1' as <-.
      rewrite Hu2 in Hsame, Heq. cbn [fst] in Hsame, Heq. rewrite Hu12. cbn [fst].
      split.
      * by eapply same_but_hashed_trans.
      * intros Hm. rewrite Heq by (by rewrite Hmod). by apply Heq2.
Qed.

(** ** The class attribute after a constructor *)

Lemma init_standard_state_len fuel self cls cls' r :
  _init_standard_state fuel self cls = (cls', r) ->
  len cls <= depth self -> len cls' <= depth self.
Proof.
  revert cls. induction fuel as [|fuel IH]; intros cls; simpl.
  - by intros [= <- <-].
  - destruct (Z.ltb_spec (len cls) (depth self)) as [Hlt|Hge]; [|by intros [= <- <-]].
    destruct (standard_layer self cls) as [layer|e]; [|by intros [= <- <-]].
    intros H _. apply IH in H; [done|]. rewrite len_app. unfold len in *. simpl. lia.
Qed.

Lemma init_random_state_len randint fuel drawn self cls cls' r :
  _init_random_state randint fuel drawn self cls = (cls', r) ->
  len cls <= depth self -> len cls' <= depth self.
Proof.
  revert drawn cls. induction fuel as [|fuel IH]; intros drawn cls; simpl.
  - by intros [= <- <-].
  - destruct (Z.ltb_spec (len cls) (depth self)) as [Hlt|Hge]; [|by intros [= <- <-]].
    intros H _. apply IH in H; [done|]. rewrite len_app. unfold len in *. simpl. lia.
Qed.

Lemma init_last_hashes_len state self cls :
  exists extra,
    init_last_hashes state self cls = (cls ++ extra, Ok ()) /\
    len (cls ++ extra) = Z.max (len cls) (depth self) /\
    (depth self <= len cls -> extra = []).
Proof.
  destruct (init_last_hashes_spec state self cls) as (extra & Hi & _ & Hd).
  exists extra. split; [done|].
  unfold init_last_hashes in Hi.
  destruct (Z.ltb_spec (len cls) (depth self)) as [Hlt|Hge].
  - split; [|lia]. destruct state as [|randint].
    + apply init_standard_state_len in Hi; lia.
    + apply init_random_state_len in Hi; lia.
  - injection Hi as Hi. rewrite <- (app_nil_r cls) in Hi at 1.
    apply app_inv_head in Hi. subst extra. rewrite app_nil_r. split; [lia|done].
Qed.

Lemma init_unfold cls m d sz state :
  exists extra,
    init_last_hashes state (fresh d sz) cls = (cls ++ extra, Ok ()) /\
    len (cls ++ extra) = Z.max (len cls) (or_default d DEFAULT_DEPTH) /\
    (or_default d DEFAULT_DEPTH <= len cls -> extra = []) /\
    __init__ cls m d sz state
    = (cls ++ extra,
       match m with
       | PyNone => Ok (fresh d sz)
       | PyStr s =>
           match update (cls ++ extra) (PyStr s) (fresh d sz) with
           | (self, Ok _) => Ok self
           | (_, Raise e) => Raise e
           end
       | _ => Raise TypeError
       end).
Proof.
  destruct (init_last_hashes_len state (fresh d sz) cls) as (extra & Hi & Hl & Hn).
  exists extra. do 3 (split; [done|]).
  unfold __init__. rewrite Hi. destruct m as [| | |s| |]; try done.
  simpl. by destruct (update _ _ _) as [? [[]|?]].
Qed.

Lemma init_fresh_state_ok cls cls' d sz state :
  randint_ok state -> schedule_ok cls ->
  init_last_hashes state (fresh d sz) cls = (cls', Ok ()) ->
  schedule_ok cls' /\ state_ok cls' (fresh d sz).
Proof.
  intros Hr Hc Hi.
  assert (H0 : __init__ cls PyNone d sz state = (cls', Ok (fresh d sz))).
  { unfold __init__. by rewrite Hi. }
  apply init_spec in H0 as [(extra & -> & He) H0]; [|done..].
  split; [by apply Forall_app|]. by apply H0.
Qed.

(** ** The digest block is empty or a whole block *)

Lemma update_hashed_ok cls m self self' r :
  state_ok cls self -> hashed_ok self -> update cls m self = (self', r) -> hashed_ok self'.
Proof.
  intros Hok Hh. destruct (truthy m) eqn:Ht.
  - destruct (is_str m) eqn:Hs.
    + destruct m as [| | |s| |]; try done.
      assert (s <> []) by (by destruct s).
      rewrite update_str_unfold by done.
      destruct (process_complete_chunks _ _) as [self1 r1] eqn:Hl.
      assert (H1 : state_ok cls self1 /\ hashed_ok self1).
      { revert Hl. unfold process_complete_chunks.
        apply (while_preserves (fun s => state_ok cls s /\ hashed_ok s)).
        - intros s0 s' r' [Hok0 Hh0] _ Hc. split; [by eapply update_chunk_state_ok|].
          rewrite update_chunk_unfold in Hc.
          destruct (_mirror256_process _ _ _); by injection Hc as <- _.
        - split; [by apply state_ok_buffered|done]. }
      destruct H1 as [Hok1 Hh1].
      destruct r1 as [[]|e]; [|by intros [= <- <-]].
      rewrite process_remaining_unfold. destruct (_ || _); [|by intros [= <- <-]].
      destruct (_mirror256_process _ _ _) as [hm|e] eqn:Hp; intros [= <- <-]; [|done].
      right. simpl. eapply mirror256_process_ok; [|done]. apply Hok1.
    + rewrite update_not_str by done. by intros [= <- <-].
  - rewrite update_falsy by done. by intros [= <- <-].
Qed.

Lemma reachable_hashed_ok cls self : reachable cls self -> hashed_ok self.
Proof.
  induction 1 as [cls m depth size state cls' self Hc Hr Hi
                 |cls self m self' r Hreach IH Hu
                 |cls self m depth size state cls' r _ IH Hr Hi]; [| |done].
  - destruct (init_unfold cls m depth size state) as (extra & H0 & _ & _ & Hu).
    rewrite Hu in Hi. injection Hi as <- Hi.
    apply init_fresh_state_ok in H0 as [_ Hok0]; [|done|by apply class_reachable_ok].
    destruct m as [| | |s| |]; try done.
    + injection Hi as <-. by left.
    + destruct (update _ _ _) as [s1 [[]|e]] eqn:Hup; [|done]. injection Hi as <-.
      eapply update_hashed_ok; [done| |done]. by left.
  - eapply update_hashed_ok; [by apply reachable_state_ok|done..].
Qed.

(** ** [cubic_root_array] reads eight hexadecimal digits *)

Lemma of_digits_bound ds : block_ok ds -> 0 <= of_digits ds < 16 ^ len ds.
Proof.
  induction 1 as [|d ds Hd _ IH].
  - unfold of_digits, len. simpl. lia.
  - rewrite of_digits_cons.
    replace (len (d :: ds)) with (Z.succ (len ds)) by (unfold len; simpl; lia).
    rewrite Z.pow_succ_r by apply len_nonneg. unfold nibble in Hd. nia.
Qed.

Lemma of_digits_app l1 l2 : of_digits (l1 ++ l2) = of_digits l1 * 16 ^ len l2 + of_digits l2.
Proof.
  induction l1 as [|d l1 IH].
  - unfold of_digits at 2. simpl. lia.
  - change ((d :: l1) ++ l2) with (d :: (l1 ++ l2)).
    rewrite !of_digits_cons, IH, len_app, Z.pow_add_r by apply len_nonneg. lia.
Qed.

Lemma digit_of_digits ds j d :
  block_ok ds -> ds !! j = Some d ->
  d = (of_digits ds `div` 16 ^ (len ds - 1 - Z.of_nat j)) `mod` 16.
Proof.
  intros Hds Hj. apply list_elem_of_split_length in Hj as (l1 & l2 & -> & ->).
  apply Forall_app in Hds as [H1 H2]. inversion H2 as [|? ? Hd H2']; subst.
  rewrite of_digits_app, of_digits_cons.
  replace (len (l1 ++ d :: l2) - 1 - Z.of_nat (length l1)) with (len l2)
    by (rewrite len_app; unfold len; simpl; lia).
  replace (len (d :: l2)) with (Z.succ (len l2)) by (unfold len; simpl; lia).
  rewrite Z.pow_succ_r by apply len_nonneg.
  pose proof (of_digits_bound l2 H2') as Hb. pose proof (of_digits_bound l1 H1) as Hb1.
  set (p := 16 ^ len l2) in *. assert (0 < p) by (apply Z.pow_pos_nonneg; [lia|apply len_nonneg]).
  replace (of_digits l1 * (16 * p) + (d * p + of_digits l2))
    with (of_digits l2 + (of_digits l1 * 16 + d) * p) by lia.
  rewrite Z.div_add by lia. rewrite Z.div_small by lia.
  unfold nibble in Hd. rewrite Z.add_0_l, Z.add_comm, Z.mod_add by lia.
  rewrite Z.mod_small; lia.
Qed.

Lemma hex_digits_ok fuel n acc : 0 <= n -> block_ok acc -> block_ok (hex_digits fuel n acc).
Proof.
  revert n acc. induction fuel as [|fuel IH]; intros n acc Hn Hacc; simpl; [done|].
  destruct (Z.ltb_spec n 16).
  - constructor; [unfold nibble; lia|done].
  - apply IH; [lia|]. constructor; [unfold nibble; lia|done].
Qed.

Lemma zero_padding_spec (h : list Z) fuel :
  block_ok h ->
  let h' := while_pure fuel (fun h => len h <? 10) (fun h => 0 :: h) h in
  block_ok h' /\ of_digits h' = of_digits h.
Proof.
  revert h. induction fuel as [|fuel IH]; intros h Hh; simpl; [done|].
  destruct (len h <? 10); [|done].
  destruct (IH (0 :: h)) as [Hok Hv]; [constructor; [unfold nibble; lia|done]|].
  split; [done|]. rewrite Hv, of_digits_cons. lia.
Qed.

Lemma copy_eight (d0 d1 d2 d3 d4 d5 d6 d7 : Z) :
  foldM (fun ret i =>
           if i <? len [d0; d1; d2; d3; d4; d5; d6; d7]
           then d ← getitem [d0; d1; d2; d3; d4; d5; d6; d7] i; setitem ret i d
           else Ok ret)
        (range 8) (repeat 0 8)
  = Ok [d0; d1; d2; d3; d4; d5; d6; d7].
Proof. reflexivity. Qed.

Lemma cubic_root_array_spec cr :
  0 <= cr ->
  cubic_root_array cr = Ok ((fun i => (cr `div` 16 ^ (9 - i)) `mod` 16) <$> range 8).
Proof.
  intros Hcr. unfold cubic_root_array.
  pose proof (zero_padding_ends (format_x cr)) as Hlen.
  destruct (zero_padding_spec (format_x cr) 10) as [Hok Hv].
  { apply hex_digits_ok; [done|constructor]. }
  cbn zeta in Hok, Hv. rewrite format_x_value in Hv by done.
  set (h := while_pure 10 _ _ (format_x cr)) in *.
  assert (Hslice : slice h (Some (-10)) (Some (-2)) = take 8 (drop (length h - 10) h)).
  { unfold slice, clamp. simpl. rewrite Z.max_r, Z.max_r by lia. f_equal; [lia|].
    f_equal. unfold len. lia. }
  rewrite Hslice.
  assert (Hdigit : forall i, (i < 8)%nat ->
            take 8 (drop (length h - 10) h) !! i
            = Some ((cr `div` 16 ^ (9 - Z.of_nat i)) `mod` 16)).
  { intros i Hi. rewrite lookup_take_lt, lookup_drop by done.
    destruct (lookup_lt_is_Some_2 h (length h - 10 + i)) as [d Hd]; [unfold len in Hlen; lia|].
    rewrite Hd. f_equal. rewrite (digit_of_digits h _ d Hok Hd), Hv.
    do 3 f_equal. unfold len in *. lia. }
  assert (Hl8 : length (take 8 (drop (length h - 10) h)) = 8%nat).
  { rewrite length_take, length_drop. unfold len in Hlen. lia. }
  destruct (take 8 (drop (length h - 10) h)) as [|d0 [|d1 [|d2 [|d3 [|d4 [|d5 [|d6 [|d7 [|]]]]]]]]];
    try done.
  rewrite copy_eight. f_equal.
  pose proof (Hdigit 0%nat ltac:(lia)) as E0. pose proof (Hdigit 1%nat ltac:(lia)) as E1.
  pose proof (Hdigit 2%nat ltac:(lia)) as E2. pose proof (Hdigit 3%nat ltac:(lia)) as E3.
  pose proof (Hdigit 4%nat ltac:(lia)) as E4. pose proof (Hdigit 5%nat ltac:(lia)) as E5.
  pose proof (Hdigit 6%nat ltac:(lia)) as E6. pose proof (Hdigit 7%nat ltac:(lia)) as E7.
  simpl in E0, E1, E2, E3, E4, E5, E6, E7. by simplify_eq.
Qed.

(** ** Padding with 'A' *)

Lemma encode_utf8_text_ok m bytes : encode_utf8 m = Ok bytes -> text_ok m.
Proof.
  intros He. destruct (text_ok_or_unencodable m) as [H|H]; [done|].
  by rewrite encode_utf8_unencodable in He.
Qed.

Lemma encode_utf8_app a b bytes_a bytes_b :
  encode_utf8 a = Ok bytes_a -> encode_utf8 b = Ok bytes_b ->
  encode_utf8 (a ++ b) = Ok (bytes_a ++ bytes_b).
Proof.
  revert bytes_a. induction a as [|c a IH]; intros bytes_a; simpl.
  - by intros [= <-].
  - intros Ha Hb. apply bind_Ok in Ha as (bs & -> & Ha).
    apply bind_Ok in Ha as (rest & Hrest & Ha). injection Ha as <-.
    cbn [mbind result_bind]. rewrite (IH rest Hrest Hb). simpl. by rewrite app_assoc.
Qed.

Lemma encode_utf8_padding k : encode_utf8 (replicate k 65) = Ok (replicate k 65).
Proof. induction k as [|k IH]; simpl; [done|]. by rewrite IH. Qed.

Lemma encode_code_point_length c bs : encode_code_point c = Ok bs -> (1 <= length bs)%nat.
Proof.
  unfold encode_code_point. repeat (destruct (_ : bool)); intros [= <-]; simpl; lia.
Qed.

Lemma encode_utf8_length s bytes : encode_utf8 s = Ok bytes -> (length s <= length bytes)%nat.
Proof.
  revert bytes. induction s as [|c s IH]; intros bytes; simpl; [lia|].
  intros H. apply bind_Ok in H as (bs & Hbs & H). apply bind_Ok in H as (rest & Hrest & H).
  injection H as <-. apply encode_code_point_length in Hbs. apply IH in Hrest.
  rewrite length_app. lia.
Qed.

Lemma chunk32_padding bytes k :
  (32 <= length bytes + k)%nat ->
  Spec.chunk32 (bytes ++ replicate k 65) = Spec.chunk32 bytes.
Proof.
  intros Hk. unfold Spec.chunk32. rewrite length_app, length_replicate.
  destruct (Nat.ltb_spec 32 (length bytes)) as [Hlt|Hge].
  - destruct (Nat.ltb_spec 32 (length bytes + k)); [|lia]. by rewrite take_app_le by lia.
  - destruct (Nat.ltb_spec 32 (length bytes + k)) as [Hlt|Hge'].
    + rewrite take_app_ge by lia. by rewrite take_replicate, Nat.min_l by lia.
    + replace (32 - (length bytes + k))%nat with 0%nat by lia. simpl. rewrite app_nil_r.
      do 2 f_equal. lia.
Qed.

(** What [update] hashes for the remainder: the pending characters, padded. *)
Lemma padded_bytes buffer bytes :
  len buffer < 32 -> encode_utf8 buffer = Ok bytes ->
  exists padded,
    encode_utf8 (buffer ++ repeat 65 (32 - len buffer)) = Ok padded /\
    Spec.chunk32 padded = Spec.chunk32 bytes.
Proof.
  intros Hlen He. eexists. split.
  - apply encode_utf8_app; [done|]. apply encode_utf8_padding.
  - apply chunk32_padding. apply encode_utf8_length in He. unfold len in *. lia.
Qed.

Lemma mirror256_process_collide cls self m1 m2 bytes1 bytes2 :
  state_ok cls self -> size self <= 256 ->
  encode_utf8 m1 = Ok bytes1 -> encode_utf8 m2 = Ok bytes2 ->
  exists hm1 hm2,
    _mirror256_process cls m1 self = Ok hm1 /\
    _mirror256_process cls m2 self = Ok hm2 /\
    shape_ok 64 hm1 /\ shape_ok 64 hm2 /\
    (hm1 = hm2 <-> Spec.chunk32 bytes1 = Spec.chunk32 bytes2).
Proof.
  intros Hr Hs E1 E2.
  destruct (mirror256_process_total cls m1 self Hr) as (hm1 & H1 & S1);
    [by eapply encode_utf8_text_ok|].
  destruct (mirror256_process_total cls m2 self Hr) as (hm2 & H2 & S2);
    [by eapply encode_utf8_text_ok|].
  exists hm1, hm2. do 4 (split; [done|]). split.
  - intros <-. apply (unpack_injective m1 m2); [done..|].
    apply (mirror256_process_injective cls m1 m2 self hm1); [apply Hr|done..].
  - intros Hc.
    assert (Hu : _unpack m1 = _unpack m2).
    { rewrite (unpack_refines m1 bytes1 E1), (unpack_refines m2 bytes2 E2).
      unfold Spec.unpack. by rewrite Hc. }
    rewrite (process_same_unpack cls m1 m2 self Hu) in H1. congruence.
Qed.

Lemma pack_injective self hm hm' :
  size self = 256 -> shape_ok 64 hm -> shape_ok 64 hm' ->
  _pack self hm = _pack self hm' -> hm = hm'.
Proof.
  intros Hs [H1 L1] [H2 L2]. assert (H0 : 0 <= size self) by lia.
  rewrite (pack_spec self hm H0 H1), (pack_spec self hm' H0 H2), Hs.
  change (Z.to_nat (256 `div` 8)) with 32%nat. intros Heq.
  apply (digest_bytes_inj 32); [split; [exact H1|exact L1]|split; [exact H2|exact L2]|].
  congruence.
Qed.

(** A short text on an encodable buffer: what [update] leaves. *)
Lemma update_short_spec cls self s bytes :
  state_ok cls self -> s <> [] -> len (_buffer self ++ s) < 32 ->
  encode_utf8 (_buffer self ++ s) = Ok bytes ->
  exists hm padded,
    encode_utf8 ((_buffer self ++ s) ++ repeat 65 (32 - len (_buffer self ++ s))) = Ok padded /\
    Spec.chunk32 padded = Spec.chunk32 bytes /\
    _mirror256_process cls
      ((_buffer self ++ s) ++ repeat 65 (32 - len (_buffer self ++ s))) self = Ok hm /\
    shape_ok 64 hm /\
    update cls (PyStr s) self
    = (set_hashed hm
         (set_counter (_counter self + len s) (set_buffer (_buffer self ++ s) self)), Ok ()).
Proof.
  intros Hok Hs Hlen He.
  destruct (padded_bytes _ _ Hlen He) as (padded & Hp & Hc).
  destruct (mirror256_process_total cls
              ((_buffer self ++ s) ++ repeat 65 (32 - len (_buffer self ++ s))) self Hok)
    as (hm & Hm & Hshape); [by eapply encode_utf8_text_ok|].
  exists hm, padded. do 4 (split; [done|]).
  by rewrite update_short, Hm.
Qed.

Lemma layer_filling_spec (n v : Z) fuel (layer : list Z) :
  (Z.to_nat (n - len layer) <= fuel)%nat ->
  while_pure fuel (fun layer => len layer <? n) (fun layer => layer ++ [v]) layer
  = layer ++ replicate (Z.to_nat (n - len layer)) v.
Proof.
  revert layer. induction fuel as [|fuel IH]; intros layer Hf; simpl.
  - replace (Z.to_nat (n - len layer)) with 0%nat by lia. by rewrite app_nil_r.
  - destruct (Z.ltb_spec (len layer) n) as [Hlt|Hge].
    + rewrite IH by (rewrite len_app; unfold len in *; simpl; lia).
      rewrite <- app_assoc. f_equal. rewrite len_app.
      replace (Z.to_nat (n - len layer)) with (S (Z.to_nat (n - (len layer + len [v]))))
        by (unfold len in *; simpl; lia).
      done.
    + replace (Z.to_nat (n - len layer)) with 0%nat by lia. by rewrite app_nil_r.
Qed.

Lemma table_nonneg : forallb (fun cr => 0 <=? cr) FIRST_PRIMES_CUBIC_ROOT_DEC_REP = true.
Proof. reflexivity. Qed.

Lemma standard_layer_spec self cls :
  standard_layer self cls = Ok (standard_layer_at (size self) (length cls)).
Proof.
  unfold standard_layer, standard_layer_at.
  destruct (Z.ltb_spec (len cls) (len FIRST_PRIMES_CUBIC_ROOT_DEC_REP)) as [Hlt|Hge].
  - destruct (getitem_nonneg FIRST_PRIMES_CUBIC_ROOT_DEC_REP (len cls))
      as (cr & Hcr & ->); [pose proof (len_nonneg cls); lia|].
    unfold len in Hcr. rewrite Nat2Z.id in Hcr. rewrite Hcr.
    cbn [mbind result_bind].
    assert (Hpos : 0 <= cr).
    { pose proof table_nonneg as H. rewrite forallb_forall in H.
      apply Z.leb_le, H, list_elem_of_In. by eapply list_elem_of_lookup_2. }
    rewrite cubic_root_array_spec by done. cbn [mbind result_bind]. f_equal.
    rewrite app_nil_l, layer_filling_spec.
    + reflexivity.
    + match goal with |- context [len ?l] => change (len l) with 8 end. lia.
  - rewrite lookup_ge_None_2; [done|]. unfold len in Hge. lia.
Qed.

Lemma init_standard_state_layers fuel self cls cls' r :
  _init_standard_state fuel self cls = (cls', r) ->
  forall i layer, (length cls <= i)%nat -> cls' !! i = Some layer ->
    layer = standard_layer_at (size self) i.
Proof.
  revert cls. induction fuel as [|fuel IH]; intros cls; simpl.
  - intros [= <- <-] i layer Hi Hl. apply lookup_lt_Some in Hl. lia.
  - destruct (len cls <? depth self).
    + rewrite standard_layer_spec. intros H i layer Hi Hl.
      destruct (decide (i = length cls)) as [->|Hne].
      * destruct (init_standard_state_spec fuel self
                    (cls ++ [standard_layer_at (size self) (length cls)]))
          as (extra & He & _).
        rewrite He in H. injection H as <- _.
        rewrite <- app_assoc in Hl. rewrite lookup_app_r in Hl by lia.
        rewrite Nat.sub_diag in Hl. simpl in Hl. by injection Hl as <-.
      * eapply IH; [done| |done]. rewrite length_app. simpl. lia.
    + intros [= <- <-] i layer Hi Hl. apply lookup_lt_Some in Hl. lia.
Qed.

(** ** Wires of a sublayer *)

Lemma mod_shift_inj a a' o sz :
  0 <= a < sz -> 0 <= a' < sz -> (a + o) `mod` sz = (a' + o) `mod` sz -> a = a'.
Proof.
  intros Ha Ha' Heq.
  assert (Hdiv : (sz | a - a')).
  { replace (a - a') with ((a + o) - (a' + o)) by lia. apply Z.mod_divide; [lia|].
    rewrite Zminus_mod, Heq, Z.sub_diag. apply Z.mod_0_l. lia. }
  destruct Hdiv as [k Hk]. clear Heq.
  assert (k = 0) by nia. lia.
Qed.

(** ** Random messages *)

Lemma alphanumeric_text_ok c : c ∈ ALPHANUMERIC -> code_point_ok c.
Proof.
  intros Hc. pose proof (text_ok_str "ABCDEFGHIJKLMNOPQRSTUVWXYZ0123456789") as H.
  by eapply Forall_forall in H.
Qed.

(** ** The random key schedule, layer by layer *)

Lemma init_random_state_layers randint fuel drawn self cls cls' r :
  _init_random_state randint fuel drawn self cls = (cls', r) ->
  forall i layer, (length cls <= i)%nat -> cls' !! i = Some layer ->
    layer = (fun j => randint (drawn + (i - length cls) * Z.to_nat (size self `div` 4) + j)%nat)
              <$> seq 0 (Z.to_nat (size self `div` 4)).
Proof.
  revert drawn cls. induction fuel as [|fuel IH]; intros drawn cls; simpl.
  - intros [= <- <-] i layer Hi Hl. apply lookup_lt_Some in Hl. lia.
  - destruct (len cls <? depth self).
    + set (n := Z.to_nat (size self `div` 4)).
      intros H i layer Hi Hl.
      destruct (decide (i = length cls)) as [->|Hne].
      * destruct (init_random_state_spec randint fuel (drawn + n) self
                    (cls ++ [(fun j => randint (drawn + j)%nat) <$> seq 0 n]))
          as (extra & He & _).
        rewrite He in H. injection H as <- _.
        rewrite <- app_assoc in Hl. rewrite lookup_app_r in Hl by lia.
        rewrite Nat.sub_diag in Hl. simpl in Hl. injection Hl as <-.
        apply list_fmap_ext. intros _ j _. f_equal. lia.
      * rewrite (IH _ _ H i layer); [|rewrite length_app; simpl; lia|done].
        apply list_fmap_ext. intros _ j _. f_equal. rewrite length_app. simpl.
        replace (i - length cls)%nat with (S (i - (length cls + 1))) by lia. lia.
    + intros [= <- <-] i layer Hi Hl. apply lookup_lt_Some in Hl. lia.
Qed.

(** ** What [update] reads of the class attribute *)

Lemma getitem_same_prefix {A} (l1 l2 : list A) d i :
  take d l1 = take d l2 -> 0 <= i < Z.of_nat d -> getitem l1 i = getitem l2 i.
Proof.
  intros Ht Hi.
  assert (Hl : l1 !! Z.to_nat i = l2 !! Z.to_nat i).
  { rewrite <- (lookup_take_lt l1 d), <- (lookup_take_lt l2 d) by lia. by rewrite Ht. }
  unfold getitem, position.
  destruct (Z.leb_spec 0 i); [|lia]. destruct (Z.ltb_spec i 0); [lia|]. simpl.
  destruct (Z.ltb_spec i (len l1)) as [H1|H1], (Z.ltb_spec i (len l2)) as [H2|H2].
  - by rewrite Hl.
  - rewrite (lookup_ge_None_2 l2) in Hl by (unfold len in H2; lia). by rewrite Hl.
  - rewrite (lookup_ge_None_2 l1) in Hl by (unfold len in H1; lia). by rewrite <- Hl.
  - done.
Qed.

Lemma foldM_ext {A B} (f g : B -> A -> result B) l b :
  (forall b a, a ∈ l -> f b a = g b a) -> foldM f l b = foldM g l b.
Proof.
  revert b. induction l as [|a l IH]; intros b Hfg; simpl; [done|].
  rewrite Hfg by left. destruct (g b a); simpl; [|done].
  apply IH. intros ???; apply Hfg. by right.
Qed.

Lemma process_same_prefix cls1 cls2 m self :
  take (Z.to_nat (depth self)) (self_last_hashes cls1 self)
  = take (Z.to_nat (depth self)) (self_last_hashes cls2 self) ->
  _mirror256_process cls1 m self = _mirror256_process cls2 m self.
Proof.
  intros Ht. unfold _mirror256_process. destruct (_unpack m) as [block|]; [simpl|done].
  apply foldM_ext. intros b layer Hl. apply elem_of_range in Hl.
  unfold _hash_layer_pass. by rewrite (getitem_same_prefix _ _ _ layer Ht) by lia.
Qed.

Lemma self_last_hashes_prefix cls1 cls2 self :
  take (Z.to_nat (depth self)) cls1 = take (Z.to_nat (depth self)) cls2 ->
  take (Z.to_nat (depth self)) (self_last_hashes cls1 self)
  = take (Z.to_nat (depth self)) (self_last_hashes cls2 self).
Proof. unfold self_last_hashes. by destruct (_last_hashes self). Qed.

Lemma update_chunk_same_prefix cls1 cls2 self :
  1 <= depth self ->
  take (Z.to_nat (depth self)) cls1 = take (Z.to_nat (depth self)) cls2 ->
  update_chunk cls1 self = update_chunk cls2 self.
Proof.
  intros Hd Ht. rewrite !update_chunk_unfold.
  rewrite (process_same_prefix cls1 cls2) by (by apply self_last_hashes_prefix).
  destruct (_mirror256_process _ _ _) as [hm|]; [|done]. do 4 f_equal.
  rewrite !slice_prefix by lia.
  apply (self_last_hashes_prefix cls1 cls2 self) in Ht.
  apply (f_equal (take (Z.to_nat (depth self - 1)))) in Ht.
  rewrite !take_take in Ht. by rewrite !Nat.min_l in Ht by lia.
Qed.

Lemma update_same_prefix cls1 cls2 m self :
  1 <= depth self ->
  take (Z.to_nat (depth self)) cls1 = take (Z.to_nat (depth self)) cls2 ->
  update cls1 m self = update cls2 m self.
Proof.
  intros Hd Ht. unfold update. destruct (negb (truthy m)); [done|].
  destruct m as [| | |s| |]; try done.
  unfold mbind, method_bind, modify.
  set (s0 := set_counter _ _).
  assert (Hloop : forall fuel st, depth st = depth self ->
            while fuel (fun self => 32 <=? len (_buffer self)) (update_chunk cls1) st
            = while fuel (fun self => 32 <=? len (_buffer self)) (update_chunk cls2) st).
  { induction fuel as [|fuel IH]; intros st Hst; simpl; [done|].
    destruct (32 <=? len (_buffer st)); [|done].
    unfold mbind, method_bind.
    rewrite (update_chunk_same_prefix cls1 cls2 st) by (by rewrite Hst).
    destruct (update_chunk cls2 st) as [st' [[]|e]] eqn:Hc; [|done].
    apply IH. rewrite update_chunk_unfold in Hc.
    destruct (_mirror256_process _ _ _); [|done]. by injection Hc as <-. }
  unfold process_complete_chunks. rewrite Hloop by done.
  destruct (while _ _ _ s0) as [s1 [[]|e]] eqn:Hw; [|done].
  assert (Hd1 : depth s1 = depth self).
  { revert Hw. apply (while_preserves (fun s => depth s = depth self)); [|done].
    intros st st' r' Hst _. rewrite update_chunk_unfold.
    destruct (_mirror256_process _ _ _); by intros [= <- <-]. }
  rewrite !process_remaining_unfold. destruct (_ || _); [|done].
  rewrite (process_same_prefix cls1 cls2); [done|].
  apply self_last_hashes_prefix. by rewrite Hd1.
Qed.



Lemma init_standard_layers cls m d sz cls' r :
  __init__ cls m d sz StandardState = (cls', r) ->
  forall i layer,
    (length cls <= i)%nat -> cls' !! i = Some layer ->
    layer = standard_layer_at (or_default sz DEFAULT_SIZE) i.
Proof.
  intros Hi i layer Hge Hl.
  destruct (init_unfold cls m d sz StandardState) as (extra & H0 & _ & _ & Hu).
  rewrite Hu in Hi. injection Hi as <- _.
  unfold init_last_hashes in H0. destruct (len cls <? depth (fresh d sz)).
  - by apply (init_standard_state_layers _ _ _ _ _ H0 i layer Hge Hl).
  - injection H0 as H0. rewrite <- H0 in Hl. apply lookup_lt_Some in Hl. lia.
Qed.

Lemma init_standard_class cls m d sz cls' r :
  standard_class (or_default sz DEFAULT_SIZE) cls ->
  __init__ cls m d sz StandardState = (cls', r) ->
  standard_class (or_default sz DEFAULT_SIZE) cls'.
Proof.
  intros Hstd Hi i layer Hl. destruct (decide (length cls <= i)%nat) as [Hge|Hlt].
  - by eapply init_standard_layers.
  - apply Hstd. destruct (init_unfold cls m d sz StandardState) as (extra & _ & _ & _ & Hu).
    rewrite Hu in Hi. injection Hi as <- _. by rewrite lookup_app_l in Hl by lia.
Qed.

Lemma standard_class_prefix sz cls1 cls2 n :
  standard_class sz cls1 -> standard_class sz cls2 ->
  (n <= length cls1)%nat -> (n <= length cls2)%nat ->
  take n cls1 = take n cls2.
Proof.
  intros H1 H2 L1 L2. apply list_eq. intros i.
  destruct (decide (i < n)%nat) as [Hi|Hi].
  - rewrite !lookup_take_lt by done.
    destruct (lookup_lt_is_Some_2 cls1 i) as [x Hx]; [lia|].
    destruct (lookup_lt_is_Some_2 cls2 i) as [y Hy]; [lia|].
    by rewrite Hx, Hy, (H1 i x Hx), (H2 i y Hy).
  - by rewrite !lookup_take_ge by lia.
Qed.

(** ** The schedule of the instance *)

Lemma update_chunk_own_schedule cls self self' r :
  state_ok cls self -> own_schedule_ok self ->
  update_chunk cls self = (self', r) -> own_schedule_ok self'.
Proof.
  intros (_ & Hs & _ & _ & Hd) Hown. rewrite update_chunk_unfold.
  destruct (_mirror256_process _ _ _) as [hm|e] eqn:Hp; intros [= <- <-]; [|done].
  apply mirror256_process_ok in Hp; [|done].
  intros own [= <-]. split; [|by eauto]. simpl. intros Hd1.
  change (len (hm :: ?l)) with (len ([hm] ++ l)). rewrite len_app, len_slice_stop.
  unfold clamp. destruct (Z.ltb_spec (depth self - 1) 0); [lia|].
  unfold len in *. simpl. lia.
Qed.

Lemma update_own_schedule cls m self self' r :
  state_ok cls self -> own_schedule_ok self ->
  update cls m self = (self', r) -> own_schedule_ok self'.
Proof.
  intros Hok Hown. destruct (truthy m) eqn:Ht.
  - destruct (is_str m) eqn:Hs.
    + destruct m as [| | |s| |]; try done.
      assert (s <> []) by (by destruct s).
      rewrite update_str_unfold by done.
      destruct (process_complete_chunks _ _) as [self1 r1] eqn:Hl.
      assert (H1 : state_ok cls self1 /\ own_schedule_ok self1).
      { revert Hl. unfold process_complete_chunks.
        apply (while_preserves (fun s => state_ok cls s /\ own_schedule_ok s)).
        - intros s0 s' r' [Hok0 Hown0] _ Hc. split; [by eapply update_chunk_state_ok|].
          by eapply update_chunk_own_schedule.
        - split; [by apply state_ok_buffered|done]. }
      destruct H1 as [_ Hown1].
      destruct r1 as [[]|e]; [|by intros [= <- <-]].
      intros Hrem. apply process_remaining_keeps_schedule in Hrem as (Heq & _ & Hdep & _).
      intros own Ho. rewrite Heq in Ho. rewrite Hdep. by apply Hown1.
    + rewrite update_not_str by done. by intros [= <- <-].
  - rewrite update_falsy by done. by intros [= <- <-].
Qed.

Lemma reachable_own_schedule cls self : reachable cls self -> own_schedule_ok self.
Proof.
  induction 1 as [cls m depth size state cls' self Hc Hr Hi
                 |cls self m self' r Hreach IH Hu
                 |cls self m depth size state cls' r _ IH Hr Hi]; [| |done].
  - destruct (init_unfold cls m depth size state) as (extra & H0 & _ & _ & Hu).
    rewrite Hu in Hi. injection Hi as <- Hi.
    apply init_fresh_state_ok in H0 as [_ Hok0]; [|done|by apply class_reachable_ok].
    destruct m as [| | |s| |]; try done.
    + injection Hi as <-. by intros own.
    + destruct (update _ _ _) as [s1 [[]|e]] eqn:Hup; [|done]. injection Hi as <-.
      eapply update_own_schedule; [done| |done]. by intros own.
  - eapply update_own_schedule; [by apply reachable_state_ok|done..].
Qed.

(** ** The properties *)

(** X1. [_set_bit] followed by [_get_bit]: on a block of nibbles, setting a
    wire to a bit returns a block of nibbles of the same length in which
    that wire reads the bit and every other wire reads what it read before;
    a wire beyond the block is not stored: the block comes back as it was
    and the wire reads 0. *)
Theorem set_bit_then_get_bit block wire (b : bool) :
  block_ok block -> 0 <= wire ->
  exists block',
    _set_bit block wire (Z.b2z b) = Ok block' /\
    block_ok block' /\ length block' = length block /\
    _get_bit block' wire = Ok (if wire `div` 4 <? len block then Z.b2z b else 0) /\
    (len block <= wire `div` 4 -> block' = block) /\
    (forall wire', 0 <= wire' -> wire' <> wire -> _get_bit block' wire' = _get_bit block wire').
Proof.
  intros Hb Hw. exists (Spec.write block wire b).
  split; [by apply set_bit_spec|]. split; [by apply write_ok|].
  split; [apply length_write|]. split; [|split].
  - rewrite get_bit_spec by done. f_equal.
    destruct (Z.ltb_spec (wire `div` 4) (len block)) as [Hlt|Hge].
    + by rewrite bit_write_eq.
    + unfold Spec.bit, Spec.write. rewrite list_lookup_alter_eq.
      rewrite lookup_ge_None_2; [done|]. unfold len in Hge. lia.
  - intros Hge. unfold Spec.write. rewrite alter_lookup.
    rewrite lookup_ge_None_2; [done|]. unfold len in Hge. lia.
  - intros wire' Hw' Hne. rewrite !get_bit_spec by done. f_equal. f_equal.
    apply bit_write_ne; (done || lia).
Qed.

Lemma set_bit_then_get_bit_witness :
  (block_ok [3; 0; 15; 8] /\ 0 <= 5) /\
  exists block',
    _set_bit [3; 0; 15; 8] 5 (Z.b2z true) = Ok block' /\
    _get_bit block' 5 = Ok 1.
Proof.
  assert (Hb : block_ok [3; 0; 15; 8]) by (unfold block_ok, nibble; repeat constructor; lia).
  assert (Hw : 0 <= 5) by lia.
  split; [split; [exact Hb|exact Hw]|].
  destruct (set_bit_then_get_bit [3; 0; 15; 8] 5 true Hb Hw) as (block' & Hs & _ & _ & Hg & _).
  exists block'. split; [exact Hs|exact Hg].
Defined.

(** X2. The wires of one sublayer: for the gates [0 .. size // 4 - 1] of a
    sublayer and their three taps, [_get_wire] returns wires within
    [0 .. size - 1], and two different (gate, tap) pairs never get the same
    wire, so the gates of a sublayer work on disjoint triples of wires. *)
Theorem sublayer_wires_are_distinct self layer first_sublayer g g' t t' :
  0 <= g < size self `div` 4 -> 0 <= g' < size self `div` 4 ->
  0 <= t <= 2 -> 0 <= t' <= 2 ->
  exists w w',
    _get_wire self g first_sublayer (layer `mod` 2 + t) = Ok w /\
    _get_wire self g' first_sublayer (layer `mod` 2 + t') = Ok w' /\
    0 <= w < size self /\ 0 <= w' < size self /\
    (w = w' -> g = g' /\ t = t').
Proof.
  intros Hg Hg' Ht Ht'. assert (Hs : 4 <= size self) by lia.
  rewrite !get_wire_spec by lia. eexists _, _. split; [done|]. split; [done|].
  unfold Spec.wire.
  set (o := layer `mod` 2 + (if first_sublayer then 0 else 2)).
  replace (g * 4 + layer `mod` 2 + t + _) with ((g * 4 + t) + o) by (unfold o; lia).
  replace (g' * 4 + layer `mod` 2 + t' + _) with ((g' * 4 + t') + o) by (unfold o; lia).
  split; [apply Z.mod_pos_bound; lia|]. split; [apply Z.mod_pos_bound; lia|].
  intros Heq. apply mod_shift_inj in Heq; lia.
Qed.

Lemma sublayer_wires_are_distinct_witness :
  (0 <= 3 < size (fresh None None) `div` 4 /\ 0 <= 4 < size (fresh None None) `div` 4 /\
   0 <= 2 <= 2 /\ 0 <= 0 <= 2) /\
  exists w w',
    _get_wire (fresh None None) 3 false (1 `mod` 2 + 2) = Ok w /\
    _get_wire (fresh None None) 4 false (1 `mod` 2 + 0) = Ok w' /\
    (w = w' -> 3 = 4 /\ 2 = 0).
Proof.
  assert (H1 : 0 <= 3 < size (fresh None None) `div` 4)
    by (vm_compute; split; [discriminate|reflexivity]).
  assert (H2 : 0 <= 4 < size (fresh None None) `div` 4)
    by (vm_compute; split; [discriminate|reflexivity]).
  assert (H3 : 0 <= 2 <= 2) by lia. assert (H4 : 0 <= 0 <= 2) by lia.
  split; [split; [exact H1|split; [exact H2|split; [exact H3|exact H4]]]|].
  destruct (sublayer_wires_are_distinct (fresh None None) 1 false 3 4 2 0 H1 H2 H3 H4)
    as (w & w' & Hw & Hw' & _ & _ & Hd).
  exists w, w'. split; [exact Hw|]. split; [exact Hw'|exact Hd].
Defined.

(** X3. Every gate undoes itself: when the three wires of a gate are
    different wires of the block (the size is at least 3 and at most the
    number of bits of the block), [_apply_gate] applied twice with the same
    arguments gives the block back, whatever the gate name and symmetry
    are; it keeps the block a list of nibbles of the same length and
    leaves every wire other than its three taps as it was. *)
Theorem apply_gate_undoes_itself self gate_index gate_name gate_symmetry block
    first_sublayer layer :
  3 <= size self <= 4 * len block -> block_ok block ->
  exists block',
    _apply_gate self gate_index gate_name gate_symmetry block first_sublayer layer = Ok block' /\
    block_ok block' /\ length block' = length block /\
    _apply_gate self gate_index gate_name gate_symmetry block' first_sublayer layer = Ok block /\
    (forall w,
       0 <= w ->
       (forall t, 0 <= t <= 2 ->
          _get_wire self gate_index first_sublayer (layer `mod` 2 + t) <> Ok w) ->
       _get_bit block' w = _get_bit block w).
Proof.
  intros Hs Hb.
  destruct (apply_gate_involutive self gate_index gate_name gate_symmetry block
              first_sublayer layer Hs Hb) as (block' & Hgo & Hback).
  exists block'. split; [done|].
  destruct (apply_gate_ok _ _ _ _ _ _ _ _ Hb Hgo) as [Hok Hlen].
  do 3 (split; [done|]).
  intros w Hw Hother. rewrite !get_bit_spec by done. f_equal. f_equal.
  assert (Hne : forall t, 0 <= t <= 2 ->
            w <> Spec.wire (size self) gate_index layer first_sublayer t).
  { intros t Ht ->. apply (Hother t Ht). apply get_wire_spec. lia. }
  destruct (gate_values_cases gate_name gate_symmetry) as [(gt & Hgt & -> & ->)|Hid].
  - rewrite apply_gate_spec in Hgo by (done || lia). injection Hgo as <-.
    unfold Spec.gate_at. destruct (Spec.decode gt) as [n s].
    destruct (wires_distinct (size self) gate_index layer first_sublayer) as (H12 & H13 & H23);
      [lia|].
    rewrite apply_bits; try done; try (apply wire_nonneg; lia); try (apply wire_in_range; lia).
    destruct (Spec.gate n s _) as [[v1 v2] v3].
    rewrite !decide_False; [done|apply Hne; lia..].
  - rewrite apply_gate_idle in Hgo by (done || lia). by injection Hgo as <-.
Qed.

Lemma apply_gate_undoes_itself_witness :
  (3 <= size (fresh None (Some 16)) <= 4 * len [3; 0; 15; 8] /\ block_ok [3; 0; 15; 8]) /\
  exists block',
    _apply_gate (fresh None (Some 16)) 1 FREDKIN MIRRORED [3; 0; 15; 8] false 1 = Ok block' /\
    _apply_gate (fresh None (Some 16)) 1 FREDKIN MIRRORED block' false 1 = Ok [3; 0; 15; 8].
Proof.
  assert (Hs : 3 <= size (fresh None (Some 16)) <= 4 * len [3; 0; 15; 8])
    by (vm_compute; split; discriminate).
  assert (Hb : block_ok [3; 0; 15; 8]) by (unfold block_ok, nibble; repeat constructor; lia).
  split; [split; [exact Hs|exact Hb]|].
  destruct (apply_gate_undoes_itself (fresh None (Some 16)) 1 FREDKIN MIRRORED [3; 0; 15; 8]
              false 1 Hs Hb) as (block' & Hgo & _ & _ & Hback & _).
  exists block'. split; [exact Hgo|exact Hback].
Defined.

(** X4. A layer is a bijection: for a schedule of nibbles and a layer it
    holds, [_hash_layer_pass] maps the blocks of [n] nibbles one-to-one
    onto themselves, provided every wire is inside the block (the size is
    at most [4 * n]; 256 bits for the 64 nibbles of a chunk): it returns
    such a block, two blocks with the same result are equal, and every
    such block is the result of one. *)
Theorem hash_layer_pass_is_a_bijection self last_hashes layer n :
  schedule_ok last_hashes -> 0 <= layer < len last_hashes ->
  size self <> 0 -> size self <= 4 * Z.of_nat n ->
  (forall b, shape_ok n b ->
     exists c, _hash_layer_pass self last_hashes layer b = Ok c /\ shape_ok n c) /\
  (forall b1 b2 c,
     shape_ok n b1 -> shape_ok n b2 ->
     _hash_layer_pass self last_hashes layer b1 = Ok c ->
     _hash_layer_pass self last_hashes layer b2 = Ok c -> b1 = b2) /\
  (forall c, shape_ok n c ->
     exists b, shape_ok n b /\ _hash_layer_pass self last_hashes layer b = Ok c).
Proof.
  intros Hs Hl Hz Hn. split; [|split].
  - intros b Hb. by apply hash_layer_pass_total.
  - intros b1 b2 c S1 S2. apply hash_layer_pass_injective; [done|by eapply shape_wired..].
  - intros c Hc. by apply hash_layer_pass_onto.
Qed.

Lemma hash_layer_pass_is_a_bijection_witness :
  (schedule_ok [[6; 9; 1; 12]] /\ 0 <= 0 < len [[6; 9; 1; 12]] /\
   size (fresh None (Some 16)) <> 0 /\ size (fresh None (Some 16)) <= 4 * Z.of_nat 4) /\
  exists b, shape_ok 4 b /\
    _hash_layer_pass (fresh None (Some 16)) [[6; 9; 1; 12]] 0 b = Ok [3; 0; 15; 8].
Proof.
  assert (H1 : schedule_ok [[6; 9; 1; 12]])
    by (unfold schedule_ok, block_ok, nibble; repeat constructor; lia).
  assert (H2 : 0 <= 0 < len [[6; 9; 1; 12]]) by (vm_compute; split; [discriminate|reflexivity]).
  assert (H3 : size (fresh None (Some 16)) <> 0) by (vm_compute; discriminate).
  assert (H4 : size (fresh None (Some 16)) <= 4 * Z.of_nat 4) by (vm_compute; discriminate).
  split; [split; [exact H1|split; [exact H2|split; [exact H3|exact H4]]]|].
  destruct (hash_layer_pass_is_a_bijection (fresh None (Some 16)) [[6; 9; 1; 12]] 0 4
              H1 H2 H3 H4) as (_ & _ & Honto).
  apply Honto. split; [|reflexivity]. unfold block_ok, nibble. repeat constructor; lia.
Defined.

(** X5. All the layers together are a bijection: in a reachable state of
    a hasher of size at most 256, the loop of [_mirror256_process] over the
    [depth] layers maps the blocks of 64 nibbles one-to-one onto
    themselves: it returns such a block, two blocks with the same result
    are equal, and every such block is the result of one.  The hash of a
    chunk is a permutation of its 256 bits, chosen by the key schedule. *)
Theorem layers_are_a_bijection cls self :
  reachable cls self -> size self <= 256 ->
  let layers :=
    foldM (fun block layer => _hash_layer_pass self (self_last_hashes cls self) layer block)
          (range (depth self)) in
  (forall b, shape_ok 64 b -> exists c, layers b = Ok c /\ shape_ok 64 c) /\
  (forall b1 b2 c,
     shape_ok 64 b1 -> shape_ok 64 b2 -> layers b1 = Ok c -> layers b2 = Ok c -> b1 = b2) /\
  (forall c, shape_ok 64 c -> exists b, shape_ok 64 b /\ layers b = Ok c).
Proof.
  intros Hr Hs. apply reachable_state_ok in Hr as (_ & Hok & _ & Hz & Hd). cbn zeta.
  split; [|split].
  - intros b Hb. apply foldM_total; [|done].
    intros b0 layer Hl Hb0. apply elem_of_range in Hl.
    apply hash_layer_pass_total; [done..|lia|done].
  - intros b1 b2 c S1 S2. by apply (layers_injective _ _ _ _ _ _ 64).
  - intros c Hc. by apply (layers_onto _ _ _ _ 64).
Qed.

Lemma layers_are_a_bijection_witness :
  exists cls self,
    (reachable cls self /\ size self <= 256) /\
    exists b, shape_ok 64 b /\
      foldM (fun block layer => _hash_layer_pass self (self_last_hashes cls self) layer block)
            (range (depth self)) b = Ok (replicate 64 0).
Proof.
  eexists _, _.
  match goal with |- (reachable ?c ?s /\ _) /\ _ => assert (Hr : reachable c s) end.
  { eapply (reach_new [] PyNone (Some 2) (Some 16) StandardState).
    - apply class_loaded.
    - exact I.
    - vm_compute. reflexivity. }
  assert (Hs : size (fresh (Some 2) (Some 16)) <= 256) by (vm_compute; discriminate).
  split; [split; [exact Hr|exact Hs]|].
  destruct (layers_are_a_bijection _ _ Hr Hs) as (_ & _ & Honto).
  apply Honto. split; [|reflexivity]. apply Forall_replicate. unfold nibble. lia.
Defined.

(** X6. Chunks collide only on equal bytes: in a reachable state of a
    hasher of size at most 256, [_mirror256_process] returns a block for
    every chunk that can be encoded, and two chunks get the same block
    exactly when their UTF-8 bytes, cut or padded with 'A' to 32, are the
    same: all the layers together are one-to-one on the unpacked chunk. *)
Theorem chunks_collide_only_on_equal_bytes cls self m1 m2 bytes1 bytes2 :
  reachable cls self -> size self <= 256 ->
  encode_utf8 m1 = Ok bytes1 -> encode_utf8 m2 = Ok bytes2 ->
  exists hm1 hm2,
    _mirror256_process cls m1 self = Ok hm1 /\
    _mirror256_process cls m2 self = Ok hm2 /\
    shape_ok 64 hm1 /\ shape_ok 64 hm2 /\
    (hm1 = hm2 <-> Spec.chunk32 bytes1 = Spec.chunk32 bytes2).
Proof.
  intros Hr Hs E1 E2.
  by apply mirror256_process_collide; [apply reachable_state_ok|..].
Qed.

Lemma chunks_collide_only_on_equal_bytes_witness :
  exists cls self,
    (reachable cls self /\ size self <= 256 /\
     encode_utf8 (str "abA") = Ok (str "abA") /\ encode_utf8 (str "ab") = Ok (str "ab")) /\
    exists hm1 hm2,
      _mirror256_process cls (str "abA") self = Ok hm1 /\
      _mirror256_process cls (str "ab") self = Ok hm2 /\
      (hm1 = hm2 <-> Spec.chunk32 (str "abA") = Spec.chunk32 (str "ab")).
Proof.
  eexists _, _.
  match goal with |- (reachable ?c ?s /\ _) /\ _ => assert (Hr : reachable c s) end.
  { eapply (reach_new [] PyNone (Some 2) (Some 16) StandardState).
    - apply class_loaded.
    - exact I.
    - vm_compute. reflexivity. }
  assert (Hs : size (fresh (Some 2) (Some 16)) <= 256) by (vm_compute; discriminate).
  assert (E1 : encode_utf8 (str "abA") = Ok (str "abA")) by reflexivity.
  assert (E2 : encode_utf8 (str "ab") = Ok (str "ab")) by reflexivity.
  split; [split; [exact Hr|split; [exact Hs|split; [exact E1|exact E2]]]|].
  destruct (chunks_collide_only_on_equal_bytes _ _ _ _ _ _ Hr Hs E1 E2)
    as (hm1 & hm2 & H1 & H2 & _ & _ & Hiff).
  exists hm1, hm2. split; [exact H1|]. split; [exact H2|exact Hiff].
Defined.

(** X7. [_pack] in closed form: for a hasher whose size is not negative and
    a block of nibbles of any length, octet [i] of the result is
    [16 * hm[2i] + hm[2i+1]] for every [i < size // 8], a nibble the block
    does not have counting as 0; so the octets beyond the block are 0x00,
    and two blocks of [2 * (size // 8)] nibbles with the same packing are
    the same block. *)
Theorem pack_joins_nibble_pairs self hm :
  0 <= size self -> block_ok hm ->
  _pack self hm = Ok (digest_byte hm <$> seq 0 (Z.to_nat (size self `div` 8))) /\
  (forall i, (length hm <= 2 * i)%nat -> digest_byte hm i = 0) /\
  (forall hm',
     block_ok hm' ->
     length hm = (2 * Z.to_nat (size self `div` 8))%nat -> length hm' = length hm ->
     _pack self hm' = _pack self hm -> hm' = hm).
Proof.
  intros Hs Hhm. split; [by apply pack_spec|]. split; [apply digest_byte_beyond|].
  intros hm' Hhm' Hl Hl'. rewrite !pack_spec by done. intros [= Heq].
  apply (digest_bytes_inj (Z.to_nat (size self `div` 8))); [split; [done|lia]|done..].
Qed.

Lemma pack_joins_nibble_pairs_witness :
  (0 <= size (fresh None (Some 24)) /\ block_ok [10; 11; 12]) /\
  _pack (fresh None (Some 24)) [10; 11; 12] = Ok [171; 192; 0].
Proof.
  assert (Hs : 0 <= size (fresh None (Some 24))) by (vm_compute; discriminate).
  assert (Hb : block_ok [10; 11; 12]) by (unfold block_ok, nibble; repeat constructor; lia).
  split; [split; [exact Hs|exact Hb]|].
  destruct (pack_joins_nibble_pairs (fresh None (Some 24)) [10; 11; 12] Hs Hb) as (Hp & _).
  rewrite Hp. reflexivity.
Defined.

(** X8. Packing undoes unpacking: for a chunk that encodes to [bytes] and
    a hasher whose size is not negative, [_pack] of [_unpack] of the chunk
    is the first [size // 8] of the 32 octets [_unpack] read ([bytes] cut
    or padded with 'A' to 32), followed by 0x00 when [size // 8] exceeds
    32; for size 256 it is exactly those 32 octets. *)
Theorem pack_undoes_unpack self m bytes :
  0 <= size self -> encode_utf8 m = Ok bytes ->
  exists block,
    _unpack m = Ok block /\
    _pack self block
    = Ok (take (Z.to_nat (size self `div` 8))
            (Spec.chunk32 bytes ++ replicate (Z.to_nat (size self `div` 8) - 32) 0)) /\
    (size self = 256 -> _pack self block = Ok (Spec.chunk32 bytes)).
Proof.
  intros Hs He. exists (Spec.unpack bytes). split; [by apply unpack_refines|].
  assert (Hp : _pack self (Spec.unpack bytes)
               = Ok (take (Z.to_nat (size self `div` 8))
                       (Spec.chunk32 bytes ++ replicate (Z.to_nat (size self `div` 8) - 32) 0))).
  { rewrite pack_spec by (done || apply spec_unpack_ok). unfold Spec.unpack.
    rewrite pack_nibbles by (by eapply chunk32_octets, encode_utf8_octets).
    by rewrite length_chunk32. }
  split; [done|]. intros H256. rewrite Hp, H256. change (Z.to_nat (256 `div` 8)) with 32%nat.
  rewrite Nat.sub_diag. simpl replicate. rewrite app_nil_r, take_ge; [done|].
  by rewrite length_chunk32.
Qed.

Lemma pack_undoes_unpack_witness :
  (0 <= size (fresh None None) /\ encode_utf8 [233; 33] = Ok [195; 169; 33]) /\
  exists block,
    _unpack [233; 33] = Ok block /\
    _pack (fresh None None) block = Ok (Spec.chunk32 [195; 169; 33]).
Proof.
  assert (Hs : 0 <= size (fresh None None)) by (vm_compute; discriminate).
  assert (He : encode_utf8 [233; 33] = Ok [195; 169; 33]) by reflexivity.
  split; [split; [exact Hs|exact He]|].
  destruct (pack_undoes_unpack (fresh None None) [233; 33] [195; 169; 33] Hs He)
    as (block & Hu & _ & Hp).
  exists block. split; [exact Hu|]. apply Hp. reflexivity.
Defined.

(** X9. The digest holds one block at most: in every reachable state of a
    hasher whose size is not negative, the digest block is empty or has
    exactly 64 nibbles, [digest()] returns the [size // 8] octets
    [16 * _hashed[2i] + _hashed[2i+1]], and every octet from the 33rd on is
    0x00: a size above 256 adds no information to the digest. *)
Theorem digest_holds_one_block cls self :
  reachable cls self -> 0 <= size self ->
  (_hashed self = [] \/ shape_ok 64 (_hashed self)) /\
  exists d,
    digest self = (self, Ok d) /\
    d = digest_byte (_hashed self) <$> seq 0 (Z.to_nat (size self `div` 8)) /\
    (forall i x, (32 <= i)%nat -> d !! i = Some x -> x = 0).
Proof.
  intros Hr Hs. pose proof (reachable_hashed_ok cls self Hr) as Hh.
  apply reachable_state_ok in Hr as (_ & _ & Hb & _).
  split; [done|]. eexists. split; [|split; [reflexivity|]].
  - unfold digest, lift. by rewrite pack_spec.
  - intros i x Hi Hx. rewrite list_lookup_fmap in Hx.
    destruct (seq 0 _ !! i) as [j|] eqn:Hj; [|done]. injection Hx as <-.
    apply lookup_seq in Hj as [-> _]. simpl. apply digest_byte_beyond.
    destruct Hh as [->|[_ ->]]; simpl; lia.
Qed.

Lemma digest_holds_one_block_witness :
  exists cls self,
    (reachable cls self /\ 0 <= size self) /\
    exists d, digest self = (self, Ok d) /\
      (forall i x, (32 <= i)%nat -> d !! i = Some x -> x = 0).
Proof.
  eexists _, _.
  match goal with |- (reachable ?c ?s /\ _) /\ _ => assert (Hr : reachable c s) end.
  { eapply (reach_new [] (PyStr (str "hi")) (Some 2) (Some 512) StandardState).
    - apply class_loaded.
    - exact I.
    - vm_compute. reflexivity. }
  assert (Hs : 0 <= 512) by lia.
  split; [split; [exact Hr|exact Hs]|].
  destruct (digest_holds_one_block _ _ Hr Hs) as (_ & d & Hd & _ & Hz).
  exists d. split; [exact Hd|exact Hz].
Defined.

(** X10. [update] on text returns: in a reachable state whose pending
    characters can be encoded, [update] with any non-empty text of
    encodable characters returns without raising (no [IndexError],
    [ZeroDivisionError] or [struct.error] can come out of the layers); the
    counter grows by the number of characters, the buffer keeps what is
    left of the pending characters and the text after the full chunks of 32
    characters, fewer than 32 of them, and depth and size are as before. *)
Theorem update_returns_on_text cls self s :
  reachable cls self -> text_ok (_buffer self) -> text_ok s -> s <> [] ->
  exists self',
    update cls (PyStr s) self = (self', Ok ()) /\
    reachable cls self' /\ text_ok (_buffer self') /\
    _buffer self'
    = drop (32 * (length (_buffer self ++ s) `div` 32)) (_buffer self ++ s) /\
    len (_buffer self') = len (_buffer self ++ s) `mod` 32 /\
    len (_buffer self') < 32 /\
    _counter self' = _counter self + len s /\
    depth self' = depth self /\ size self' = size self.
Proof.
  intros Hr Hb Hs Hne.
  destruct (update_text_spec cls s self) as (self' & Hu & _ & Ht & Hbuf & Hlen & Hc & _);
    [by apply reachable_state_ok|done..|].
  exists self'. split; [done|]. split; [by eapply reach_update|].
  do 3 (split; [done|]). split; [lia|]. split; [done|].
  by apply update_same_config in Hu as [? ?].
Qed.

Lemma update_returns_on_text_witness :
  exists cls self,
    (reachable cls self /\ text_ok (_buffer self) /\ text_ok (str "canary") /\
     str "canary" <> []) /\
    exists self',
      update cls (PyStr (str "canary")) self = (self', Ok ()) /\
      _counter self' = _counter self + len (str "canary").
Proof.
  eexists _, _.
  match goal with |- (reachable ?c ?s /\ _) /\ _ => assert (Hr : reachable c s) end.
  { eapply (reach_new [] PyNone (Some 2) (Some 16) StandardState).
    - apply class_loaded.
    - exact I.
    - vm_compute. reflexivity. }
  assert (Hb : text_ok (_buffer (fresh (Some 2) (Some 16)))) by constructor.
  assert (Hs : text_ok (str "canary")) by apply text_ok_str.
  assert (Hne : str "canary" <> []) by discriminate.
  split; [split; [exact Hr|split; [exact Hb|split; [exact Hs|exact Hne]]]|].
  destruct (update_returns_on_text _ _ _ Hr Hb Hs Hne) as (self' & Hu & _ & _ & _ & _ & _ & Hc & _).
  exists self'. split; [exact Hu|exact Hc].
Defined.

(** X11. Feeding a text in pieces: in a reachable state whose pending
    characters can be encoded, calling [update] with the pieces of a text
    one after the other (empty pieces included) leaves the buffer, the
    counter and the key schedule exactly as one call with the whole text
    does; the digest block is the same too whenever the pending characters
    and the text together do not end on a multiple of 32 characters. *)
Theorem update_in_pieces cls self ps :
  reachable cls self -> text_ok (_buffer self) -> Forall text_ok ps ->
  let two := updates cls (PyStr <$> ps) self in
  let one := fst (update cls (PyStr (concat ps)) self) in
  _buffer two = _buffer one /\ _counter two = _counter one /\
  _last_hashes two = _last_hashes one /\
  depth two = depth one /\ size two = size one /\
  (len (_buffer self ++ concat ps) `mod` 32 <> 0 ->
   two = one /\ digest two = digest one).
Proof.
  intros Hr Hb Hps.
  destruct (updates_pieces cls ps self (reachable_state_ok _ _ Hr) Hb Hps) as [Hsame Heq].
  cbn zeta in *. rewrite Hsame. do 5 (split; [done|]).
  intros Hm. rewrite <- Hsame. split; [by apply Heq|]. by rewrite (Heq Hm).
Qed.

Lemma update_in_pieces_witness :
  exists cls self,
    (reachable cls self /\ text_ok (_buffer self) /\
     Forall text_ok [str "Hello"; str ", "; str "world!"]) /\
    (len (_buffer self ++ concat [str "Hello"; str ", "; str "world!"]) `mod` 32 <> 0 ->
     updates cls (PyStr <$> [str "Hello"; str ", "; str "world!"]) self
     = fst (update cls (PyStr (concat [str "Hello"; str ", "; str "world!"])) self)).
Proof.
  eexists _, _.
  match goal with |- (reachable ?c ?s /\ _) /\ _ => assert (Hr : reachable c s) end.
  { eapply (reach_new [] PyNone (Some 2) (Some 16) StandardState).
    - apply class_loaded.
    - exact I.
    - vm_compute. reflexivity. }
  assert (Hb : text_ok (_buffer (fresh (Some 2) (Some 16)))) by constructor.
  assert (Hps : Forall text_ok [str "Hello"; str ", "; str "world!"])
    by (repeat (apply Forall_cons_2; [apply text_ok_str|]); apply Forall_nil_2).
  split; [split; [exact Hr|split; [exact Hb|exact Hps]]|].
  intros Hm.
  destruct (update_in_pieces _ _ _ Hr Hb Hps) as (_ & _ & _ & _ & _ & Heq).
  destruct (Heq Hm) as [Hsame _]. exact Hsame.
Defined.

(** X12. A text that ends on a chunk boundary leaves the digest as it was:
    in a reachable state whose pending characters can be encoded, when the
    pending characters and a non-empty text together are a multiple of 32
    characters, [update] hashes the full chunks into the key schedule,
    empties the buffer and does not assign the digest block, so [digest()]
    returns afterwards what it returned before. *)
Theorem update_on_chunk_boundary_keeps_digest cls self s :
  reachable cls self -> text_ok (_buffer self) -> text_ok s -> s <> [] ->
  len (_buffer self ++ s) `mod` 32 = 0 ->
  exists self',
    update cls (PyStr s) self = (self', Ok ()) /\
    _buffer self' = [] /\ _hashed self' = _hashed self /\
    snd (digest self') = snd (digest self) /\
    snd (hexdigest self') = snd (hexdigest self).
Proof.
  intros Hr Hb Hs Hne Hm.
  destruct (update_on_boundary cls s self) as (self' & Hu & Hnil & Hh & Hd & Hsz);
    [by apply reachable_state_ok|done..|].
  exists self'. do 3 (split; [done|]).
  assert (Hp : _pack self' (_hashed self') = _pack self (_hashed self)).
  { unfold _pack. by rewrite Hsz, Hh. }
  split.
  - unfold digest, lift. simpl. done.
  - unfold hexdigest, mbind, method_bind, digest, lift. rewrite Hp.
    by destruct (_pack self (_hashed self)).
Qed.

Lemma update_on_chunk_boundary_keeps_digest_witness :
  exists cls self,
    (reachable cls self /\ text_ok (_buffer self) /\ text_ok (repeat 97 32) /\
     repeat 97 32 <> [] /\ len (_buffer self ++ repeat 97 32) `mod` 32 = 0) /\
    exists self',
      update cls (PyStr (repeat 97 32)) self = (self', Ok ()) /\
      _hashed self' = _hashed self.
Proof.
  eexists _, _.
  match goal with |- (reachable ?c ?s /\ _) /\ _ => assert (Hr : reachable c s) end.
  { eapply (reach_new [] PyNone (Some 2) (Some 16) StandardState).
    - apply class_loaded.
    - exact I.
    - vm_compute. reflexivity. }
  assert (Hb : text_ok (_buffer (fresh (Some 2) (Some 16)))) by constructor.
  assert (Hs : text_ok (repeat 97 32))
    by (apply Forall_replicate; unfold code_point_ok; lia).
  assert (Hne : repeat 97 32 <> []) by discriminate.
  assert (Hm : len (_buffer (fresh (Some 2) (Some 16)) ++ repeat 97 32) `mod` 32 = 0)
    by reflexivity.
  split; [split; [exact Hr|split; [exact Hb|split; [exact Hs|split; [exact Hne|exact Hm]]]]|].
  destruct (update_on_chunk_boundary_keeps_digest _ _ _ Hr Hb Hs Hne Hm)
    as (self' & Hu & _ & Hh & _).
  exists self'. split; [exact Hu|exact Hh].
Defined.

(** X13. Messages of whole chunks all get the zero digest: constructing a
    hasher (of a size that is not negative) with a text of encodable
    characters whose length is a multiple of 32 returns a hasher whose
    digest block is still empty, so its digest is [size // 8] octets 0x00,
    the digest of the hasher constructed with no message. *)
Theorem whole_chunks_give_the_zero_digest cls d sz state s :
  class_reachable cls -> randint_ok state -> text_ok s ->
  len s `mod` 32 = 0 -> 0 <= or_default sz DEFAULT_SIZE ->
  exists cls' h,
    __init__ cls (PyStr s) d sz state = (cls', Ok h) /\
    _buffer h = [] /\ _hashed h = [] /\ _counter h = len s /\
    digest h = (h, Ok (replicate (Z.to_nat (size h `div` 8)) 0)).
Proof.
  intros Hc Hr Hs Hm Hsz.
  destruct (init_unfold cls (PyStr s) d sz state) as (extra & H0 & _ & _ & Hi).
  apply init_fresh_state_ok in H0 as [_ Hok]; [|done|by apply class_reachable_ok].
  rewrite Hi. destruct (decide (s = [])) as [->|Hne].
  - exists (cls ++ extra), (fresh d sz). rewrite update_falsy by done.
    do 4 (split; [done|]). unfold digest, lift. simpl _hashed. by rewrite pack_empty.
  - destruct (update_text_spec (cls ++ extra) s (fresh d sz))
      as (h & Hu & _ & _ & _ & Hlen & Hcnt & Hh & _); [done|constructor|done..|].
    simpl in Hlen, Hcnt, Hh. rewrite Hm in Hlen.
    assert (Hnil : _buffer h = []).
    { destruct (_buffer h); [done|]. unfold len in Hlen. simpl in Hlen. lia. }
    rewrite Hu. exists (cls ++ extra), h. do 4 (split; [auto|]).
    pose proof (update_same_config _ _ _ _ _ Hu) as [_ Hsize].
    unfold digest, lift. rewrite (Hh Hnil), pack_empty; [done|]. by rewrite Hsize.
Qed.

Lemma whole_chunks_give_the_zero_digest_witness :
  (class_reachable [] /\ randint_ok StandardState /\ text_ok (repeat 97 64) /\
   len (repeat 97 64) `mod` 32 = 0 /\ 0 <= or_default None DEFAULT_SIZE) /\
  exists cls' h,
    __init__ [] (PyStr (repeat 97 64)) (Some 2) None StandardState = (cls', Ok h) /\
    _hashed h = [].
Proof.
  assert (Hc : class_reachable []) by apply class_loaded.
  assert (Hr : randint_ok StandardState) by exact I.
  assert (Hs : text_ok (repeat 97 64)) by (apply Forall_replicate; unfold code_point_ok; lia).
  assert (Hm : len (repeat 97 64) `mod` 32 = 0) by reflexivity.
  assert (Hz : 0 <= or_default None DEFAULT_SIZE) by (vm_compute; discriminate).
  split; [split; [exact Hc|split; [exact Hr|split; [exact Hs|split; [exact Hm|exact Hz]]]]|].
  destruct (whole_chunks_give_the_zero_digest [] (Some 2) None StandardState _ Hc Hr Hs Hm Hz)
    as (cls' & h & Hi & _ & Hh & _).
  exists cls', h. split; [exact Hi|exact Hh].
Defined.

(** X14. Short messages collide only on equal bytes: from a reachable state
    of a hasher of size at most 256, two non-empty texts that each leave
    fewer than 32 characters pending get the same digest block exactly when
    the UTF-8 bytes of the pending characters, cut or padded with 'A' to
    32, are the same; for size 256 the same holds of the digests. *)
Theorem short_messages_collide_only_on_equal_bytes cls self s1 s2 bytes1 bytes2 :
  reachable cls self -> size self <= 256 ->
  s1 <> [] -> s2 <> [] ->
  len (_buffer self ++ s1) < 32 -> len (_buffer self ++ s2) < 32 ->
  encode_utf8 (_buffer self ++ s1) = Ok bytes1 ->
  encode_utf8 (_buffer self ++ s2) = Ok bytes2 ->
  exists h1 h2,
    update cls (PyStr s1) self = (h1, Ok ()) /\
    update cls (PyStr s2) self = (h2, Ok ()) /\
    (_hashed h1 = _hashed h2 <-> Spec.chunk32 bytes1 = Spec.chunk32 bytes2) /\
    (size self = 256 ->
     (snd (digest h1) = snd (digest h2) <-> Spec.chunk32 bytes1 = Spec.chunk32 bytes2)).
Proof.
  intros Hr Hsz N1 N2 L1 L2 E1 E2. apply reachable_state_ok in Hr.
  destruct (update_short_spec cls self s1 bytes1 Hr N1 L1 E1)
    as (hm1 & p1 & P1 & C1 & M1 & S1 & U1).
  destruct (update_short_spec cls self s2 bytes2 Hr N2 L2 E2)
    as (hm2 & p2 & P2 & C2 & M2 & S2 & U2).
  destruct (mirror256_process_collide cls self _ _ p1 p2 Hr Hsz P1 P2)
    as (x1 & x2 & X1 & X2 & _ & _ & Hiff).
  rewrite M1 in X1. rewrite M2 in X2. injection X1 as <-. injection X2 as <-.
  rewrite C1, C2 in Hiff.
  eexists _, _. split; [exact U1|]. split; [exact U2|]. split; [exact Hiff|].
  intros H256. rewrite <- Hiff. unfold digest, lift. simpl. split.
  - intros Hp. apply (pack_injective self); [done..|exact Hp].
  - by intros ->.
Qed.

Lemma short_messages_collide_only_on_equal_bytes_witness :
  exists cls self,
    (reachable cls self /\ size self <= 256 /\ str "ab" <> [] /\ str "abA" <> [] /\
     len (_buffer self ++ str "ab") < 32 /\ len (_buffer self ++ str "abA") < 32 /\
     encode_utf8 (_buffer self ++ str "ab") = Ok (str "ab") /\
     encode_utf8 (_buffer self ++ str "abA") = Ok (str "abA")) /\
    exists h1 h2,
      update cls (PyStr (str "ab")) self = (h1, Ok ()) /\
      update cls (PyStr (str "abA")) self = (h2, Ok ()) /\
      (_hashed h1 = _hashed h2 <-> Spec.chunk32 (str "ab") = Spec.chunk32 (str "abA")).
Proof.
  eexists _, _.
  match goal with |- (reachable ?c ?s /\ _) /\ _ => assert (Hr : reachable c s) end.
  { eapply (reach_new [] PyNone (Some 2) (Some 16) StandardState).
    - apply class_loaded.
    - exact I.
    - vm_compute. reflexivity. }
  assert (Hs : size (fresh (Some 2) (Some 16)) <= 256) by (vm_compute; discriminate).
  assert (N1 : str "ab" <> []) by discriminate.
  assert (N2 : str "abA" <> []) by discriminate.
  assert (L1 : len (_buffer (fresh (Some 2) (Some 16)) ++ str "ab") < 32) by reflexivity.
  assert (L2 : len (_buffer (fresh (Some 2) (Some 16)) ++ str "abA") < 32) by reflexivity.
  assert (E1 : encode_utf8 (_buffer (fresh (Some 2) (Some 16)) ++ str "ab") = Ok (str "ab"))
    by reflexivity.
  assert (E2 : encode_utf8 (_buffer (fresh (Some 2) (Some 16)) ++ str "abA") = Ok (str "abA"))
    by reflexivity.
  split.
  { split; [exact Hr|]. split; [exact Hs|]. split; [exact N1|]. split; [exact N2|].
    split; [exact L1|]. split; [exact L2|]. split; [exact E1|exact E2]. }
  destruct (short_messages_collide_only_on_equal_bytes _ _ _ _ _ _ Hr Hs N1 N2 L1 L2 E1 E2)
    as (h1 & h2 & U1 & U2 & Hiff & _).
  exists h1, h2. split; [exact U1|]. split; [exact U2|exact Hiff].
Defined.

(** X15. Trailing 'A' characters are not seen: for a non-empty text that
    together with [k] more characters leaves fewer than 32 characters
    pending, [update] with the text followed by [k] characters 'A' and
    [update] with the text alone have the same outcome and leave the same
    digest block and the same digest, in every state of every hasher: the
    padding is not told apart from the message. *)
Theorem trailing_A_is_not_seen cls self s k :
  s <> [] -> 0 <= k -> len (_buffer self ++ s) + k < 32 ->
  let with_A := update cls (PyStr (s ++ repeat 65 k)) self in
  let without := update cls (PyStr s) self in
  snd with_A = snd without /\
  _hashed (fst with_A) = _hashed (fst without) /\
  snd (digest (fst with_A)) = snd (digest (fst without)).
Proof.
  intros Hs Hk Hlen. cbn zeta.
  assert (Hl : len (_buffer self ++ s ++ repeat 65 k) = len (_buffer self ++ s) + k).
  { rewrite !len_app. unfold len, repeat. rewrite length_replicate. lia. }
  assert (Hne : s ++ repeat 65 k <> []) by (by destruct s).
  rewrite (update_short cls (s ++ repeat 65 k) self) by (done || lia).
  rewrite (update_short cls s self) by (done || lia).
  assert (Hpad : (_buffer self ++ s ++ repeat 65 k)
                 ++ repeat 65 (32 - len (_buffer self ++ s ++ repeat 65 k))
                 = (_buffer self ++ s) ++ repeat 65 (32 - len (_buffer self ++ s))).
  { rewrite Hl, !app_assoc, <- (app_assoc (_buffer self ++ s)). f_equal.
    unfold repeat. rewrite <- replicate_add. f_equal. lia. }
  rewrite Hpad.
  destruct (_mirror256_process _ _ _) as [hm|e]; simpl; done.
Qed.

Lemma trailing_A_is_not_seen_witness :
  exists cls self,
    (reachable cls self /\
     str "abc" <> [] /\ 0 <= 2 /\ len (_buffer self ++ str "abc") + 2 < 32) /\
    snd (update cls (PyStr (str "abc" ++ repeat 65 2)) self) = Ok () /\
    snd (update cls (PyStr (str "abc")) self) = Ok () /\
    len (_hashed (fst (update cls (PyStr (str "abc")) self))) = 64 /\
    _hashed (fst (update cls (PyStr (str "abc" ++ repeat 65 2)) self))
    = _hashed (fst (update cls (PyStr (str "abc")) self)) /\
    is_ok (snd (digest (fst (update cls (PyStr (str "abc")) self)))) = true /\
    snd (digest (fst (update cls (PyStr (str "abc" ++ repeat 65 2)) self)))
    = snd (digest (fst (update cls (PyStr (str "abc")) self))).
Proof.
  eexists _, _.
  match goal with |- (reachable ?c ?s /\ _) /\ _ => assert (Hr : reachable c s) end.
  { eapply (reach_new [] PyNone (Some 2) (Some 16) StandardState).
    - apply class_loaded.
    - exact I.
    - vm_compute. reflexivity. }
  assert (Hs : str "abc" <> []) by discriminate.
  assert (Hk : 0 <= 2) by lia.
  assert (Hl : len (_buffer (fresh (Some 2) (Some 16)) ++ str "abc") + 2 < 32) by reflexivity.
  split; [split; [exact Hr|split; [exact Hs|split; [exact Hk|exact Hl]]]|].
  match type of Hr with
  | reachable ?c ?s =>
      destruct (trailing_A_is_not_seen c s (str "abc") 2 Hs Hk Hl) as (Ho & Hh & Hd)
  end.
  split; [vm_compute; reflexivity|]. split; [vm_compute; reflexivity|].
  split; [vm_compute; reflexivity|]. split; [exact Hh|].
  split; [vm_compute; reflexivity|exact Hd].
Defined.

(** X16. A text that cannot be encoded stays in the buffer: in a reachable
    state, when the pending characters and a non-empty text together hold
    a character that UTF-8 cannot encode (a lone surrogate), [update]
    raises [UnicodeEncodeError] after it has extended the buffer and the
    counter: the character is still pending afterwards, the digest block is
    as before, and every later [update] with a non-empty text raises
    [UnicodeEncodeError] again. *)
Theorem unencodable_text_stays_in_the_buffer cls self s :
  reachable cls self -> s <> [] -> unencodable (_buffer self ++ s) ->
  exists self',
    update cls (PyStr s) self = (self', Raise UnicodeEncodeError) /\
    reachable cls self' /\ unencodable (_buffer self') /\
    _hashed self' = _hashed self /\ _counter self' = _counter self + len s /\
    (forall s', s' <> [] ->
       snd (update cls (PyStr s') self') = Raise UnicodeEncodeError).
Proof.
  intros Hr Hs Hbad.
  destruct (update_unencodable cls s self) as (self' & Hu & Hok & Hb & Hh & Hc);
    [by apply reachable_state_ok|done..|].
  exists self'. split; [done|]. split; [by eapply reach_update|].
  do 3 (split; [done|]). intros s' Hs'.
  destruct (update_unencodable cls s' self') as (self2 & Hu2 & _); [done..| |by rewrite Hu2].
  apply Exists_app. by left.
Qed.

Lemma unencodable_text_stays_in_the_buffer_witness :
  exists cls self,
    (reachable cls self /\ [97; 0xD800] <> [] /\ unencodable (_buffer self ++ [97; 0xD800])) /\
    exists self',
      update cls (PyStr [97; 0xD800]) self = (self', Raise UnicodeEncodeError) /\
      unencodable (_buffer self').
Proof.
  eexists _, _.
  match goal with |- (reachable ?c ?s /\ _) /\ _ => assert (Hr : reachable c s) end.
  { eapply (reach_new [] PyNone (Some 2) (Some 16) StandardState).
    - apply class_loaded.
    - exact I.
    - vm_compute. reflexivity. }
  assert (Hs : [97; 0xD800] <> []) by discriminate.
  assert (Hb : unencodable (_buffer (fresh (Some 2) (Some 16)) ++ [97; 0xD800])).
  { right. left. unfold code_point_ok. lia. }
  split; [split; [exact Hr|split; [exact Hs|exact Hb]]|].
  destruct (unencodable_text_stays_in_the_buffer _ _ _ Hr Hs Hb) as (self' & Hu & _ & Hbad & _).
  exists self'. split; [exact Hu|exact Hbad].
Defined.

(** X17. [update] reads the first [depth] layers only: for a hasher of
    depth at least 1, two class attributes that agree on their first
    [depth] layers give the same chunk blocks and the same result of
    [update], in every state and for every argument; layers beyond the
    depth, appended for deeper hashers, change nothing. *)
Theorem update_reads_the_first_depth_layers cls1 cls2 m self :
  1 <= depth self ->
  take (Z.to_nat (depth self)) cls1 = take (Z.to_nat (depth self)) cls2 ->
  update cls1 m self = update cls2 m self /\
  (forall chunk, _mirror256_process cls1 chunk self = _mirror256_process cls2 chunk self).
Proof.
  intros Hd Ht. split; [by apply update_same_prefix|].
  intros chunk. apply process_same_prefix. by apply self_last_hashes_prefix.
Qed.

Lemma update_reads_the_first_depth_layers_witness :
  (1 <= depth (fresh (Some 1) (Some 16)) /\
   take (Z.to_nat (depth (fresh (Some 1) (Some 16)))) [[6; 9; 1; 12]]
   = take (Z.to_nat (depth (fresh (Some 1) (Some 16)))) [[6; 9; 1; 12]; [1; 2; 3; 4]]) /\
  update [[6; 9; 1; 12]] (PyStr (str "abc")) (fresh (Some 1) (Some 16))
  = update [[6; 9; 1; 12]; [1; 2; 3; 4]] (PyStr (str "abc")) (fresh (Some 1) (Some 16)).
Proof.
  assert (Hd : 1 <= depth (fresh (Some 1) (Some 16))) by (vm_compute; discriminate).
  assert (Ht : take (Z.to_nat (depth (fresh (Some 1) (Some 16)))) [[6; 9; 1; 12]]
               = take (Z.to_nat (depth (fresh (Some 1) (Some 16)))) [[6; 9; 1; 12]; [1; 2; 3; 4]])
    by reflexivity.
  split; [split; [exact Hd|exact Ht]|].
  destruct (update_reads_the_first_depth_layers _ _ (PyStr (str "abc")) _ Hd Ht) as [Hu _].
  exact Hu.
Defined.

(** X18. The constructor only appends to the class attribute: whatever its
    argument and its outcome (also when it raises [TypeError]), a
    constructor call leaves the layers the class attribute had where they
    were and appends new ones until there are [depth] of them, so the
    attribute has [max(len, depth)] layers afterwards; when it already had
    [depth] layers nothing is appended, and then the outcome is the same
    for either value of [use_standard_state]. *)
Theorem constructor_only_appends_layers cls m d sz state cls' r :
  __init__ cls m d sz state = (cls', r) ->
  exists extra,
    cls' = cls ++ extra /\
    len cls' = Z.max (len cls) (or_default d DEFAULT_DEPTH) /\
    (or_default d DEFAULT_DEPTH <= len cls ->
     cls' = cls /\ forall state', __init__ cls m d sz state' = (cls', r)).
Proof.
  intros Hi. destruct (init_unfold cls m d sz state) as (extra & _ & Hl & Hn & Hu).
  rewrite Hu in Hi. injection Hi as <- <-.
  exists extra. do 2 (split; [done|]). intros Hfull.
  rewrite (Hn Hfull), app_nil_r. split; [done|]. intros state'.
  destruct (init_unfold cls m d sz state') as (extra' & _ & _ & Hn' & ->).
  by rewrite (Hn' Hfull), app_nil_r.
Qed.

Lemma constructor_only_appends_layers_witness :
  exists cls' r,
    __init__ [[1; 2]] (PyInt 7) (Some 2) (Some 16) StandardState = (cls', r) /\
    exists extra, cls' = [[1; 2]] ++ extra /\ len cls' = 2.
Proof.
  eexists _, _.
  match goal with
  | |- ?i = (?c, ?o) /\ _ => assert (Hi : i = (c, o)) by (vm_compute; reflexivity)
  end.
  split; [exact Hi|].
  destruct (constructor_only_appends_layers _ _ _ _ _ _ _ Hi) as (extra & He & Hl & _).
  exists extra. split; [exact He|exact Hl].
Defined.

(** X19. Constructing again gives the same hasher: after a constructor
    call, a second call with the same message, depth and size returns the
    same outcome (an equal hasher, or the same exception) and leaves the
    class attribute as the first call left it, whatever
    [use_standard_state] is the second time; and so does [new(m)] after
    [Mirror256(m)]. *)
Theorem constructing_again_gives_the_same_hasher cls m d sz state cls' r :
  __init__ cls m d sz state = (cls', r) ->
  (forall state', __init__ cls' m d sz state' = (cls', r)) /\
  (d = None -> sz = None -> new cls' m = (cls', r)).
Proof.
  intros Hi. destruct (init_unfold cls m d sz state) as (extra & _ & Hl & _ & Hu).
  rewrite Hu in Hi. injection Hi as <- <-.
  assert (Hagain : forall state', __init__ (cls ++ extra) m d sz state'
                     = (cls ++ extra,
                        match m with
                        | PyNone => Ok (fresh d sz)
                        | PyStr s =>
                            match update (cls ++ extra) (PyStr s) (fresh d sz) with
                            | (self, Ok _) => Ok self
                            | (_, Raise e) => Raise e
                            end
                        | _ => Raise TypeError
                        end)).
  { intros state'.
    destruct (init_unfold (cls ++ extra) m d sz state') as (extra' & _ & _ & Hn' & ->).
    rewrite Hn' by lia. by rewrite app_nil_r. }
  split; [done|]. intros -> ->. apply Hagain.
Qed.

Lemma constructing_again_gives_the_same_hasher_witness :
  exists cls' r,
    __init__ [] (PyStr (str "hi")) (Some 2) (Some 16) StandardState = (cls', r) /\
    __init__ cls' (PyStr (str "hi")) (Some 2) (Some 16) (RandomState (fun _ => 0)) = (cls', r).
Proof.
  eexists _, _.
  match goal with
  | |- ?i = (?c, ?o) /\ _ => assert (Hi : i = (c, o)) by (vm_compute; reflexivity)
  end.
  split; [exact Hi|].
  destruct (constructing_again_gives_the_same_hasher _ _ _ _ _ _ _ Hi) as [Hagain _].
  apply Hagain.
Defined.

(** X20. The digest does not depend on the hashers constructed before: when
    all the layers the class attribute holds are standard layers for one
    size (no constructor call used another size or
    [use_standard_state=False]), a constructor call with that size and a
    depth of at least 1 has the outcome it has as the first call of the
    program - an equal hasher, whatever the message is - and leaves a
    class attribute of standard layers whose first [depth] layers are those
    the first call of the program would have created. *)
Theorem constructor_does_not_depend_on_earlier_hashers cls m d sz cls' r cls0 r0 :
  standard_class (or_default sz DEFAULT_SIZE) cls ->
  1 <= or_default d DEFAULT_DEPTH ->
  __init__ cls m d sz StandardState = (cls', r) ->
  __init__ [] m d sz StandardState = (cls0, r0) ->
  r = r0 /\
  standard_class (or_default sz DEFAULT_SIZE) cls' /\
  take (Z.to_nat (or_default d DEFAULT_DEPTH)) cls' = cls0.
Proof.
  intros Hstd Hd Hi H0.
  pose proof (init_standard_class _ _ _ _ _ _ Hstd Hi) as Hstd'.
  assert (Hstd0 : standard_class (or_default sz DEFAULT_SIZE) cls0).
  { eapply init_standard_class; [|exact H0]. intros i layer Hl. done. }
  destruct (init_unfold cls m d sz StandardState) as (extra & _ & Hl & _ & Hu).
  destruct (init_unfold [] m d sz StandardState) as (extra0 & _ & Hl0 & _ & Hu0).
  rewrite Hu in Hi. injection Hi as <- <-. rewrite Hu0 in H0. injection H0 as <- <-.
  assert (Hlen0 : length ([] ++ extra0) = Z.to_nat (or_default d DEFAULT_DEPTH)).
  { unfold len in Hl0. simpl in *. lia. }
  assert (Ht : take (Z.to_nat (or_default d DEFAULT_DEPTH)) (cls ++ extra)
               = take (Z.to_nat (or_default d DEFAULT_DEPTH)) ([] ++ extra0)).
  { apply (standard_class_prefix (or_default sz DEFAULT_SIZE)); [done..| |lia].
    unfold len in Hl. lia. }
  split; [|split; [done|]].
  - destruct m as [| | |s| |]; try done.
    by rewrite (update_same_prefix (cls ++ extra) ([] ++ extra0) (PyStr s) (fresh d sz) Hd Ht).
  - rewrite Ht. apply take_ge. simpl in *. lia.
Qed.

Lemma constructor_does_not_depend_on_earlier_hashers_witness :
  exists cls' r cls0 r0,
    (standard_class (or_default (Some 16) DEFAULT_SIZE)
       [[10; 5; 4; 13; 13; 13; 3; 5]; [13; 4; 8; 14; 15; 0; 5; 8]; [3; 4; 2; 6; 4; 0; 15; 4]] /\
     1 <= or_default (Some 2) DEFAULT_DEPTH /\
     __init__ [[10; 5; 4; 13; 13; 13; 3; 5]; [13; 4; 8; 14; 15; 0; 5; 8]; [3; 4; 2; 6; 4; 0; 15; 4]]
       (PyStr (str "hi")) (Some 2) (Some 16) StandardState = (cls', r) /\
     __init__ [] (PyStr (str "hi")) (Some 2) (Some 16) StandardState = (cls0, r0)) /\
    r = r0.
Proof.
  eexists _, _, _, _.
  match goal with |- (?S /\ ?D /\ ?i = (?c, ?o) /\ ?i0 = (?c0, ?o0)) /\ _ =>
    assert (Hs : S);
      [|assert (Hd : D) by (vm_compute; discriminate);
        assert (Hi : i = (c, o)) by (vm_compute; reflexivity);
        assert (H0 : i0 = (c0, o0)) by (vm_compute; reflexivity)]
  end.
  { intros [|[|[|i]]] layer Hl; simpl in Hl; try discriminate Hl;
      injection Hl as <-; vm_compute; reflexivity. }
  split; [split; [exact Hs|split; [exact Hd|split; [exact Hi|exact H0]]]|].
  destruct (constructor_does_not_depend_on_earlier_hashers _ _ _ _ _ _ _ _ Hs Hd Hi H0)
    as [Hr _].
  exact Hr.
Defined.

(** X21. Hashing a text end to end: for every text of encodable
    characters, [new(m)] returns a hasher, whatever constructors ran
    before; its [hexdigest()] is "0x" followed by 64 lowercase hexadecimal
    characters, 66 characters in all, and [digest()] is 32 octets. *)
Theorem new_hexdigest_has_66_characters cls s :
  class_reachable cls -> text_ok s ->
  exists cls' h dg,
    new cls (PyStr s) = (cls', Ok h) /\
    reachable cls' h /\
    digest h = (h, Ok dg) /\ len dg = 32 /\ Forall octet dg /\
    hexdigest h = (h, Ok ("0x" ++ hexlify dg)%string) /\
    String.length ("0x" ++ hexlify dg) = 66%nat /\
    Forall (fun c => Spec.lowercase_hex c = true) (list_ascii_of_string (hexlify dg)).
Proof.
  intros Hc Hs. unfold new.
  destruct (init_unfold cls (PyStr s) None None StandardState) as (extra & H0 & _ & _ & Hi).
  apply init_fresh_state_ok in H0 as [_ Hok]; [|exact I|by apply class_reachable_ok].
  destruct (update_total (cls ++ extra) s (fresh None None) Hok) as (h & Hu & Hokh & _);
    [constructor|done|].
  rewrite Hu in Hi. exists (cls ++ extra), h.
  pose proof (update_same_config _ _ _ _ _ Hu) as [_ Hsz].
  destruct (pack_ok h (_hashed h)) as (dg & Hp & Hl & Ho); [by rewrite Hsz|apply Hokh|].
  exists dg. split; [done|].
  split; [by apply (reach_new cls (PyStr s) None None StandardState)|].
  split; [unfold digest, lift; by rewrite Hp|].
  rewrite Hsz in Hl. change (size (fresh None None) `div` 8) with 32 in Hl.
  do 2 (split; [done|]).
  split; [unfold hexdigest, mbind, method_bind, digest, lift; by rewrite Hp|].
  split; [|apply hexlify_lowercase].
  simpl. rewrite length_hexlify. unfold len in Hl. lia.
Qed.

Lemma new_hexdigest_has_66_characters_witness :
  (class_reachable [] /\ text_ok (str "This is the canary.")) /\
  exists cls' h dg,
    new [] (PyStr (str "This is the canary.")) = (cls', Ok h) /\
    hexdigest h = (h, Ok ("0x" ++ hexlify dg)%string) /\
    String.length ("0x" ++ hexlify dg) = 66%nat.
Proof.
  assert (Hc : class_reachable []) by apply class_loaded.
  assert (Hs : text_ok (str "This is the canary.")) by apply text_ok_str.
  split; [split; [exact Hc|exact Hs]|].
  destruct (new_hexdigest_has_66_characters [] (str "This is the canary.") Hc Hs)
    as (cls' & h & dg & Hn & _ & _ & _ & _ & Hh & Hl & _).
  exists cls', h, dg. split; [exact Hn|]. split; [exact Hh|exact Hl].
Defined.

(** X22. [cubic_root_array] reads eight hexadecimal digits: for every
    [cr >= 0] it returns the digits of [cr] at the positions 16^9 down to
    16^2, most significant first, that is [cr // 16^(9-i) % 16] for
    [i = 0 .. 7]: the two lowest digits and everything above the tenth are
    dropped. *)
Theorem cubic_root_array_reads_eight_digits cr :
  0 <= cr ->
  cubic_root_array cr = Ok ((fun i => (cr `div` 16 ^ (9 - i)) `mod` 16) <$> range 8).
Proof.
  apply cubic_root_array_spec.
Qed.

Lemma cubic_root_array_reads_eight_digits_witness :
  0 <= 0xa54ddd35b5 /\ cubic_root_array 0xa54ddd35b5 = Ok [10; 5; 4; 13; 13; 13; 3; 5].
Proof.
  assert (H : 0 <= 0xa54ddd35b5) by lia.
  split; [exact H|].
  rewrite (cubic_root_array_reads_eight_digits 0xa54ddd35b5 H). reflexivity.
Defined.

(** X23. The standard key schedule in closed form: every layer a
    constructor call with [use_standard_state] appends to the class
    attribute depends on its index [i] and the size only: for [i < 64] it
    is the eight digits [cubic_root_array] reads from the [i]-th table
    entry followed by [size // 4 - 8] copies of [(i + 1) % 16] (so it has
    8 entries when [size // 4] is less), and for [i >= 64] it is
    [(i + j) % 16] for [j = 0 .. size // 4 - 1]. *)
Theorem standard_schedule_layers cls m d sz cls' r :
  __init__ cls m d sz StandardState = (cls', r) ->
  forall i layer,
    (length cls <= i)%nat -> cls' !! i = Some layer ->
    layer = standard_layer_at (or_default sz DEFAULT_SIZE) i /\
    len layer = if (i <? 64)%nat then Z.max 8 (or_default sz DEFAULT_SIZE `div` 4)
                else Z.max 0 (or_default sz DEFAULT_SIZE `div` 4).
Proof.
  intros Hi i layer Hge Hl.
  rewrite (init_standard_layers _ _ _ _ _ _ Hi i layer Hge Hl). split; [done|].
  unfold standard_layer_at, len.
  destruct (Nat.ltb_spec i 64) as [Hlt|Hge64].
  - destruct (lookup_lt_is_Some_2 FIRST_PRIMES_CUBIC_ROOT_DEC_REP i) as [cr ->]; [simpl; lia|].
    rewrite length_app, length_fmap, length_replicate, len_range. lia.
  - rewrite lookup_ge_None_2 by (simpl; lia). rewrite length_fmap, len_range. lia.
Qed.

Lemma standard_schedule_layers_witness :
  exists cls' r,
    __init__ [] PyNone (Some 2) (Some 40) StandardState = (cls', r) /\
    forall layer, cls' !! 1%nat = Some layer -> layer = [13; 4; 8; 14; 15; 0; 5; 8; 2; 2].
Proof.
  eexists _, _.
  match goal with
  | |- ?i = (?c, ?o) /\ _ => assert (Hi : i = (c, o)) by (vm_compute; reflexivity)
  end.
  split; [exact Hi|]. intros layer Hl.
  destruct (standard_schedule_layers _ _ _ _ _ _ Hi 1%nat layer) as [-> _];
    [simpl; lia|exact Hl|reflexivity].
Defined.

(** X24. The random key schedule re-draws the same values: a constructor
    call with [use_standard_state=False] seeds the generator anew, so the
    layers it appends to a class attribute that had [len] layers are the
    consecutive draws of the same sequence: entry [j] of layer [i] is draw
    number [(i - len) * (size // 4) + j], whatever [i] is: the layers a
    later call appends start again at the first draw. *)
Theorem random_schedule_layers cls m d sz randint cls' r :
  __init__ cls m d sz (RandomState randint) = (cls', r) ->
  forall i layer,
    (length cls <= i)%nat -> cls' !! i = Some layer ->
    layer = (fun j => randint ((i - length cls)
                               * Z.to_nat (or_default sz DEFAULT_SIZE `div` 4) + j)%nat)
              <$> seq 0 (Z.to_nat (or_default sz DEFAULT_SIZE `div` 4)).
Proof.
  intros Hi i layer Hge Hl.
  destruct (init_unfold cls m d sz (RandomState randint)) as (extra & H0 & _ & _ & Hu).
  rewrite Hu in Hi. injection Hi as <- _.
  unfold init_last_hashes in H0. destruct (len cls <? depth (fresh d sz)).
  - by apply (init_random_state_layers _ _ _ _ _ _ _ H0 i layer Hge Hl).
  - injection H0 as H0. rewrite <- H0 in Hl. apply lookup_lt_Some in Hl. lia.
Qed.

Lemma random_schedule_layers_witness :
  exists cls0 r0 cls' r,
    __init__ [] PyNone (Some 1) (Some 16) (RandomState (fun k => Z.of_nat k `mod` 16))
    = (cls0, r0) /\
    __init__ cls0 PyNone (Some 2) (Some 16) (RandomState (fun k => Z.of_nat k `mod` 16))
    = (cls', r) /\
    forall layer, cls' !! 1%nat = Some layer -> layer = [0; 1; 2; 3].
Proof.
  eexists _, _, _, _.
  split; [vm_compute; reflexivity|].
  match goal with
  | |- ?i = (?c, ?o) /\ _ => assert (Hi : i = (c, o)) by (vm_compute; reflexivity)
  end.
  split; [exact Hi|]. intros layer Hl.
  rewrite (random_schedule_layers _ _ _ _ _ _ _ Hi 1%nat layer); [reflexivity| |exact Hl].
  simpl. lia.
Defined.

(** X25. The demonstration hashes to zero: [random_alphanumeric_string(n)]
    returns [n] characters, all of them uppercase letters or digits; and
    the hasher the demonstration constructs from
    [random_alphanumeric_string(32)] has the digest of 32 octets 0x00 and
    the hexdigest "0x" followed by 64 zeros, whatever characters were
    drawn, because 32 characters end on a chunk boundary. *)
Theorem random_message_of_32_characters_hashes_to_zero choice drawn cls :
  choice_ok choice -> class_reachable cls ->
  (forall n, 0 <= n ->
     len (random_alphanumeric_string choice drawn n) = n /\
     Forall (fun c => c ∈ ALPHANUMERIC) (random_alphanumeric_string choice drawn n)) /\
  exists cls' h,
    __init__ cls (PyStr (random_alphanumeric_string choice drawn 32)) None None StandardState
    = (cls', Ok h) /\
    digest h = (h, Ok (replicate 32 0)) /\
    hexdigest h
    = (h, Ok "0x0000000000000000000000000000000000000000000000000000000000000000"%string).
Proof.
  intros Hch Hc.
  assert (Hstr : forall n, 0 <= n ->
            len (random_alphanumeric_string choice drawn n) = n /\
            Forall (fun c => c ∈ ALPHANUMERIC) (random_alphanumeric_string choice drawn n)).
  { intros n Hn. unfold random_alphanumeric_string, len.
    rewrite length_fmap, length_seq. split; [lia|].
    apply Forall_fmap, Forall_forall. intros k _. apply Hch. }
  split; [done|]. destruct (Hstr 32 ltac:(lia)) as [Hlen Hall].
  set (m := random_alphanumeric_string choice drawn 32) in *.
  assert (Hm : text_ok m).
  { eapply Forall_impl; [exact Hall|]. intros c. apply alphanumeric_text_ok. }
  destruct (init_unfold cls (PyStr m) None None StandardState) as (extra & H0 & _ & _ & Hi).
  apply init_fresh_state_ok in H0 as [_ Hok]; [|exact I|by apply class_reachable_ok].
  destruct (update_on_boundary (cls ++ extra) m (fresh None None) Hok)
    as (h & Hu & _ & Hh & _ & Hsz); [constructor|done| |by rewrite app_nil_l, Hlen|].
  { intros Hnil. by rewrite Hnil in Hlen. }
  rewrite Hu in Hi. exists (cls ++ extra), h. split; [done|].
  assert (Hp : _pack h (_hashed h) = Ok (replicate 32 0)).
  { rewrite Hh. simpl _hashed. rewrite pack_empty by (by rewrite Hsz). by rewrite Hsz. }
  split; [unfold digest, lift; by rewrite Hp|].
  unfold hexdigest, mbind, method_bind, digest, lift. by rewrite Hp.
Qed.

Lemma random_message_of_32_characters_hashes_to_zero_witness :
  (choice_ok (fun k => if Nat.even k then 65 else 57) /\ class_reachable []) /\
  exists cls' h,
    __init__ [] (PyStr (random_alphanumeric_string (fun k => if Nat.even k then 65 else 57) 0 32))
      None None StandardState
    = (cls', Ok h) /\
    digest h = (h, Ok (replicate 32 0)).
Proof.
  assert (Hch : choice_ok (fun k => if Nat.even k then 65 else 57)).
  { intros k. destruct (Nat.even k).
    - apply list_elem_of_here.
    - do 35 apply list_elem_of_further. apply list_elem_of_here. }
  assert (Hc : class_reachable []) by apply class_loaded.
  split; [split; [exact Hch|exact Hc]|].
  destruct (random_message_of_32_characters_hashes_to_zero _ 0%nat [] Hch Hc)
    as (_ & cls' & h & Hn & Hd & _).
  exists cls', h. split; [exact Hn|exact Hd].
Defined.

(** X26. A negative size is accepted and breaks the digest: the
    constructor takes a negative [size] as it is and returns a hasher, but
    in every state of a hasher of negative size [digest()] and
    [hexdigest()] raise [struct.error], since [size // 8] is negative and
    is not a count [struct.pack] accepts; in reachable states of a hasher
    whose size is not negative [digest()] returns. *)
Theorem negative_size_breaks_the_digest cls self :
  reachable cls self ->
  (forall cls0 d sz state,
     sz < 0 ->
     exists cls1, __init__ cls0 PyNone d (Some sz) state = (cls1, Ok (fresh d (Some sz))) /\
                  size (fresh d (Some sz)) = sz) /\
  (size self < 0 ->
   digest self = (self, Raise StructError) /\ hexdigest self = (self, Raise StructError)) /\
  (0 <= size self -> exists dg, digest self = (self, Ok dg)).
Proof.
  intros Hr. split; [|split].
  - intros cls0 d sz state Hsz. destruct (init_none cls0 d (Some sz) state) as [cls1 Hi].
    exists cls1. split; [done|]. simpl. by destruct (Z.eqb_spec sz 0); [lia|].
  - intros Hneg.
    assert (Hp : _pack self (_hashed self) = Raise StructError).
    { unfold _pack. rewrite range_nonpos by lia. unfold repeat.
      replace (Z.to_nat (size self `div` 8)) with 0%nat by lia. simpl.
      unfold struct_pack_B. destruct (Z.ltb_spec (size self `div` 8) 0); [done|lia]. }
    split; [unfold digest, lift; by rewrite Hp|].
    unfold hexdigest, mbind, method_bind, digest, lift. by rewrite Hp.
  - intros Hpos. apply reachable_state_ok in Hr as (_ & _ & Hh & _).
    destruct (pack_ok self (_hashed self) Hpos Hh) as (dg & Hp & _).
    exists dg. unfold digest, lift. by rewrite Hp.
Qed.

Lemma negative_size_breaks_the_digest_witness :
  exists cls self,
    reachable cls self /\ size self < 0 /\
    digest self = (self, Raise StructError).
Proof.
  eexists _, _.
  match goal with |- reachable ?c ?s /\ _ => assert (Hr : reachable c s) end.
  { eapply (reach_new [] (PyStr (str "hi")) (Some 2) (Some (-8)) StandardState).
    - apply class_loaded.
    - exact I.
    - vm_compute. reflexivity. }
  split; [exact Hr|]. split; [reflexivity|].
  destruct (negative_size_breaks_the_digest _ _ Hr) as (_ & Hneg & _).
  destruct Hneg as [Hd _]; [reflexivity|exact Hd].
Defined.

(** X27. A negative depth leaves the message in clear: the constructor
    takes a negative [depth] as it is and appends no layer for it, and a
    hasher whose depth is not positive runs no layer, so
    [_mirror256_process] returns what [_unpack] returns; for size 256 the
    digest after an [update] that leaves fewer than 32 characters pending
    is the UTF-8 bytes of the pending characters themselves, cut or padded
    with 'A' to 32. *)
Theorem negative_depth_leaves_the_message_in_clear cls self s bytes :
  depth self <= 0 -> size self = 256 ->
  s <> [] -> len (_buffer self ++ s) < 32 ->
  encode_utf8 (_buffer self ++ s) = Ok bytes ->
  (forall cls0 d sz state,
     d < 0 ->
     __init__ cls0 PyNone (Some d) sz state = (cls0, Ok (fresh (Some d) sz)) /\
     depth (fresh (Some d) sz) = d) /\
  (forall m, _mirror256_process cls m self = _unpack m) /\
  exists self',
    update cls (PyStr s) self = (self', Ok ()) /\
    digest self' = (self', Ok (Spec.chunk32 bytes)).
Proof.
  intros Hd Hsz Hs Hlen He.
  assert (Hproc : forall m, _mirror256_process cls m self = _unpack m).
  { intros m. unfold _mirror256_process. rewrite range_nonpos by done.
    by destruct (_unpack m). }
  split; [|split; [done|]].
  { intros cls0 d sz state Hneg.
    assert (Hdepth : depth (fresh (Some d) sz) = d).
    { simpl. by destruct (Z.eqb_spec d 0); [lia|]. }
    split; [|done]. unfold __init__, init_last_hashes. rewrite Hdepth.
    pose proof (len_nonneg cls0). by destruct (Z.ltb_spec (len cls0) d); [lia|]. }
  destruct (padded_bytes _ _ Hlen He) as (padded & Hp & Hc).
  rewrite update_short, Hproc, (unpack_refines _ padded Hp) by done.
  eexists. split; [done|]. unfold digest, lift. simpl _hashed. f_equal.
  rewrite pack_spec by (simpl; lia || apply spec_unpack_ok).
  simpl size. rewrite Hsz. change (Z.to_nat (256 `div` 8)) with 32%nat.
  unfold Spec.unpack. rewrite pack_nibbles by (by eapply chunk32_octets, encode_utf8_octets).
  rewrite length_chunk32, Nat.sub_diag. simpl replicate.
  rewrite app_nil_r, take_ge by (by rewrite length_chunk32). by rewrite Hc.
Qed.

Lemma negative_depth_leaves_the_message_in_clear_witness :
  (depth (fresh (Some (-1)) None) <= 0 /\ size (fresh (Some (-1)) None) = 256 /\
   str "secret" <> [] /\ len (_buffer (fresh (Some (-1)) None) ++ str "secret") < 32 /\
   encode_utf8 (_buffer (fresh (Some (-1)) None) ++ str "secret") = Ok (str "secret")) /\
  exists self',
    update [] (PyStr (str "secret")) (fresh (Some (-1)) None) = (self', Ok ()) /\
    digest self' = (self', Ok (str "secretAAAAAAAAAAAAAAAAAAAAAAAAAA")).
Proof.
  assert (Hd : depth (fresh (Some (-1)) None) <= 0) by (vm_compute; discriminate).
  assert (Hz : size (fresh (Some (-1)) None) = 256) by reflexivity.
  assert (Hs : str "secret" <> []) by discriminate.
  assert (Hl : len (_buffer (fresh (Some (-1)) None) ++ str "secret") < 32) by reflexivity.
  assert (He : encode_utf8 (_buffer (fresh (Some (-1)) None) ++ str "secret")
               = Ok (str "secret")) by reflexivity.
  split; [split; [exact Hd|split; [exact Hz|split; [exact Hs|split; [exact Hl|exact He]]]]|].
  destruct (negative_depth_leaves_the_message_in_clear [] _ _ _ Hd Hz Hs Hl He)
    as (_ & _ & self' & Hu & Hdg).
  exists self'. split; [exact Hu|exact Hdg].
Defined.

(** X28. The schedule of the instance has exactly [depth] layers: in every
    reachable state of a hasher of depth at least 1, once [update] has
    hashed a full chunk (the instance has a schedule of its own), that
    schedule has exactly [depth] layers, the first of them the block of 64
    nibbles of the last full chunk; before that the hasher reads the class
    attribute, which has at least [depth] layers. *)
Theorem own_schedule_has_depth_layers cls self :
  reachable cls self -> 1 <= depth self ->
  (forall own,
     _last_hashes self = Some own ->
     len own = depth self /\ exists hm rest, own = hm :: rest /\ shape_ok 64 hm) /\
  (_last_hashes self = None -> depth self <= len cls) /\
  depth self <= len (self_last_hashes cls self).
Proof.
  intros Hr Hd. pose proof (reachable_own_schedule cls self Hr) as Hown.
  apply reachable_state_ok in Hr as (_ & _ & _ & _ & Hlen).
  split; [|split; [|done]].
  - intros own Ho. destruct (Hown own Ho) as [Hl Hhead]. split; [by apply Hl|done].
  - intros Hnone. unfold self_last_hashes in Hlen. by rewrite Hnone in Hlen.
Qed.

Lemma own_schedule_has_depth_layers_witness :
  exists cls self,
    (reachable cls self /\ 1 <= depth self) /\
    forall own, _last_hashes self = Some own -> len own = depth self.
Proof.
  eexists _, _.
  match goal with |- (reachable ?c ?s /\ _) /\ _ => assert (Hr : reachable c s) end.
  { eapply (reach_new [] (PyStr (repeat 97 40)) (Some 2) (Some 16) StandardState).
    - apply class_loaded.
    - exact I.
    - vm_compute. reflexivity. }
  assert (Hd : 1 <= 2) by lia.
  split; [split; [exact Hr|exact Hd]|].
  intros own Ho.
  destruct (own_schedule_has_depth_layers _ _ Hr Hd) as (Hown & _).
  destruct (Hown own Ho) as [Hl _]. exact Hl.
Defined.
